(** * The platform-connection orchestrator ([useConnectionStatus])

    A shallow embedding of the hook.  The hook's React state (the three
    [useState] cells) is an explicit record, the two [useEffect] bodies and
    [runConnection] are functions in a small state-and-exception monad, and
    every suspension point of the source (an [await] on the Connector, a
    [setTimeout]) parks a task that the environment resumes later, a timer
    never before it is due.  JavaScript numbers that are array indices or the
    clock (in milliseconds) are [Z]; the two [Math.random()] draws and the
    delay computed from one of them are binary64 values ([float]).

    The file has three parts: the hook, the vocabulary in which its
    properties are stated, and the lemmas and theorems.  The two services of
    the repository (authentication, portfolio) come after the hook in each
    part. *)

From Stdlib Require Import String List ZArith Bool Lia Floats.
From Stdlib Require Import Ascii DecimalString DecimalNat.
Import ListNotations.

Local Open Scope Z_scope.
Set Implicit Arguments.

(** * The hook *)

(** ** Data model *)

(** [ConnectionState['status']] *)
Inductive Status : Type := pending | connecting | success | error.

Definition Status_eqb (a b : Status) : bool :=
  match a, b with
  | pending, pending | connecting, connecting
  | success, success | error, error => true
  | _, _ => false
  end.

(** [ConnectionState]: [{ platformId, status }] *)
Record ConnectionState : Type := mkConn {
  platformId : string;
  status : Status
}.

(** [Record<string, string>] *)
Definition Credentials : Type := list (string * string).

(** The value a Connector's promise is fulfilled with: ['success' | 'error']. *)
Inductive Outcome : Type := OSuccess | OError.

Definition status_of_outcome (o : Outcome) : Status :=
  match o with OSuccess => success | OError => error end.

(** How the promise returned by the Connector settles. *)
Inductive Settlement : Type := Fulfilled (o : Outcome) | Rejected.

(** A call of the Connector either throws synchronously or returns a promise. *)
Inductive ConnectorCall : Type := Throws | Returns (p : Settlement).

Definition Connector : Type := string -> option Credentials -> ConnectorCall.

(** [UseConnectionStatusProps]; [autoStart] is optional and defaults to true. *)
Record Props : Type := mkProps {
  platformIds : list string;
  autoStartProp : option bool;
  connectPlatform : option Connector
}.

Definition autoStart (p : Props) : bool :=
  match autoStartProp p with Some b => b | None => true end.

(** Who awaits a [runConnection] call: [retryConnection] drops the promise,
    the sequencer effect continues after it with the [currentIndex] and
    [connections.length] its closure captured. *)
Inductive Caller : Type :=
  | FromRetry
  | FromSequencer (capturedIndex capturedLength : Z).

Inductive TimerAction : Type :=
  | AdvanceTo (i : Z)      (* () => setCurrentIndex(currentIndex + 1) *)
  | MarkComplete.          (* () => setAllComplete(true) *)

(** Deferred continuations: the rest of [runConnection] after [await
    connectPlatform(...)], the rest of it after the fallback [setTimeout]
    (with the delay requested and the instant from which it may fire), and
    the sequencer's settle timer. *)
Inductive Task : Type :=
  | AwaitConnector (index : Z) (p : Settlement) (k : Caller)
  | MockDelay (index : Z) (delay : float) (due : Z) (k : Caller)
  | SettleTimer (due : Z) (a : TimerAction).

(** One [setConnections] write, stamped with the clock (a history variable). *)
Record Write : Type := mkWrite {
  w_time : Z;
  w_index : Z;
  w_status : Status
}.

Record HookState : Type := mkState {
  connections : list ConnectionState;
  currentIndex : Z;
  allComplete : bool;
  props : Props;                       (* props of the latest render *)
  pendingTasks : list (nat * Task);
  nextTask : nat;
  now : Z;
  history : list Write                 (* newest first *)
}.

(** ** Ledger operations *)

(** [connections[index]] for a JavaScript number that is an integer. *)
Definition lookup (index : Z) (l : list ConnectionState) : option ConnectionState :=
  if index <? 0 then None else nth_error l (Z.to_nat index).

(** [prev.map((c, i) => f(c, i))], with the running index made explicit. *)
Fixpoint map_indexed (f : ConnectionState -> Z -> ConnectionState) (i : Z)
    (l : list ConnectionState) : list ConnectionState :=
  match l with
  | [] => []
  | c :: l' => f c i :: map_indexed f (i + 1) l'
  end.

(** [prev.map((c, i) => i === index ? { ...c, status } : c)] *)
Definition set_status (index : Z) (st : Status) (prev : list ConnectionState)
    : list ConnectionState :=
  map_indexed
    (fun c i => if i =? index then mkConn (platformId c) st else c) 0 prev.

(** [connections.filter((c) => c.status === 'success').length] *)
Definition successCount (s : HookState) : nat :=
  length (filter (fun c => Status_eqb (status c) success) (connections s)).

(** [!platformId] for a string: only the empty string is falsy. *)
Definition falsy (id : string) : bool :=
  match id with EmptyString => true | _ => false end.

(** ** The fallback draws *)

(** [1500 + Math.random() * 1500] *)
Definition mock_delay (rand : float) : float := (1500 + rand * 1500)%float.

(** The whole milliseconds of a delay handed to [setTimeout].  Hosts differ
    on a fractional delay (a browser truncates it, others wait it out), but
    none runs the callback before this many milliseconds have passed.  A
    delay that is not a positive number counts as 0. *)
Definition delay_floor (delay : float) : Z :=
  match Prim2SF delay with
  | S754_finite false m e => Z.shiftl (Zpos m) e
  | _ => 0
  end.

(** [Math.random() > 0.1]; as in JavaScript, the literal 0.1 denotes the
    binary64 value nearest to it, [0x1.999999999999ap-4]. *)
#[local] Set Warnings "-inexact-float".
Definition mock_success (rand : float) : bool := (0.1 <? rand)%float.

(** ** A state monad with JavaScript's exceptions *)

Inductive Completion (A : Type) : Type :=
  | Normal (a : A)
  | Throw.

Arguments Throw {A}.

Definition Eff (A : Type) : Type := HookState -> Completion A * HookState.

Definition ret {A} (a : A) : Eff A := fun s => (Normal a, s).

Definition bind {A B} (m : Eff A) (f : A -> Eff B) : Eff B :=
  fun s =>
    match m s with
    | (Normal a, s') => f a s'
    | (Throw, s') => (Throw, s')
    end.

Definition throw {A} : Eff A := fun s => (Throw, s).

(** [try { body } catch { handler }] *)
Definition try_catch {A} (body handler : Eff A) : Eff A :=
  fun s =>
    match body s with
    | (Normal a, s') => (Normal a, s')
    | (Throw, s') => handler s'
    end.

Definition get : Eff HookState := fun s => (Normal s, s).

Definition modify (f : HookState -> HookState) : Eff unit := fun s => (Normal tt, f s).

Declare Scope eff_scope.

Delimit Scope eff_scope with eff.

Notation "x <- m ;; k" := (bind m (fun x => k))
  (at level 61, m at next level, right associativity) : eff_scope.

Notation "m ;; k" := (bind m (fun _ => k))
  (at level 61, right associativity) : eff_scope.

Local Open Scope eff_scope.

(** ** State updates *)

(** [setConnections(prev => prev.map(...))]: a functional update of the
    current ledger, recorded in the history. *)
Definition setConnections (index : Z) (st : Status) : Eff unit :=
  modify (fun s =>
    mkState (set_status index st (connections s)) (currentIndex s)
      (allComplete s) (props s) (pendingTasks s) (nextTask s) (now s)
      (mkWrite (now s) index st :: history s)).

(** [setAllComplete(b)] *)
Definition setAllComplete (b : bool) : Eff unit :=
  modify (fun s =>
    mkState (connections s) (currentIndex s) b (props s) (pendingTasks s)
      (nextTask s) (now s) (history s)).

Definition with_currentIndex (v : Z) (s : HookState) : HookState :=
  mkState (connections s) v (allComplete s) (props s) (pendingTasks s)
    (nextTask s) (now s) (history s).

Definition with_props (p : Props) (s : HookState) : HookState :=
  mkState (connections s) (currentIndex s) (allComplete s) p (pendingTasks s)
    (nextTask s) (now s) (history s).

Definition with_tasks (ts : list (nat * Task)) (s : HookState) : HookState :=
  mkState (connections s) (currentIndex s) (allComplete s) (props s) ts
    (nextTask s) (now s) (history s).

Definition with_now (t : Z) (s : HookState) : HookState :=
  mkState (connections s) (currentIndex s) (allComplete s) (props s)
    (pendingTasks s) (nextTask s) t (history s).

(** Park a continuation until the environment resumes it. *)
Definition suspend (t : Task) : Eff unit :=
  modify (fun s =>
    mkState (connections s) (currentIndex s) (allComplete s) (props s)
      (pendingTasks s ++ [(nextTask s, t)]) (S (nextTask s)) (now s) (history s)).

(** [setTimeout(action, delay)] for an integral delay. *)
Definition setTimeout (a : TimerAction) (delay : Z) : Eff unit :=
  s <- get ;; suspend (SettleTimer (now s + delay) a).

(** ** [runConnection] and the two effects *)

(** What follows [await runConnection(currentIndex)] in the sequencer effect;
    [retryConnection] has nothing after the call. *)
Definition resume_caller (k : Caller) : Eff unit :=
  match k with
  | FromRetry => ret tt
  | FromSequencer i len =>
      if i <? len - 1 then setTimeout (AdvanceTo (i + 1)) 500
      else setTimeout MarkComplete 500
  end.

(** The Connector is called inside the [try]: a synchronous throw is a
    [Throw] completion of the call. *)
Definition call_connector (f : Connector) (id : string)
    (credentials : option Credentials) : Eff Settlement :=
  match f id credentials with
  | Throws => throw
  | Returns p => ret p
  end.

(** [await promise]: a rejection resumes the function with a throw. *)
Definition await_settled (p : Settlement) : Eff Outcome :=
  match p with
  | Fulfilled o => ret o
  | Rejected => throw
  end.

(** [runConnection(index, credentials)] up to its first suspension point. *)
Definition runConnection (rand : float) (index : Z)
    (credentials : option Credentials) (k : Caller) : Eff unit :=
  s <- get ;;
  match lookup index (connections s) with
  | None => resume_caller k                       (* platformId is undefined *)
  | Some c =>
      if falsy (platformId c) then resume_caller k
      else
        setConnections index connecting ;;
        match connectPlatform (props s) with
        | Some f =>
            r <- try_catch
                   (p <- call_connector f (platformId c) credentials ;; ret (Some p))
                   (setConnections index error ;; ret None) ;;
            match r with
            | Some p => suspend (AwaitConnector index p k)
            | None => resume_caller k
            end
        | None =>
            suspend (MockDelay index (mock_delay rand)
                       (now s + delay_floor (mock_delay rand)) k)
        end
  end.

(** The rest of [runConnection] once the Connector's promise has settled. *)
Definition settle_connection (index : Z) (p : Settlement) (k : Caller) : Eff unit :=
  try_catch
    (o <- await_settled p ;; setConnections index (status_of_outcome o))
    (setConnections index error) ;;
  resume_caller k.

(** The rest of [runConnection] once the fallback timer has fired. *)
Definition settle_mock (rand : float) (index : Z) (k : Caller) : Eff unit :=
  setConnections index (if mock_success rand then success else error) ;;
  resume_caller k.

(** The second effect, run when [currentIndex] changes. *)
Definition sequencerEffect (rand : float) : Eff unit :=
  s <- get ;;
  let i := currentIndex s in
  let len := Z.of_nat (length (connections s)) in
  if (0 <=? i) && (i <? len)
  then runConnection rand i None (FromSequencer i len)
  else ret tt.

(** [setCurrentIndex(v)]: an unchanged value schedules nothing, a changed one
    re-renders and the sequencer effect runs on the new dependency. *)
Definition setCurrentIndex (rand : float) (v : Z) : Eff unit :=
  s <- get ;;
  if currentIndex s =? v then ret tt
  else modify (with_currentIndex v) ;; sequencerEffect rand.

(** The first effect, run on mount and when [autoStart] changes. *)
Definition autoStartEffect (rand : float) : Eff unit :=
  s <- get ;;
  if autoStart (props s) && (currentIndex s =? -1)
     && (0 <? Z.of_nat (length (connections s)))
  then setCurrentIndex rand 0
  else ret tt.

(** [retryConnection(index, credentials)] *)
Definition retryConnection (rand : float) (index : Z)
    (credentials : option Credentials) : Eff unit :=
  runConnection rand index credentials FromRetry.

(** What a render returns to the caller: the ledger, the two signals and
    the one operation, [retryConnection]. *)
Record HookResult : Type := mkResult {
  out_connections : list ConnectionState;
  out_allComplete : bool;
  out_successCount : nat;
  out_retryConnection : Z -> option Credentials -> Eff unit
}.

Definition useConnectionStatus_result (rand : float) (s : HookState) : HookResult :=
  mkResult (connections s) (allComplete s) (successCount s) (retryConnection rand).

(** ** Mounting and the event loop *)

(** The three [useState] initialisers of the first render. *)
Definition initialState (p : Props) : HookState :=
  mkState (map (fun id => mkConn id pending) (platformIds p)) (-1) false p [] 0 0 [].

(** First commit: both effects run; the sequencer effect of the first render
    sees [currentIndex = -1] and does nothing, and runs again after
    [setCurrentIndex(0)]. *)
Definition mount (rand : float) (p : Props) : Completion unit * HookState :=
  autoStartEffect rand (initialState p).

Inductive Event : Type :=
  | Rerender (p : Props)            (* the caller renders again *)
  | Retry (index : Z) (credentials : option Credentials)
  | Resume (tid : nat)              (* a promise settles or a timer fires *)
  | Tick (d : Z).                   (* time passes *)

Fixpoint find_task (tid : nat) (ts : list (nat * Task)) : option Task :=
  match ts with
  | [] => None
  | (i, t) :: ts' => if Nat.eqb i tid then Some t else find_task tid ts'
  end.

Fixpoint remove_task (tid : nat) (ts : list (nat * Task)) : list (nat * Task) :=
  match ts with
  | [] => []
  | (i, t) :: ts' =>
      if Nat.eqb i tid then remove_task tid ts' else (i, t) :: remove_task tid ts'
  end.

Definition take_task (tid : nat) : Eff unit :=
  modify (fun s => with_tasks (remove_task tid (pendingTasks s)) s).

(** The environment resumes a parked task.  A Connector promise settles
    whenever the Connector pleases; a timer fires at any time from its due
    instant on, never before. *)
Definition resume (rand : float) (tid : nat) : Eff unit :=
  s <- get ;;
  match find_task tid (pendingTasks s) with
  | None => ret tt
  | Some (AwaitConnector index p k) =>
      take_task tid ;; settle_connection index p k
  | Some (MockDelay index _ due k) =>
      if due <=? now s then take_task tid ;; settle_mock rand index k
      else ret tt
  | Some (SettleTimer due a) =>
      if due <=? now s then
        take_task tid ;;
        match a with
        | AdvanceTo v => setCurrentIndex rand v
        | MarkComplete => setAllComplete true
        end
      else ret tt
  end.

(** A render with new props: state cells keep their values, and the first
    effect runs again only if [autoStart] changed. *)
Definition rerender (rand : float) (p : Props) : Eff unit :=
  s <- get ;;
  modify (with_props p) ;;
  if Bool.eqb (autoStart p) (autoStart (props s)) then ret tt
  else autoStartEffect rand.

Definition tick (d : Z) : Eff unit :=
  if 0 <=? d then modify (fun s => with_now (now s + d) s) else ret tt.

(** One turn of the event loop; [rand] is what [Math.random()] returns if the
    turn calls it (no turn calls it twice). *)
Definition step (rand : float) (e : Event) : Eff unit :=
  match e with
  | Rerender p => rerender rand p
  | Retry index credentials => retryConnection rand index credentials
  | Resume tid => resume rand tid
  | Tick d => tick d
  end.

Fixpoint exec (evs : list (float * Event)) : Eff unit :=
  match evs with
  | [] => ret tt
  | (rand, e) :: evs' => step rand e ;; exec evs'
  end.

(** The state reached from a fresh mount by a sequence of turns. *)
Definition run (rand : float) (p : Props) (evs : list (float * Event))
    : Completion unit * HookState :=
  match mount rand p with
  | (Normal _, s) => exec evs s
  | (Throw, s) => (Throw, s)
  end.

(** * Vocabulary of the specification *)

(** ** Concrete scenarios *)

Definition always (o : Outcome) : Connector := fun _ _ => Returns (Fulfilled o).

Definition abc_props (f : option Connector) : Props :=
  mkProps ["A"; "B"; "C"]%string None f.

Definition statuses (s : HookState) : list Status := map status (connections s).

(** The turns of a run over three platforms whose Connector answers at once:
    each promise settles, the settle delay passes, the timer fires. *)
Definition full_run : list (float * Event) :=
  [(0%float, Resume 0%nat); (0%float, Tick 500); (0%float, Resume 1%nat);
   (0%float, Resume 2%nat); (0%float, Tick 500); (0%float, Resume 3%nat);
   (0%float, Resume 4%nat); (0%float, Tick 500); (0%float, Resume 5%nat)].

(** ** Reasoning about effects *)

(** [ensures m s Q]: run from [s], [m] completes normally in a state and
    with a value that satisfy [Q]. *)
Definition ensures {A} (m : Eff A) (s : HookState)
    (Q : A -> HookState -> Prop) : Prop :=
  match m s with
  | (Normal a, s') => Q a s'
  | (Throw, _) => False
  end.

(** [m] keeps the relation [R] between an earlier state and the current one. *)
Definition respects (R : HookState -> HookState -> Prop) {A} (m : Eff A) : Prop :=
  forall s0 s, R s0 s -> ensures m s (fun _ s' => R s0 s').

(** ** The ledger under [set_status] *)

(** The identifiers of the ledger, in order. *)
Definition ledger_ids (s : HookState) : list string :=
  map platformId (connections s).

Definition same_shape (s s' : HookState) : Prop := ledger_ids s' = ledger_ids s.

(** The status stored at an index, if the index is in range. *)
Definition status_at (index : Z) (s : HookState) : option Status :=
  option_map status (lookup index (connections s)).

(** ** What a [runConnection] call does, case by case *)

(** The state after one [setConnections] write, and after parking a task. *)
Definition written (index : Z) (st : Status) (s : HookState) : HookState :=
  snd (setConnections index st s).

Definition parked (t : Task) (s : HookState) : HookState := snd (suspend t s).

(** The timer the sequencer sets after its attempt on the captured index. *)
Definition next_action (i len : Z) : TimerAction :=
  if i <? len - 1 then AdvanceTo (i + 1) else MarkComplete.

Definition resumed (k : Caller) (s : HookState) : HookState :=
  match k with
  | FromRetry => s
  | FromSequencer i len => parked (SettleTimer (now s + 500) (next_action i len)) s
  end.

(** The status a settled promise leaves in the record. *)
Definition settled_status (p : Settlement) : Status :=
  match p with
  | Fulfilled o => status_of_outcome o
  | Rejected => error
  end.

Definition mock_status (rand : float) : Status :=
  if mock_success rand then success else error.

Definition taken (tid : nat) (s : HookState) : HookState :=
  with_tasks (remove_task tid (pendingTasks s)) s.

(** ** Failures of the Connector (C3) *)

Definition throwing : Connector := fun _ _ => Throws.

Definition rejecting : Connector := fun _ _ => Returns Rejected.

(** The four ways a [runConnection] call can go. *)
Inductive attempt_result (rand : float) (index : Z)
    (credentials : option Credentials) (k : Caller) (s : HookState)
    : HookState -> Prop :=
  | attempt_skipped :
      match lookup index (connections s) with
      | None => True
      | Some c => falsy (platformId c) = true
      end ->
      attempt_result rand index credentials k s (resumed k s)
  | attempt_threw c f :
      lookup index (connections s) = Some c ->
      falsy (platformId c) = false ->
      connectPlatform (props s) = Some f ->
      f (platformId c) credentials = Throws ->
      attempt_result rand index credentials k s
        (resumed k (written index error (written index connecting s)))
  | attempt_awaits c f p :
      lookup index (connections s) = Some c ->
      falsy (platformId c) = false ->
      connectPlatform (props s) = Some f ->
      f (platformId c) credentials = Returns p ->
      attempt_result rand index credentials k s
        (parked (AwaitConnector index p k) (written index connecting s))
  | attempt_mocked c :
      lookup index (connections s) = Some c ->
      falsy (platformId c) = false ->
      connectPlatform (props s) = None ->
      attempt_result rand index credentials k s
        (parked (MockDelay index (mock_delay rand)
                   (now s + delay_floor (mock_delay rand)) k)
           (written index connecting s)).

(** ** Retry (C5) *)

Definition no_id_props : Props :=
  mkProps [EmptyString] (Some false) (Some (always OSuccess)).

Definition gap_props : Props :=
  mkProps ["A"%string; EmptyString; "C"%string] None (Some (always OSuccess)).

(** Scenario: [A] and [C] connect, [B] fails; then [B] is retried with a
    Connector that now succeeds. *)
Definition mixed : Connector :=
  fun id _ => if String.eqb id "B" then Returns (Fulfilled OError)
              else Returns (Fulfilled OSuccess).

Definition after_mixed_run : HookState :=
  Eval vm_compute in
  snd (run 0%float (abc_props (Some mixed))
         (full_run ++ [(0%float, Rerender (abc_props (Some (always OSuccess))))])).

Definition some_credentials : option Credentials :=
  Some [("apiKey", "k")]%string.

Definition after_retry_call : HookState :=
  Eval vm_compute in snd (step 0%float (Retry 1 some_credentials) after_mixed_run).

(** ** The empty list of platform ids (C2) *)

Definition empty_props : Props := mkProps [] None None.

(** What holds of a hook mounted with no platform ids. *)
Definition idle_empty (s : HookState) : Prop :=
  connections s = [] /\ currentIndex s = -1 /\ allComplete s = false
  /\ pendingTasks s = [] /\ history s = [].

(** ** [autoStart] off (C10) *)

(** A task parked by a retry. *)
Definition retry_task (t : Task) : Prop :=
  match t with
  | AwaitConnector _ _ FromRetry | MockDelay _ _ _ FromRetry => True
  | _ => False
  end.

Definition not_started (s : HookState) : Prop :=
  currentIndex s = -1 /\ allComplete s = false /\ autoStart (props s) = false
  /\ Forall (fun it => retry_task (snd it)) (pendingTasks s).

Definition untouched (p : Props) (s : HookState) : Prop :=
  connections s = connections (initialState p)
  /\ pendingTasks s = [] /\ history s = [].

(** The event is allowed when [autoStart] is held at false. *)
Definition keeps_autoStart_off (e : Event) : Prop :=
  match e with
  | Rerender p => autoStart p = false
  | _ => True
  end.

Definition is_retry (e : Event) : Prop :=
  match e with
  | Retry _ _ => True
  | _ => False
  end.

Definition manual_props : Props :=
  mkProps ["A"; "B"]%string (Some false) (Some (always OSuccess)).

(** ** The effects, case by case *)

Definition ledger_length (s : HookState) : Z := Z.of_nat (length (connections s)).

(** What [sequencerEffect] does from [s]. *)
Definition sequencer_result (rand : float) (s s' : HookState) : Prop :=
  if (0 <=? currentIndex s) && (currentIndex s <? ledger_length s)
  then attempt_result rand (currentIndex s) None
         (FromSequencer (currentIndex s) (ledger_length s)) s s'
  else s' = s.

(** What [setCurrentIndex v] does from [s]. *)
Definition advance_result (rand : float) (v : Z) (s s' : HookState) : Prop :=
  if currentIndex s =? v then s' = s
  else sequencer_result rand (with_currentIndex v s) s'.

(** What [autoStartEffect] does from [s]. *)
Definition autoStart_result (rand : float) (s s' : HookState) : Prop :=
  if autoStart (props s) && (currentIndex s =? -1) && (0 <? ledger_length s)
  then advance_result rand 0 s s'
  else s' = s.

(** What a render with new props does from [s]. *)
Definition rerender_result (rand : float) (p : Props) (s s' : HookState) : Prop :=
  if Bool.eqb (autoStart p) (autoStart (props s)) then s' = with_props p s
  else autoStart_result rand (with_props p s) s'.

(** ** Replaced sessions (C8) *)

Definition first_session : Props := mkProps ["A"]%string None (Some (always OSuccess)).

Definition second_session : Props := mkProps ["B"]%string None (Some (always OError)).

Definition after_replacement : HookState :=
  Eval vm_compute in
  snd (run 0%float first_session [(0%float, Rerender second_session)]).

(** ** The sequencer's run (C6) *)

Definition terminal (st : Status) : Prop := st = success \/ st = error.

(** Writes to a lower index precede writes to a higher index by at least the
    settle delay. *)
Definition spaced (h : list Write) : Prop :=
  forall w w', In w h -> In w' h -> w_index w < w_index w' ->
               w_time w + 500 <= w_time w'.

(** The sequencer is through with index [k]: either an outcome was recorded
    for it, or it was skipped at the guard (its [platformId] is the empty
    string) and never written. *)
Definition settled_in (s : HookState) (k : Z) : Prop :=
  (exists t st, terminal st /\ In (mkWrite t k st) (history s))
  \/ ((forall w, In w (history s) -> w_index w <> k)
      /\ exists c, lookup k (connections s) = Some c
                   /\ falsy (platformId c) = true).

Definition no_connecting (s : HookState) : Prop :=
  forall k, status_at k s <> Some connecting.

Definition in_range (s : HookState) : Prop :=
  0 <= currentIndex s < ledger_length s.

(** The task of the sequencer's attempt at [currentIndex]. *)
Definition sequencer_attempt (s : HookState) (t : Task) : Prop :=
  match t with
  | AwaitConnector index _ k | MockDelay index _ _ k =>
      index = currentIndex s
      /\ k = FromSequencer (currentIndex s) (ledger_length s)
  | SettleTimer _ _ => False
  end.

Inductive phase (s : HookState) : Prop :=
  | ph_idle :
      currentIndex s = -1 -> pendingTasks s = [] -> history s = [] ->
      no_connecting s -> phase s
  | ph_attempting tid t t0 :
      pendingTasks s = [(tid, t)] -> in_range s -> sequencer_attempt s t ->
      (forall k, status_at k s = Some connecting -> k = currentIndex s) ->
      In (mkWrite t0 (currentIndex s) connecting) (history s) ->
      (forall k, 0 <= k < currentIndex s -> settled_in s k) ->
      phase s
  | ph_settling tid due :
      pendingTasks s
      = [(tid, SettleTimer due (next_action (currentIndex s) (ledger_length s)))] ->
      in_range s -> no_connecting s ->
      (forall w, In w (history s) -> w_time w + 500 <= due) ->
      (forall k, 0 <= k <= currentIndex s -> settled_in s k) ->
      phase s
  | ph_done :
      pendingTasks s = [] -> in_range s -> no_connecting s ->
      (forall k, 0 <= k <= currentIndex s -> settled_in s k) ->
      phase s.

Record sequenced (s : HookState) : Prop := mkSequenced {
  sq_past : forall w, In w (history s) -> w_time w <= now s;
  sq_spaced : spaced (history s);
  sq_bound : forall w, In w (history s) -> 0 <= w_index w <= currentIndex s;
  sq_phase : phase s
}.

(** ** Binary64 rounding, from the specification of the primitive floats *)

(** What [k] right shifts leave: the quotient, and a location that tells
    whether anything was shifted out. *)
Definition shifted (m : Z) (k : Z) (mrs : shr_record) : Prop :=
  0 <= shr_m mrs
  /\ exists low,
       2 * m = shr_m mrs * 2 ^ (k + 1) + Z.b2z (shr_r mrs) * 2 ^ k + low
       /\ 0 <= low < 2 ^ k
       /\ (shr_s mrs = true <-> 0 < low).

Definition canonical (m : positive) (e : Z) : Prop :=
  fexp prec emax (Zpos (digits2_pos m) + e) = e.

(** The last step of [binary_round_aux]: renormalise the rounded mantissa
    and pack the result. *)
Definition finish (q e : Z) : spec_float :=
  let '(mrs, e') := shr_fexp prec emax q e loc_Exact in
  match shr_m mrs with
  | Z0 => S754_zero false
  | Zpos m => if e' <=? emax - prec then S754_finite false m e' else S754_infinity false
  | Zneg _ => S754_nan
  end.

(** The value of a mantissa and exponent, in units of [2^-1200]. *)
Definition scaled (m e : Z) : Z := m * 2 ^ (e + 1200).

(** The result of rounding, packed. *)
Inductive rounded (q e : Z) : spec_float -> Prop :=
  | rounded_zero : q = 0 -> rounded q e (S754_zero false)
  | rounded_fits m :
      q = Zpos m -> canonical m e ->
      rounded q e (if e <=? emax - prec then S754_finite false m e
                   else S754_infinity false)
  | rounded_carry :
      q = 2 ^ 53 ->
      rounded q e (if e + 1 <=? emax - prec
                   then S754_finite false (2 ^ 52) (e + 1)
                   else S754_infinity false).

(** ** Alignment and the operations *)

(** 1500, 3000 and 1 in binary64. *)
Definition m1500 : positive := 6597069766656000.

Definition c1500 : spec_float := S754_finite false m1500 (-42).

Definition c3000 : spec_float := S754_finite false m1500 (-41).

Definition c1 : spec_float := S754_finite false (2 ^ 52) (-52).

(** ** The fallback attempt (C9) *)

(** The two largest binary64 values below 1. *)
Definition largest_draw : float := 0x1.fffffffffffffp-1%float.

Definition second_largest_draw : float := 0x1.ffffffffffffep-1%float.

Definition one_offline : Props := mkProps ["A"]%string None None.

(** The hook mounted with one platform and no Connector, 2250 ms later. *)
Definition offline_due : HookState :=
  Eval vm_compute in
  snd (run 0.5%float one_offline [(0.5%float, Tick 2250)]).

(** ** Any run, retries and renders included *)

(** The tasks of the sequencer: its attempt on the current record and its
    settle timer.  The other tasks are the attempts started by a retry. *)
Definition sequencer_task (t : Task) : bool :=
  match t with
  | AwaitConnector _ _ FromRetry | MockDelay _ _ _ FromRetry => false
  | _ => true
  end.

Definition sequencer_tasks (s : HookState) : list (nat * Task) :=
  filter (fun it => sequencer_task (snd it)) (pendingTasks s).

(** Task identifiers are handed out once. *)
Definition fresh_ids (s : HookState) : Prop :=
  NoDup (map fst (pendingTasks s))
  /\ forall it, In it (pendingTasks s) -> (fst it < nextTask s)%nat.

(** The sequencer's pending task belongs to its current position. *)
Definition at_position (s : HookState) (t : Task) : Prop :=
  match t with
  | AwaitConnector index _ k | MockDelay index _ _ k =>
      index = currentIndex s
      /\ k = FromSequencer (currentIndex s) (ledger_length s)
  | SettleTimer due a =>
      a = next_action (currentIndex s) (ledger_length s)
      /\ 500 * (currentIndex s + 1) <= due
  end.

(** Where the sequencer stands: not started, at work on the record at
    [currentIndex] with exactly one task pending, or through. *)
Inductive progress (s : HookState) : Prop :=
  | pr_idle :
      currentIndex s = -1 -> allComplete s = false ->
      sequencer_tasks s = [] -> progress s
  | pr_running tid t :
      in_range s -> allComplete s = false ->
      sequencer_tasks s = [(tid, t)] -> at_position s t ->
      500 * currentIndex s <= now s -> progress s
  | pr_complete :
      currentIndex s = ledger_length s - 1 -> 0 < ledger_length s ->
      allComplete s = true -> sequencer_tasks s = [] ->
      500 * ledger_length s <= now s -> progress s.

Record orderly (s : HookState) : Prop := mkOrderly {
  or_fresh : fresh_ids s;
  or_clock : 0 <= now s;
  or_progress : progress s
}.

(** The clock reading from which a task may be resumed. *)
Definition due_time (t : Task) : option Z :=
  match t with
  | AwaitConnector _ _ _ => None
  | MockDelay _ _ due _ | SettleTimer due _ => Some due
  end.

(** Let the time pass that the task still needs, then resume it. *)
Definition fire (s : HookState) (tid : nat) (t : Task) : list (float * Event) :=
  match due_time t with
  | Some due => [(0%float, Tick (Z.max 0 (due - now s))); (0%float, Resume tid)]
  | None => [(0%float, Resume tid)]
  end.

(** Twice the number of records the sequencer still has to go through, less
    one while its settle timer is pending. *)
Definition remaining (s : HookState) : nat :=
  match sequencer_tasks s with
  | [(_, SettleTimer _ _)] =>
      2 * Z.to_nat (ledger_length s - currentIndex s) - 1
  | [(_, _)] => 2 * Z.to_nat (ledger_length s - currentIndex s)
  | _ => 0
  end.

(** A turn of the environment alone: a settlement, a timer, time passing. *)
Definition environment_turn (e : Event) : Prop :=
  match e with
  | Resume _ | Tick _ => True
  | _ => False
  end.

(** What no turn takes back: completion, and a record's having left
    [pending]. *)
Definition keeps_marks (s s' : HookState) : Prop :=
  (allComplete s = true -> allComplete s' = true)
  /\ forall k st, status_at k s = Some st -> st <> pending ->
       exists st', status_at k s' = Some st' /\ st' <> pending.

(** Every record that was written to has left [pending]. *)
Definition written_marked (s : HookState) : Prop :=
  forall w, In w (history s) -> status_at (w_index w) s <> Some pending.

(** What every turn keeps: task identifiers stay fresh, the clock does not
    go back, the ledger keeps its length. *)
Definition steady (s s' : HookState) : Prop :=
  (fresh_ids s -> fresh_ids s') /\ now s <= now s'
  /\ ledger_length s' = ledger_length s.

(** Three platforms, once the first attempt has settled and the settle delay
    has passed. *)
Definition first_settled : HookState :=
  Eval vm_compute in
  snd (run 0%float (abc_props (Some (always OSuccess)))
         [(0%float, Resume 0%nat); (0%float, Tick 500)]).

(** Two platforms mounted with [autoStart] off; the caller then turns it on. *)
Definition manual_mounted : HookState :=
  Eval vm_compute in snd (mount 0%float manual_props).

Definition manual_props_on : Props :=
  mkProps ["A"; "B"]%string (Some true) (Some (always OSuccess)).

(** ** What the ledger shows *)

(** What the Connector's answer to a call becomes in the ledger. *)
Definition answer (r : ConnectorCall) : Status :=
  match r with
  | Throws => error
  | Returns p => settled_status p
  end.

(** A status fits the record [c] under the Connector [f], called without
    credentials: nothing is claimed of a [pending] record, a [connecting] one
    has a promise outstanding, a settled one shows the answer. *)
Definition fits (f : Connector) (st : Status) (c : ConnectionState) : Prop :=
  match st with
  | pending => True
  | connecting => exists q, f (platformId c) None = Returns q
  | _ => st = answer (f (platformId c) None)
  end.

(** The record at [k] exists and has a [platformId] that passes the guard. *)
Definition named (s : HookState) (k : Z) : Prop :=
  exists c, lookup k (connections s) = Some c /\ falsy (platformId c) = false.

Definition task_fits (f : Connector) (s : HookState) (t : Task) : Prop :=
  match t with
  | AwaitConnector index q _ =>
      exists c, lookup index (connections s) = Some c
                /\ falsy (platformId c) = false
                /\ f (platformId c) None = Returns q
  | MockDelay _ _ _ _ => False
  | SettleTimer _ _ => True
  end.

Record answering (f : Connector) (s : HookState) : Prop := mkAnswering {
  an_props : connectPlatform (props s) = Some f;
  an_tasks : forall tid t, In (tid, t) (pendingTasks s) -> task_fits f s t;
  an_ledger : forall k c, lookup k (connections s) = Some c -> fits f (status c) c;
  an_history : forall w, In w (history s) -> named s (w_index w)
}.

(** A record that was never written to is [pending]. *)
Definition unwritten_pending (s : HookState) : Prop :=
  forall k c, lookup k (connections s) = Some c ->
    (forall w, In w (history s) -> w_index w <> k) -> status c = pending.

(** The turns in which the Connector stays [f] and is called without
    credentials. *)
Definition same_connector (f : Connector) (e : Event) : Prop :=
  match e with
  | Rerender p => connectPlatform p = Some f
  | Retry _ (Some _) => False
  | _ => True
  end.

(** The status the sequencer leaves in the record of [id]: none for an id
    the guard passes over, else the Connector's answer. *)
Definition final_status (f : Connector) (id : string) : Status :=
  if falsy id then pending else answer (f id None).

(** * The services *)

(** The hook's Connector is supplied by the caller; the two services below
    are the other code of the repository.  Their asynchronous functions
    await one promise after the other and share no state, so each is modelled
    by how its promise settles, given how the promises it awaits settle.
    What the services take from modules that are not part of these sources
    (the HTTP client [api], [simulateDelay], [mockPortfolio]) and from the
    host (the clock, [parseFloat], [Date.prototype.toISOString]) is a
    parameter.  Console output is left out. *)

Unset Implicit Arguments.

(** ** JavaScript values *)

Module Js.

(** A string-valued operand of [||] or [!]: [None] is [undefined] or [null],
    and among the strings only the empty one is falsy. *)
Definition truthy (v : option string) : bool :=
  match v with
  | Some (String _ _) => true
  | _ => false
  end.

(** [a || b] *)
Definition or (a b : option string) : option string :=
  if truthy a then a else b.

(** [a || 'literal'] *)
Definition or_string (a : option string) (b : string) : string :=
  match a with
  | Some (String c s) => String c s
  | _ => b
  end.

(** [x || 0] for a number or [null]: [null], [NaN], [0] and [-0] are falsy. *)
Definition or_zero (x : option float) : float :=
  match x with
  | Some f => if is_nan f || is_zero f then 0%float else f
  | None => 0%float
  end.

(** [s.split(sep)] for a separator of one character.  The strings are byte
    strings (UTF-8); the separators in these sources are ASCII, and an ASCII
    byte never occurs inside the encoding of another character. *)
Fixpoint split (sep : ascii) (s : string) : list string :=
  match s with
  | EmptyString => [EmptyString]
  | String c s' =>
      if Ascii.eqb c sep then EmptyString :: split sep s'
      else match split sep s' with
           | piece :: pieces => String c piece :: pieces
           | [] => [String c EmptyString]
           end
  end.

(** [s.includes(needle)] *)
Fixpoint includes (needle s : string) : bool :=
  if prefix needle s then true
  else match s with
       | EmptyString => false
       | String _ s' => includes needle s'
       end.

(** [`${n}`] for an array index. *)
Definition decimal (n : nat) : string := NilEmpty.string_of_uint (Nat.to_uint n).

(** [array.map((x, index) => f(x, index))] *)
Fixpoint map_index {A B : Type} (f : A -> nat -> B) (index : nat) (l : list A)
    : list B :=
  match l with
  | [] => []
  | x :: l' => f x index :: map_index f (S index) l'
  end.

(** [error.data as { message?: string; success?: boolean }] *)
Record ErrorData : Type := mkErrorData {
  message : option string;
  success : option bool
}.

(** What a [catch] can receive. *)
Inductive Thrown : Type :=
  | ApiError (status : Z) (message : string) (data : option ErrorData)
  | TypeError (message : string)
  | Error (message : string)
  | Other (description : string).

(** How a promise settles. *)
Inductive Promise (A : Type) : Type :=
  | Fulfils (a : A)
  | Rejects (e : Thrown).

Arguments Fulfils {A} a.

Arguments Rejects {A} e.

End Js.

(** ** The types of a session *)

Module User.

Record t : Type := mk {
  id : string;
  email : string;
  name : option string;       (* declared a string; the backend's value, which
                                 the code reads with [?.], is copied as it is *)
  nickname : option string;
  displayName : option string;
  avatar : option string;
  createdAt : string;
  updatedAt : string
}.

End User.

Module AuthTokens.

Record t : Type := mk {
  accessToken : string;
  refreshToken : string;
  expiresAt : Z
}.

End AuthTokens.

Module AuthResponse.

Record t : Type := mk {
  user : User.t;
  tokens : AuthTokens.t
}.

End AuthResponse.

(** ** The authentication service *)

Module BackendUser.

Record t : Type := mk {
  id : string;
  name : option string;
  nickname : option string;
  email : string;
  avatar : option string;
  provider : string;
  isEmailVerified : bool
}.

End BackendUser.

Module BackendAuthData.

Record t : Type := mk {
  user : BackendUser.t;
  accessToken : string;
  refreshToken : string
}.

End BackendAuthData.

Module BackendAuthResponse.

Record t : Type := mk {
  success : bool;
  message : string;
  data : BackendAuthData.t
}.

End BackendAuthResponse.

(** [BackendUserResponse['data']] *)
Module BackendUserData.

Record t : Type := mk {
  user : BackendUser.t
}.

End BackendUserData.

(** The fields the service reads of the two forms. *)
Module LoginFormData.

Record t : Type := mk {
  email : string;
  password : string
}.

End LoginFormData.

Module SignupFormData.

Record t : Type := mk {
  email : string;
  password : string;
  name : string
}.

End SignupFormData.

(** The body of a request: the fields of the object literal. *)
Definition Body : Type := list (string * string).

Module auth.

Section Host.

(** [new Date(t).toISOString()] for a clock reading [t] (milliseconds). *)
Variable toISOString : Z -> string.

(** [transformAuthResponse(response)]; the three readings of the clock, in
    the order the object literal takes them. *)
Definition transformAuthResponse (response : BackendAuthResponse.t)
    (created updated issued : Z) : AuthResponse.t :=
  let u := BackendAuthData.user (BackendAuthResponse.data response) in
  AuthResponse.mk
    (User.mk
       (BackendUser.id u)
       (BackendUser.email u)
       (BackendUser.name u)
       (Js.or (BackendUser.nickname u) None)
       (Js.or
          (Js.or (BackendUser.nickname u)
             (match BackendUser.name u with
              | Some n => nth_error (Js.split " " n) 0
              | None => None
              end))
          (nth_error (Js.split "@" (BackendUser.email u)) 0))
       None
       (toISOString created)
       (toISOString updated))
    (AuthTokens.mk
       (BackendAuthData.accessToken (BackendAuthResponse.data response))
       (BackendAuthData.refreshToken (BackendAuthResponse.data response))
       (issued + 7 * 24 * 60 * 60 * 1000)).

(** [transformUser(data)] *)
Definition transformUser (data : BackendUserData.t) (created updated : Z)
    : User.t :=
  let u := BackendUserData.user data in
  User.mk
    (BackendUser.id u)
    (BackendUser.email u)
    (BackendUser.name u)
    (Js.or (BackendUser.nickname u) None)
    (Js.or
       (Js.or (BackendUser.nickname u)
          (match BackendUser.name u with
           | Some n => nth_error (Js.split " " n) 0
           | None => None
           end))
       (nth_error (Js.split "@" (BackendUser.email u)) 0))
    None
    (toISOString created)
    (toISOString updated).

(** The [catch] of [login] and of [signup], which differ in the default
    message only. *)
Definition report (fallback : string) (thrown : Js.Thrown) : Js.Thrown :=
  match thrown with
  | Js.ApiError status _ errorData =>
      let message :=
        Js.or_string
          (match errorData with Some d => Js.message d | None => None end)
          fallback in
      Js.ApiError status message errorData
  | Js.TypeError m =>
      if Js.includes "fetch" m
      then Js.Error "Cannot connect to server. Please check your internet connection and try again."
      else thrown
  | _ => thrown
  end.

End Host.

Module realAuthService.

Section Client.

Variable toISOString : Z -> string.

(** [api.post<BackendAuthResponse>(url, body)]: how the promise settles,
    [{ data }] taken out of a fulfilled one. *)
Variable post : string -> Body -> Js.Promise BackendAuthResponse.t.

Definition login (credentials : LoginFormData.t) (created updated issued : Z)
    : Js.Promise AuthResponse.t :=
  match post "/auth/signin"
          [("email", LoginFormData.email credentials);
           ("password", LoginFormData.password credentials)]%string with
  | Js.Fulfils data => Js.Fulfils (transformAuthResponse toISOString data created updated issued)
  | Js.Rejects thrown => Js.Rejects (report "Invalid credentials" thrown)
  end.

Definition signup (data : SignupFormData.t) (created updated issued : Z)
    : Js.Promise AuthResponse.t :=
  match post "/auth/signup"
          [("email", SignupFormData.email data);
           ("password", SignupFormData.password data);
           ("name", SignupFormData.name data)]%string with
  | Js.Fulfils response =>
      Js.Fulfils (transformAuthResponse toISOString response created updated issued)
  | Js.Rejects thrown => Js.Rejects (report "Registration failed" thrown)
  end.

End Client.

End realAuthService.

Module mockAuthService.

Section Host.

Variable toISOString : Z -> string.

Definition login (credentials : LoginFormData.t) (created updated issued : Z)
    : Js.Promise AuthResponse.t :=
  if negb (Js.truthy (Some (LoginFormData.email credentials)))
  then Js.Rejects (Js.ApiError 400 "Email required for mock login" None)
  else
    Js.Fulfils
      (transformAuthResponse toISOString
         (BackendAuthResponse.mk true "Mock login"
            (BackendAuthData.mk
               (BackendUser.mk "mock-id"
                  (nth_error (Js.split "@" (LoginFormData.email credentials)) 0)
                  None
                  (LoginFormData.email credentials)
                  None "mock" true)
               "mock-access-token" "mock-refresh-token"))
         created updated issued).

Definition signup (data : SignupFormData.t) (created updated issued : Z)
    : Js.Promise AuthResponse.t :=
  Js.Fulfils
    (transformAuthResponse toISOString
       (BackendAuthResponse.mk true "Mock signup"
          (BackendAuthData.mk
             (BackendUser.mk "mock-id"
                (Js.or (Some (SignupFormData.name data))
                   (nth_error (Js.split "@" (SignupFormData.email data)) 0))
                None
                (SignupFormData.email data)
                None "mock" true)
             "mock-access-token" "mock-refresh-token"))
       created updated issued).

End Host.

End mockAuthService.

End auth.

(** ** The portfolio service *)

Module BackendSource.

Record t : Type := mk {
  source : string;
  account_id : string;
  account_name : option string;
  quantity : string;
  value_usd : string
}.

End BackendSource.

Module BackendAsset.

Record t : Type := mk {
  symbol : string;
  name : string;
  quantity : string;
  value_usd : string;
  price_usd : string;
  change_24h : option float;
  asset_class : string;
  sources : list BackendSource.t
}.

End BackendAsset.

Module BackendCategories.

Record t : Type := mk {
  crypto : string;
  equity : string;
  cash_equivalent : string
}.

End BackendCategories.

Module BackendWarning.

Record t : Type := mk {
  type : string;
  message : string;
  account_id : option string;
  provider : option string
}.

End BackendWarning.

Module BackendPortfolioResponse.

Record t : Type := mk {
  schema_version : string;
  total_value : string;
  change_24h : option float;
  assets : list BackendAsset.t;
  categories : BackendCategories.t;
  warnings : list BackendWarning.t
}.

End BackendPortfolioResponse.

(** [Asset['type']], as far as [transformPortfolio] produces it. *)
Inductive AssetType : Type := crypto | stock | stablecoin.

(** [Asset] and [Portfolio], with the fields [transformPortfolio] sets. *)
Module Asset.

Record t : Type := mk {
  id : string;
  symbol : string;
  name : string;
  amount : float;
  value : float;
  price : float;
  change24h : float;
  platform : string;
  type : AssetType
}.

End Asset.

Module Portfolio.

Record t : Type := mk {
  totalValue : float;
  change24h : float;
  assets : list Asset.t
}.

End Portfolio.

(** One point of the history series. *)
Module HistoryPoint.

Record t : Type := mk {
  timestamp : Z;
  value : float
}.

End HistoryPoint.

(** ['1H' | '24H' | '7D' | '1M' | '1Y'] *)
Inductive Period : Type := P1H | P24H | P7D | P1M | P1Y.

Module portfolio.

Section Host.

(** The host's [parseFloat]. *)
Variable parseFloat : string -> float.

(** [transformPortfolio(backendData)] *)
Definition transformPortfolio (backendData : BackendPortfolioResponse.t)
    : Portfolio.t :=
  let assets :=
    Js.map_index
      (fun asset index =>
         Asset.mk
           ("asset-" ++ BackendAsset.symbol asset ++ "-" ++ Js.decimal index)%string
           (BackendAsset.symbol asset)
           (BackendAsset.name asset)
           (parseFloat (BackendAsset.quantity asset))
           (parseFloat (BackendAsset.value_usd asset))
           (parseFloat (BackendAsset.price_usd asset))
           (Js.or_zero (BackendAsset.change_24h asset))
           (String.concat ", " (map BackendSource.source (BackendAsset.sources asset)))
           (if String.eqb (BackendAsset.asset_class asset) "crypto" then crypto
            else if String.eqb (BackendAsset.asset_class asset) "equity" then stock
            else stablecoin))
      0%nat (BackendPortfolioResponse.assets backendData) in
  let parsedTotal := parseFloat (BackendPortfolioResponse.total_value backendData) in
  let computedTotal :=
    fold_left (fun sum asset => (sum + Asset.value asset)%float) assets 0%float in
  let totalValue :=
    if is_finite parsedTotal && (0 <? parsedTotal)%float then parsedTotal
    else computedTotal in
  Portfolio.mk totalValue
    (Js.or_zero (BackendPortfolioResponse.change_24h backendData))
    assets.

End Host.

(** The [periods] table of [getPortfolioHistory]: [count] and [interval]. *)
Definition periods (period : Period) : Z * Z :=
  match period with
  | P1H => (12, 5 * 60 * 1000)
  | P24H => (24, 60 * 60 * 1000)
  | P7D => (7, 24 * 60 * 60 * 1000)
  | P1M => (30, 24 * 60 * 60 * 1000)
  | P1Y => (12, 30 * 24 * 60 * 60 * 1000)
  end.

Section Mock.

(** [simulateDelay] is not defined in the file that uses it: a function that
    returns a promise. *)
Variable simulateDelay : Z -> Js.Promise unit.

(** [mockPortfolio], of [@/mock/data]. *)
Variable mockPortfolio : Portfolio.t.

(** [getPortfolioHistory(period)]: [now] is what [Date.now()] returns after
    the delay and [random i] what [Math.random()] returns for element [i];
    the timestamps, whole milliseconds far below [2^53], are integers. *)
Definition getPortfolioHistory (period : Period) (now : Z) (random : nat -> float)
    : Js.Promise (list HistoryPoint.t) :=
  match simulateDelay 400 with
  | Js.Rejects thrown => Js.Rejects thrown
  | Js.Fulfils _ =>
      let '(count, interval) := periods period in
      let baseValue := Portfolio.totalValue mockPortfolio in
      Js.Fulfils
        (map (fun i =>
                HistoryPoint.mk
                  (now - (count - 1 - Z.of_nat i) * interval)
                  (baseValue * (0.95 + random i * 0.1))%float)
           (seq 0 (Z.to_nat count)))
  end.

End Mock.

End portfolio.

(** ** Vocabulary for the services *)

(** [d] is what [s] holds before its first [sep]: [d] has no [sep], and [s]
    is [d], or [d] followed by [sep] and more. *)
Definition before (sep : ascii) (s d : string) : Prop :=
  (forall c, In c (list_ascii_of_string d) -> c <> sep)
  /\ (s = d \/ exists rest, s = (d ++ String sep rest)%string).

(** [needle] occurs in [s]. *)
Definition occurs (needle s : string) : Prop :=
  exists a b, s = (a ++ needle ++ b)%string.

(** How the [catch] of [login] and [signup] reports what the request threw:
    an [ApiError] keeps its status and data and gets a message that is never
    empty (the backend's, or else the default); a [TypeError] whose message
    mentions [fetch] becomes the connection error; anything else is thrown
    on as it is. *)
Definition reported (fallback : string) (thrown thrown' : Js.Thrown) : Prop :=
  match thrown with
  | Js.ApiError status _ data =>
      exists message,
        thrown' = Js.ApiError status message data
        /\ message <> EmptyString
        /\ (match data with
            | Some d => Js.message d = Some message
            | None => False
            end
            \/ message = fallback)
  | Js.TypeError m =>
      (occurs "fetch" m ->
       thrown' = Js.Error "Cannot connect to server. Please check your internet connection and try again.")
      /\ (~ occurs "fetch" m -> thrown' = thrown)
  | _ => thrown' = thrown
  end.

(** A backend that refuses every request without saying why. *)
Definition refusing_post (url : string) (body : Body)
    : Js.Promise BackendAuthResponse.t :=
  Js.Rejects (Js.ApiError 401 "Unauthorized" (Some (Js.mkErrorData None (Some false)))).

Definition iso_stub (t : Z) : string := "2026-01-01T00:00:00.000Z".

(** A delay that always elapses, and an empty mock portfolio worth 1000. *)
Definition elapsing (ms : Z) : Js.Promise unit := Js.Fulfils tt.

Definition small_portfolio : Portfolio.t := Portfolio.mk 1000%float 0%float [].

Set Implicit Arguments.

(** * Lemmas and theorems *)

(** ** Concrete scenarios *)

Example abc_all_success :
  let s := snd (run 0%float (abc_props (Some (always OSuccess))) full_run) in
  statuses s = [success; success; success]
  /\ allComplete s = true /\ successCount s = 3%nat.
Proof. vm_compute. auto. Qed.

(** ** Reasoning about effects *)

Lemma ensures_bind {A B} (m : Eff A) (f : A -> Eff B) s Q :
  ensures m s (fun a s' => ensures (f a) s' Q) -> ensures (bind m f) s Q.
Proof.
  unfold ensures, bind. destruct (m s) as [[a|] s']; auto.
Qed.

Lemma ensures_try_catch {A} (body handler : Eff A) s Q :
  match body s with
  | (Normal a, s') => Q a s'
  | (Throw, s') => ensures handler s' Q
  end ->
  ensures (try_catch body handler) s Q.
Proof.
  unfold ensures, try_catch. destruct (body s) as [[a|] s']; auto.
Qed.

Lemma ensures_weaken {A} (m : Eff A) s (Q Q' : A -> HookState -> Prop) :
  ensures m s Q -> (forall a s', Q a s' -> Q' a s') -> ensures m s Q'.
Proof.
  unfold ensures. destruct (m s) as [[a|] s']; auto.
Qed.

Lemma ensures_elim {A} (m : Eff A) s Q :
  ensures m s Q -> exists a s', m s = (Normal a, s') /\ Q a s'.
Proof.
  unfold ensures. destruct (m s) as [[a|] s']; [eauto | tauto].
Qed.

(** A relation between the state before and after that every primitive of
    the hook respects is respected by every turn of the event loop. *)
Section Frames.

Variable R : HookState -> HookState -> Prop.

Hypothesis R_refl : forall s, R s s.

Hypothesis R_trans : forall a b c, R a b -> R b c -> R a c.

Hypothesis R_setConnections : forall i st s,
  R s (snd (setConnections i st s)).

Hypothesis R_setAllComplete : forall b s, R s (snd (setAllComplete b s)).

Hypothesis R_with_currentIndex : forall v s, R s (with_currentIndex v s).

Hypothesis R_with_props : forall p s, R s (with_props p s).

Hypothesis R_with_tasks : forall ts s, R s (with_tasks ts s).

Hypothesis R_suspend : forall t s, R s (snd (suspend t s)).

Hypothesis R_with_now : forall t s, R s (with_now t s).

Lemma respects_ret {A} (a : A) : respects R (ret a).
Proof. intros s0 s H. exact H. Qed.

Lemma respects_bind {A B} (m : Eff A) (f : A -> Eff B) :
  respects R m -> (forall a, respects R (f a)) -> respects R (bind m f).
Proof.
  intros Hm Hf s0 s H. apply ensures_bind.
  eapply ensures_weaken; [apply (Hm s0 s H)|].
  intros a s' H'. apply (Hf a s0 s' H').
Qed.

Lemma respects_get_bind {B} (f : HookState -> Eff B) :
  (forall s, respects R (f s)) -> respects R (bind get f).
Proof. intros Hf s0 s H. apply ensures_bind. apply (Hf s s0 s H). Qed.

Lemma respects_modify f :
  (forall s, R s (f s)) -> respects R (modify f).
Proof. intros Hf s0 s H. apply (R_trans H (Hf s)). Qed.

Lemma respects_setConnections i st : respects R (setConnections i st).
Proof. intros s0 s H. apply (R_trans H (R_setConnections i st s)). Qed.

Lemma respects_suspend t : respects R (suspend t).
Proof. intros s0 s H. apply (R_trans H (R_suspend t s)). Qed.

Lemma respects_setTimeout a d : respects R (setTimeout a d).
Proof. apply respects_get_bind. intro. apply respects_suspend. Qed.

Lemma respects_resume_caller k : respects R (resume_caller k).
Proof.
  destruct k as [|i len]; simpl; [apply respects_ret|].
  destruct (i <? len - 1); apply respects_setTimeout.
Qed.

Lemma respects_runConnection rand index credentials k :
  respects R (runConnection rand index credentials k).
Proof.
  apply respects_get_bind. intro s.
  destruct (lookup index (connections s)) as [c|];
    [|apply respects_resume_caller].
  destruct (falsy (platformId c)); [apply respects_resume_caller|].
  apply respects_bind; [apply respects_setConnections|intros _].
  destruct (connectPlatform (props s)) as [f|]; [|apply respects_suspend].
  apply respects_bind.
  - intros s0 s1 H. apply ensures_try_catch.
    unfold call_connector, bind.
    destruct (f (platformId c) credentials); simpl.
    + exact (R_trans H (R_setConnections index error s1)).
    + exact H.
  - intros [p|]; [apply respects_suspend|apply respects_resume_caller].
Qed.

Lemma respects_settle_connection index p k :
  respects R (settle_connection index p k).
Proof.
  apply respects_bind; [|intros _; apply respects_resume_caller].
  intros s0 s H. apply ensures_try_catch.
  destruct p as [o|]; simpl.
  - apply (respects_setConnections index (status_of_outcome o) H).
  - apply (respects_setConnections index error H).
Qed.

Lemma respects_settle_mock rand index k :
  respects R (settle_mock rand index k).
Proof.
  apply respects_bind; [apply respects_setConnections|].
  intros _; apply respects_resume_caller.
Qed.

Lemma respects_sequencerEffect rand : respects R (sequencerEffect rand).
Proof.
  apply respects_get_bind. intro s. cbv zeta.
  destruct ((0 <=? currentIndex s)
            && (currentIndex s <? Z.of_nat (length (connections s)))).
  - apply respects_runConnection.
  - apply respects_ret.
Qed.

Lemma respects_setCurrentIndex rand v : respects R (setCurrentIndex rand v).
Proof.
  apply respects_get_bind. intro s.
  destruct (currentIndex s =? v); [apply respects_ret|].
  apply respects_bind; [|intros _; apply respects_sequencerEffect].
  apply respects_modify. apply R_with_currentIndex.
Qed.

Lemma respects_autoStartEffect rand : respects R (autoStartEffect rand).
Proof.
  apply respects_get_bind. intro s.
  destruct (autoStart (props s) && (currentIndex s =? -1)
            && (0 <? Z.of_nat (length (connections s)))).
  - apply respects_setCurrentIndex.
  - apply respects_ret.
Qed.

Lemma respects_take_task tid : respects R (take_task tid).
Proof. apply respects_modify. intro s. apply R_with_tasks. Qed.

Lemma respects_resume rand tid : respects R (resume rand tid).
Proof.
  apply respects_get_bind. intro s.
  destruct (find_task tid (pendingTasks s))
    as [[index p k|index d due k|due a]|]; [| | |apply respects_ret].
  - apply respects_bind; [apply respects_take_task|intros _].
    apply respects_settle_connection.
  - destruct (due <=? now s); [|apply respects_ret].
    apply respects_bind; [apply respects_take_task|intros _].
    apply respects_settle_mock.
  - destruct (due <=? now s); [|apply respects_ret].
    apply respects_bind; [apply respects_take_task|intros _].
    destruct a as [v|]; [apply respects_setCurrentIndex|].
    apply respects_modify. intro s'. apply (R_setAllComplete true s').
Qed.

Lemma respects_step rand e : respects R (step rand e).
Proof.
  destruct e as [p|index credentials|tid|d]; simpl.
  - apply respects_get_bind. intro s.
    apply respects_bind; [apply respects_modify; apply R_with_props|intros _].
    destruct (Bool.eqb (autoStart p) (autoStart (props s)));
      [apply respects_ret|apply respects_autoStartEffect].
  - apply respects_runConnection.
  - apply respects_resume.
  - unfold tick. destruct (0 <=? d); [|apply respects_ret].
    apply respects_modify. intro s. apply R_with_now.
Qed.

Lemma respects_exec evs : respects R (exec evs).
Proof.
  induction evs as [|[rand e] evs IH]; simpl; [apply respects_ret|].
  apply respects_bind; [apply respects_step|intros _; exact IH].
Qed.

Lemma respects_run rand p evs :
  ensures (fun s => run rand p evs) (initialState p)
    (fun _ s' => R (initialState p) s').
Proof.
  unfold ensures, run, mount.
  pose proof (respects_autoStartEffect rand (R_refl (initialState p))) as H.
  unfold ensures in H.
  destruct (autoStartEffect rand (initialState p)) as [[[]|] s1]; [|tauto].
  apply (respects_exec evs H).
Qed.

End Frames.

(** ** The ledger under [set_status] *)

Lemma map_indexed_length f l : forall i, length (map_indexed f i l) = length l.
Proof. induction l as [|c l IH]; intro i; simpl; [reflexivity|now rewrite IH]. Qed.

Lemma map_indexed_nth_error f l : forall i n,
  nth_error (map_indexed f i l) n
  = option_map (fun c => f c (i + Z.of_nat n)) (nth_error l n).
Proof.
  induction l as [|c l IH]; intros i n.
  - destruct n; reflexivity.
  - destruct n as [|n]; simpl.
    + now rewrite Z.add_0_r.
    + rewrite IH. destruct (nth_error l n); simpl; [|reflexivity].
      do 2 f_equal. lia.
Qed.

Lemma map_indexed_ids f l :
  (forall c j, platformId (f c j) = platformId c) ->
  forall i, map platformId (map_indexed f i l) = map platformId l.
Proof.
  intro Hf. induction l as [|c l IH]; intro i; simpl; [reflexivity|].
  now rewrite Hf, IH.
Qed.

Lemma set_status_ids index st l :
  map platformId (set_status index st l) = map platformId l.
Proof.
  apply map_indexed_ids. intros c j. now destruct (j =? index).
Qed.

Lemma set_status_length index st l :
  length (set_status index st l) = length l.
Proof. apply map_indexed_length. Qed.

Lemma lookup_set_status k index st l :
  lookup k (set_status index st l)
  = option_map (fun c => if k =? index then mkConn (platformId c) st else c)
      (lookup k l).
Proof.
  unfold lookup, set_status. destruct (Z.ltb_spec k 0) as [Hk|Hk]; [reflexivity|].
  rewrite map_indexed_nth_error. rewrite Z.add_0_l, Z2Nat.id by lia. reflexivity.
Qed.

Lemma lookup_set_status_other k index st l :
  k <> index -> lookup k (set_status index st l) = lookup k l.
Proof.
  intro Hne. rewrite lookup_set_status.
  destruct (Z.eqb_spec k index) as [->|_]; [contradiction|].
  now destruct (lookup k l).
Qed.

Lemma lookup_set_status_same index st l c :
  lookup index l = Some c ->
  lookup index (set_status index st l) = Some (mkConn (platformId c) st).
Proof.
  intro H. rewrite lookup_set_status, H. simpl. now rewrite Z.eqb_refl.
Qed.

Lemma lookup_None_range index l :
  lookup index l = None <-> index < 0 \/ Z.of_nat (length l) <= index.
Proof.
  unfold lookup. destruct (Z.ltb_spec index 0) as [Hk|Hk].
  - split; auto.
  - rewrite nth_error_None. lia.
Qed.

Ltac frame_conditions :=
  unfold same_shape, ledger_ids; intros; simpl;
  try reflexivity; try congruence; try apply set_status_ids.

Lemma same_shape_step rand e : respects same_shape (step rand e).
Proof. apply respects_step; frame_conditions. Qed.

Lemma same_shape_run rand p evs :
  ensures (fun _ => run rand p evs) (initialState p)
    (fun _ s' => same_shape (initialState p) s').
Proof. apply respects_run; frame_conditions. Qed.

(** ** Construction (C1, C2) *)

Lemma initial_ids p : ledger_ids (initialState p) = platformIds p.
Proof.
  unfold ledger_ids, initialState; simpl. rewrite map_map. simpl. apply map_id.
Qed.

Lemma initial_statuses p :
  Forall (fun c => status c = pending) (connections (initialState p)).
Proof.
  unfold initialState; simpl. induction (platformIds p); simpl; constructor; auto.
Qed.

Lemma initial_successCount p : successCount (initialState p) = 0%nat.
Proof.
  unfold successCount, initialState; simpl.
  induction (platformIds p); simpl; auto.
Qed.

(** C1: for a non-empty list of platform ids, the first render's ledger has
    exactly one record per id, in input order, every record is [pending],
    [allComplete] is false and [successCount] is 0. *)
Theorem initial_ledger (p : Props) :
  platformIds p <> [] ->
  let s := initialState p in
  length (connections s) = length (platformIds p)
  /\ map platformId (connections s) = platformIds p
  /\ (forall i id, nth_error (platformIds p) i = Some id ->
                   nth_error (connections s) i = Some (mkConn id pending))
  /\ Forall (fun c => status c = pending) (connections s)
  /\ allComplete s = false
  /\ successCount s = 0%nat.
Proof.
  intros _ s. subst s. repeat split.
  - unfold initialState; simpl. apply length_map.
  - apply initial_ids.
  - intros i id H. unfold initialState; simpl.
    now rewrite nth_error_map, H.
  - apply initial_statuses.
  - apply initial_successCount.
Qed.

Lemma initial_ledger_witness :
  let s := initialState (abc_props None) in
  length (connections s) = 3%nat
  /\ map platformId (connections s) = ["A"; "B"; "C"]%string
  /\ (forall i id, nth_error ["A"; "B"; "C"]%string i = Some id ->
                   nth_error (connections s) i = Some (mkConn id pending))
  /\ Forall (fun c => status c = pending) (connections s)
  /\ allComplete s = false
  /\ successCount s = 0%nat.
Proof. apply (@initial_ledger (abc_props None)). simpl. discriminate. Defined.

(** ** Shape of the ledger (C7) *)

(** C7: every turn of the event loop (a sequencer step, a retry, a
    completion, a render) keeps the number of records, their order and each
    record's [platformId]; along a whole run they stay those of the platform
    ids the hook was mounted with.  Only [status] changes. *)
Theorem ledger_shape_preserved :
  (forall rand e s, exists s',
      step rand e s = (Normal tt, s')
      /\ map platformId (connections s') = map platformId (connections s)
      /\ length (connections s') = length (connections s))
  /\ (forall rand p evs, exists s',
      run rand p evs = (Normal tt, s')
      /\ map platformId (connections s') = platformIds p
      /\ length (connections s') = length (platformIds p)).
Proof.
  split.
  - intros rand e s.
    pose proof (same_shape_step rand e (eq_refl : same_shape s s)) as H.
    apply ensures_elim in H. destruct H as ([] & s' & Hs & Hshape).
    exists s'. split; [exact Hs|]. unfold same_shape, ledger_ids in Hshape.
    split; [exact Hshape|].
    rewrite <- (length_map platformId (connections s')), Hshape.
    apply length_map.
  - intros rand p evs.
    pose proof (same_shape_run rand p evs) as H.
    apply ensures_elim in H. destruct H as ([] & s' & Hs & Hshape).
    exists s'. split; [exact Hs|]. unfold same_shape in Hshape.
    rewrite initial_ids in Hshape. unfold ledger_ids in Hshape.
    split; [exact Hshape|].
    rewrite <- (length_map platformId (connections s')), Hshape. reflexivity.
Qed.

(** ** Out-of-range retry (C4) *)

(** C4: a retry whose index is outside the ledger is a no-op: the turn
    completes normally and the whole state (ledger, [currentIndex],
    [allComplete], hence [successCount]) is unchanged. *)
Theorem retry_out_of_range (rand : float) (index : Z)
    (credentials : option Credentials) (s : HookState) :
  index < 0 \/ Z.of_nat (length (connections s)) <= index ->
  step rand (Retry index credentials) s = (Normal tt, s)
  /\ successCount (snd (step rand (Retry index credentials) s)) = successCount s.
Proof.
  intro H. apply lookup_None_range in H.
  assert (E : step rand (Retry index credentials) s = (Normal tt, s)).
  { simpl. unfold retryConnection, runConnection, bind, get. now rewrite H. }
  now rewrite E.
Qed.

Lemma retry_out_of_range_witness :
  let s := snd (mount 0%float (abc_props (Some (always OSuccess)))) in
  step 0%float (Retry 3 None) s = (Normal tt, s)
  /\ successCount (snd (step 0%float (Retry 3 None) s)) = successCount s.
Proof.
  apply (@retry_out_of_range 0%float 3 None
           (snd (mount 0%float (abc_props (Some (always OSuccess)))))).
  right. vm_compute. discriminate.
Defined.

(** ** What a [runConnection] call does, case by case *)

Lemma resume_caller_eq k s : resume_caller k s = (Normal tt, resumed k s).
Proof.
  destruct k as [|i len]; simpl; [reflexivity|].
  unfold next_action. destruct (i <? len - 1); reflexivity.
Qed.

Lemma runConnection_skip rand index credentials k s :
  match lookup index (connections s) with
  | None => True
  | Some c => falsy (platformId c) = true
  end ->
  runConnection rand index credentials k s = (Normal tt, resumed k s).
Proof.
  intro H. unfold runConnection, bind, get.
  destruct (lookup index (connections s)) as [c|].
  - rewrite H. apply resume_caller_eq.
  - apply resume_caller_eq.
Qed.

Lemma runConnection_throws rand index credentials k s c f :
  lookup index (connections s) = Some c ->
  falsy (platformId c) = false ->
  connectPlatform (props s) = Some f ->
  f (platformId c) credentials = Throws ->
  runConnection rand index credentials k s
  = (Normal tt, resumed k (written index error (written index connecting s))).
Proof.
  intros Hc Hid Hf Hcall. unfold runConnection, bind, get.
  rewrite Hc, Hid. simpl. rewrite Hf.
  unfold try_catch, call_connector, bind. rewrite Hcall. simpl.
  apply resume_caller_eq.
Qed.

Lemma runConnection_returns rand index credentials k s c f p :
  lookup index (connections s) = Some c ->
  falsy (platformId c) = false ->
  connectPlatform (props s) = Some f ->
  f (platformId c) credentials = Returns p ->
  runConnection rand index credentials k s
  = (Normal tt, parked (AwaitConnector index p k) (written index connecting s)).
Proof.
  intros Hc Hid Hf Hcall. unfold runConnection, bind, get.
  rewrite Hc, Hid. simpl. rewrite Hf.
  unfold try_catch, call_connector, bind. rewrite Hcall. reflexivity.
Qed.

Lemma runConnection_fallback rand index credentials k s c :
  lookup index (connections s) = Some c ->
  falsy (platformId c) = false ->
  connectPlatform (props s) = None ->
  runConnection rand index credentials k s
  = (Normal tt,
     parked (MockDelay index (mock_delay rand)
               (now s + delay_floor (mock_delay rand)) k)
       (written index connecting s)).
Proof.
  intros Hc Hid Hf. unfold runConnection, bind, get.
  rewrite Hc, Hid. simpl. rewrite Hf. reflexivity.
Qed.

Lemma settle_connection_eq index p k s :
  settle_connection index p k s
  = (Normal tt, resumed k (written index (settled_status p) s)).
Proof.
  unfold settle_connection, bind, try_catch.
  destruct p as [o|]; simpl; apply resume_caller_eq.
Qed.

Lemma settle_mock_eq rand index k s :
  settle_mock rand index k s
  = (Normal tt, resumed k (written index (mock_status rand) s)).
Proof. unfold settle_mock, bind. simpl. apply resume_caller_eq. Qed.

Lemma resume_await rand tid s index p k :
  find_task tid (pendingTasks s) = Some (AwaitConnector index p k) ->
  step rand (Resume tid) s
  = (Normal tt, resumed k (written index (settled_status p) (taken tid s))).
Proof.
  intro H. simpl. unfold resume, bind, get. rewrite H. simpl.
  apply settle_connection_eq.
Qed.

Lemma resume_mock rand tid s index d due k :
  find_task tid (pendingTasks s) = Some (MockDelay index d due k) ->
  due <= now s ->
  step rand (Resume tid) s
  = (Normal tt, resumed k (written index (mock_status rand) (taken tid s))).
Proof.
  intros H Hdue. simpl. unfold resume, bind, get. rewrite H.
  destruct (Z.leb_spec due (now s)) as [_|]; [|lia]. simpl.
  apply settle_mock_eq.
Qed.

Lemma resume_mock_early rand tid s index d due k :
  find_task tid (pendingTasks s) = Some (MockDelay index d due k) ->
  now s < due ->
  step rand (Resume tid) s = (Normal tt, s).
Proof.
  intros H Hlt. simpl. unfold resume, bind, get. rewrite H.
  destruct (Z.leb_spec due (now s)); [lia|reflexivity].
Qed.

(** Field projections of the elementary state changes. *)
Lemma connections_resumed k s : connections (resumed k s) = connections s.
Proof. now destruct k. Qed.

Lemma currentIndex_resumed k s : currentIndex (resumed k s) = currentIndex s.
Proof. now destruct k. Qed.

Lemma allComplete_resumed k s : allComplete (resumed k s) = allComplete s.
Proof. now destruct k. Qed.

Lemma status_at_written_same index st s c :
  lookup index (connections s) = Some c ->
  status_at index (written index st s) = Some st.
Proof.
  intro H. unfold status_at, written; simpl.
  now rewrite (@lookup_set_status_same index st _ c H).
Qed.

Lemma lookup_written_same index st s c :
  lookup index (connections s) = Some c ->
  lookup index (connections (written index st s))
  = Some (mkConn (platformId c) st).
Proof. intro H. unfold written; simpl. now apply lookup_set_status_same. Qed.

(** ** Failures of the Connector (C3) *)

Lemma step_total rand e s : exists s', step rand e s = (Normal tt, s').
Proof.
  assert (H : respects (fun _ _ => True) (step rand e))
    by (apply respects_step; auto).
  specialize (H s s I). apply ensures_elim in H.
  destruct H as ([] & s' & Hs & _). eauto.
Qed.

Lemma mount_total rand p : exists s', mount rand p = (Normal tt, s').
Proof.
  assert (H : respects (fun _ _ => True) (autoStartEffect rand))
    by (apply respects_autoStartEffect; auto).
  specialize (H (initialState p) (initialState p) I). apply ensures_elim in H.
  destruct H as ([] & s' & Hs & _). unfold mount. eauto.
Qed.

(** C3: no operation of the orchestrator throws (mounting and every turn of
    the event loop complete normally), and an attempt whose Connector call
    throws synchronously or whose promise rejects, whether started by the
    sequencer or by a retry, leaves the target record in status [error]. *)
Theorem connector_failure_absorbed :
  (forall rand p, exists s', mount rand p = (Normal tt, s'))
  /\ (forall rand e s, exists s', step rand e s = (Normal tt, s'))
  /\ (forall rand index credentials k s c f,
        lookup index (connections s) = Some c ->
        falsy (platformId c) = false ->
        connectPlatform (props s) = Some f ->
        f (platformId c) credentials = Throws ->
        exists s', runConnection rand index credentials k s = (Normal tt, s')
                   /\ status_at index s' = Some error)
  /\ (forall rand tid index k s c,
        find_task tid (pendingTasks s) = Some (AwaitConnector index Rejected k) ->
        lookup index (connections s) = Some c ->
        exists s', step rand (Resume tid) s = (Normal tt, s')
                   /\ status_at index s' = Some error).
Proof.
  split; [exact mount_total|]. split; [exact step_total|]. split.
  - intros rand index credentials k s c f Hc Hid Hf Hcall.
    eexists. split; [eapply runConnection_throws; eassumption|].
    unfold status_at. rewrite connections_resumed.
    erewrite lookup_written_same; [reflexivity|].
    eapply lookup_written_same; eassumption.
  - intros rand tid index k s c Htask Hc.
    eexists. split; [eapply resume_await; eassumption|].
    unfold status_at. rewrite connections_resumed.
    erewrite lookup_written_same; [reflexivity|]. exact Hc.
Qed.

Lemma connector_failure_absorbed_witness :
  (exists s', runConnection 0%float 1 None FromRetry
                (initialState (abc_props (Some throwing))) = (Normal tt, s')
              /\ status_at 1 s' = Some error)
  /\ (exists s', step 0%float (Resume 0)
                   (snd (mount 0%float (abc_props (Some rejecting)))) = (Normal tt, s')
                 /\ status_at 0 s' = Some error).
Proof.
  destruct connector_failure_absorbed as (_ & _ & Hthrow & Hreject). split.
  - apply (Hthrow 0%float 1 None FromRetry
             (initialState (abc_props (Some throwing)))
             (mkConn "B" pending) throwing); reflexivity.
  - apply (Hreject 0%float 0%nat 0 (FromSequencer 0 3)
             (snd (mount 0%float (abc_props (Some rejecting))))
             (mkConn "A" connecting)); reflexivity.
Defined.

Lemma runConnection_cases rand index credentials k s :
  exists s', runConnection rand index credentials k s = (Normal tt, s')
             /\ attempt_result rand index credentials k s s'.
Proof.
  destruct (lookup index (connections s)) as [c|] eqn:Hc.
  - destruct (falsy (platformId c)) eqn:Hid.
    + eexists; split; [apply runConnection_skip|apply attempt_skipped];
        now rewrite Hc.
    + destruct (connectPlatform (props s)) as [f|] eqn:Hf.
      * destruct (f (platformId c) credentials) as [|p] eqn:Hcall.
        -- eexists; split; [eapply runConnection_throws|eapply attempt_threw];
             eassumption.
        -- eexists; split; [eapply runConnection_returns|eapply attempt_awaits];
             eassumption.
      * eexists; split; [eapply runConnection_fallback|eapply attempt_mocked];
          eassumption.
  - eexists; split; [apply runConnection_skip|apply attempt_skipped];
      now rewrite Hc.
Qed.

(** ** Tasks *)

Lemma find_task_app tid ts extra t :
  find_task tid ts = Some t -> find_task tid (ts ++ extra) = Some t.
Proof.
  induction ts as [|[i t'] ts IH]; simpl; [discriminate|].
  destruct (Nat.eqb i tid); auto.
Qed.

Lemma find_task_In tid ts t : find_task tid ts = Some t -> In (tid, t) ts.
Proof.
  induction ts as [|[i t'] ts IH]; simpl; [discriminate|].
  destruct (Nat.eqb_spec i tid) as [->|_].
  - intros [= ->]. now left.
  - intro H. right. auto.
Qed.

Lemma remove_task_In tid ts x : In x (remove_task tid ts) -> In x ts.
Proof.
  induction ts as [|[i t'] ts IH]; simpl; [auto|].
  destruct (Nat.eqb i tid); simpl; intuition.
Qed.

(** ** Retry (C5) *)

(** C5 as stated fails for a record whose [platformId] is the empty string:
    index 0 is a valid index, yet [retryConnection(0)] returns at the
    [!platformId] guard, so the record is never moved to [connecting] or to a
    terminal status and no Connector call is made. *)
Lemma retry_empty_id_counterexample :
  let s := snd (mount 0%float no_id_props) in
  lookup 0 (connections s) = Some (mkConn EmptyString pending)
  /\ step 0%float (Retry 0 None) s = (Normal tt, s)
  /\ pendingTasks s = []
  /\ ~ (exists s', step 0%float (Retry 0 None) s = (Normal tt, s')
                   /\ status_at 0 s' = Some connecting).
Proof.
  vm_compute. repeat split; try reflexivity.
  intros (s' & Hs & Hst). injection Hs as <-. discriminate.
Qed.

(** The sequencer passes over a record whose [platformId] is empty: it is
    never attempted, and the run still completes. *)
Example sequencer_skips_empty_id :
  let s := snd (run 0%float gap_props
                  [(0%float, Resume 0%nat); (0%float, Tick 500); (0%float, Resume 1%nat);
                   (0%float, Tick 500); (0%float, Resume 2%nat);
                   (0%float, Resume 3%nat); (0%float, Tick 500);
                   (0%float, Resume 4%nat)]) in
  statuses s = [success; pending; success]
  /\ allComplete s = true
  /\ rev (history s)
     = [mkWrite 0 0 connecting; mkWrite 0 0 success;
        mkWrite 1000 2 connecting; mkWrite 1000 2 success].
Proof. vm_compute. auto. Qed.

Lemma retry_call_frame rand j credentials s s' :
  attempt_result rand j credentials FromRetry s s' ->
  (forall k, k <> j -> lookup k (connections s') = lookup k (connections s))
  /\ option_map platformId (lookup j (connections s'))
     = option_map platformId (lookup j (connections s))
  /\ currentIndex s' = currentIndex s
  /\ allComplete s' = allComplete s.
Proof.
  intros [Hskip|c f Hc Hid Hf Hcall|c f p Hc Hid Hf Hcall|c Hc Hid Hf]; simpl.
  - auto.
  - repeat split; auto.
    + intros k Hk. now rewrite !lookup_set_status_other.
    + rewrite !lookup_set_status, Hc. simpl. now rewrite Z.eqb_refl.
  - repeat split; auto.
    + intros k Hk. now rewrite lookup_set_status_other.
    + rewrite lookup_set_status, Hc. simpl. now rewrite Z.eqb_refl.
  - repeat split; auto.
    + intros k Hk. now rewrite lookup_set_status_other.
    + rewrite lookup_set_status, Hc. simpl. now rewrite Z.eqb_refl.
Qed.

(** C5, amended: for every valid index [j] whose record has a non-empty
    [platformId], [retryConnection(j, credentials)] moves that record to
    [connecting] (forwarding the credentials to the Connector) and, when the
    Connector's promise settles or the fallback timer fires, to [success] or
    [error] per the outcome; when the [platformId] is the empty string the
    call changes nothing.  In every case, and in both turns of the retry, all
    records at other indices, [currentIndex] and [allComplete] are unchanged. *)
Theorem retry_writes_only_its_record :
  (forall rand j credentials s c,
     lookup j (connections s) = Some c ->
     exists s',
       step rand (Retry j credentials) s = (Normal tt, s')
       /\ (forall k, k <> j -> lookup k (connections s') = lookup k (connections s))
       /\ option_map platformId (lookup j (connections s')) = Some (platformId c)
       /\ currentIndex s' = currentIndex s
       /\ allComplete s' = allComplete s
       /\ (falsy (platformId c) = true -> s' = s)
       /\ (falsy (platformId c) = false ->
           match connectPlatform (props s) with
           | Some f =>
               match f (platformId c) credentials with
               | Throws =>
                   status_at j s' = Some error
                   /\ pendingTasks s' = pendingTasks s
               | Returns p =>
                   status_at j s' = Some connecting
                   /\ pendingTasks s'
                      = pendingTasks s ++ [(nextTask s, AwaitConnector j p FromRetry)]
               end
           | None =>
               status_at j s' = Some connecting
               /\ pendingTasks s'
                  = pendingTasks s
                    ++ [(nextTask s,
                         MockDelay j (mock_delay rand)
                           (now s + delay_floor (mock_delay rand)) FromRetry)]
           end))
  /\ (forall rand tid s j c t,
     find_task tid (pendingTasks s) = Some t ->
     lookup j (connections s) = Some c ->
     (exists p, t = AwaitConnector j p FromRetry)
     \/ (exists d due, t = MockDelay j d due FromRetry /\ due <= now s) ->
     exists s',
       step rand (Resume tid) s = (Normal tt, s')
       /\ (forall k, k <> j -> lookup k (connections s') = lookup k (connections s))
       /\ option_map platformId (lookup j (connections s')) = Some (platformId c)
       /\ currentIndex s' = currentIndex s
       /\ allComplete s' = allComplete s
       /\ status_at j s'
          = Some match t with
                 | AwaitConnector _ p _ => settled_status p
                 | _ => mock_status rand
                 end
       /\ (status_at j s' = Some success \/ status_at j s' = Some error)).
Proof.
  split.
  - intros rand j credentials s c Hc.
    destruct (runConnection_cases rand j credentials FromRetry s)
      as (s' & Hrun & Hcase).
    exists s'. split; [exact Hrun|].
    destruct (retry_call_frame Hcase) as (Hother & Hid & Hci & Hac).
    rewrite Hc in Hid. repeat (split; [assumption|]).
    inversion Hcase as [Hskip|c' f Hc' Hid' Hf Hcall|c' f p Hc' Hid' Hf Hcall
                       |c' Hc' Hid' Hf]; subst s';
      try (rewrite Hc in Hc'; injection Hc' as <-).
    + rewrite Hc in Hskip. split; [auto|]. congruence.
    + split; [congruence|]. intros _. rewrite Hf, Hcall. split; [|reflexivity].
      simpl. eapply status_at_written_same.
      eapply lookup_written_same; eassumption.
    + split; [congruence|]. intros _. rewrite Hf, Hcall. split; [|reflexivity].
      unfold parked; simpl. fold (written j connecting s).
      eapply status_at_written_same; eassumption.
    + split; [congruence|]. intros _. rewrite Hf. split; [|reflexivity].
      unfold parked; simpl. fold (written j connecting s).
      eapply status_at_written_same; eassumption.
  - intros rand tid s j c t Htask Hc [[p ->]|(d & due & -> & Hdue)].
    + eexists. split; [eapply resume_await; eassumption|]. simpl.
      repeat split.
      * intros k Hk. now rewrite lookup_set_status_other.
      * rewrite lookup_set_status, Hc. simpl. now rewrite Z.eqb_refl.
      * unfold status_at; simpl. rewrite lookup_set_status, Hc; simpl.
        now rewrite Z.eqb_refl.
      * unfold status_at; simpl. rewrite lookup_set_status, Hc; simpl.
        rewrite Z.eqb_refl; simpl. destruct p as [[|]|]; auto.
    + eexists. split; [eapply resume_mock; eassumption|]. simpl.
      repeat split.
      * intros k Hk. now rewrite lookup_set_status_other.
      * rewrite lookup_set_status, Hc. simpl. now rewrite Z.eqb_refl.
      * unfold status_at; simpl. rewrite lookup_set_status, Hc; simpl.
        now rewrite Z.eqb_refl.
      * unfold status_at; simpl. rewrite lookup_set_status, Hc; simpl.
        rewrite Z.eqb_refl; simpl. unfold mock_status.
        destruct (mock_success rand); auto.
Qed.

Example mixed_outcomes :
  statuses after_mixed_run = [success; error; success]
  /\ successCount after_mixed_run = 2%nat
  /\ allComplete after_mixed_run = true.
Proof. vm_compute. auto. Qed.

Example retry_resurrection :
  let s1 := snd (step 0%float (Retry 1 some_credentials) after_mixed_run) in
  let s2 := snd (step 0%float (Resume 6%nat) s1) in
  statuses s1 = [success; connecting; success]
  /\ allComplete s1 = true
  /\ statuses s2 = [success; success; success]
  /\ successCount s2 = 3%nat
  /\ allComplete s2 = true
  /\ currentIndex s2 = currentIndex after_mixed_run.
Proof. vm_compute. auto 10. Qed.

Lemma retry_writes_only_its_record_witness :
  (exists s',
     step 0%float (Retry 1 some_credentials) after_mixed_run = (Normal tt, s')
     /\ lookup 0 (connections s') = lookup 0 (connections after_mixed_run)
     /\ lookup 2 (connections s') = lookup 2 (connections after_mixed_run)
     /\ currentIndex s' = currentIndex after_mixed_run
     /\ allComplete s' = allComplete after_mixed_run
     /\ status_at 1 s' = Some connecting)
  /\ (exists s',
     step 0%float (Resume 6%nat) after_retry_call = (Normal tt, s')
     /\ allComplete s' = true
     /\ status_at 1 s' = Some success).
Proof.
  destruct retry_writes_only_its_record as (Hcall & Hsettle). split.
  - assert (Hc : lookup 1 (connections after_mixed_run) = Some (mkConn "B" error))
      by (vm_compute; reflexivity).
    destruct (Hcall 0%float 1 some_credentials after_mixed_run _ Hc)
      as (s' & Hs & Hother & _ & Hci & Hac & _ & Hst).
    exists s'. split; [exact Hs|].
    split; [apply Hother; discriminate|].
    split; [apply Hother; discriminate|].
    split; [exact Hci|]. split; [exact Hac|].
    specialize (Hst eq_refl). vm_compute in Hst. apply Hst.
  - assert (Ht : find_task 6%nat (pendingTasks after_retry_call)
                 = Some (AwaitConnector 1 (Fulfilled OSuccess) FromRetry))
      by (vm_compute; reflexivity).
    assert (Hc : lookup 1 (connections after_retry_call)
                 = Some (mkConn "B" connecting))
      by (vm_compute; reflexivity).
    destruct (Hsettle 0%float 6%nat after_retry_call 1 _ _ Ht Hc
                (or_introl (ex_intro _ (Fulfilled OSuccess) eq_refl)))
      as (s' & Hs & _ & _ & _ & Hac & Hst & _).
    exists s'. split; [exact Hs|]. split; [rewrite Hac; reflexivity|exact Hst].
Defined.

(** ** The empty list of platform ids (C2) *)

(** C2 as stated fails: for the empty list the hook never sets [allComplete];
    it is false after mounting and stays false however long one waits. *)
Lemma empty_list_counterexample :
  ~ (allComplete (snd (mount 0%float empty_props)) = true)
  /\ ~ (allComplete (snd (run 0%float empty_props [(0%float, Tick 500)])) = true).
Proof. split; vm_compute; discriminate. Qed.

Lemma idle_empty_step rand e s :
  idle_empty s -> exists s', step rand e s = (Normal tt, s') /\ idle_empty s'.
Proof.
  destruct s as [l ci ac pr ts nt t h].
  intros (Hl & Hci & Hac & Hts & Hh); simpl in *; subst.
  destruct e as [p|index credentials|tid|d]; simpl.
  - unfold rerender, bind, get, modify, with_props; simpl.
    destruct (Bool.eqb (autoStart p) (autoStart pr)).
    + eexists; split; [reflexivity|]. repeat split.
    + unfold autoStartEffect, bind, get; simpl.
      rewrite andb_false_r. eexists; split; [reflexivity|]. repeat split.
  - unfold retryConnection. rewrite runConnection_skip.
    + eexists; split; [reflexivity|]. repeat split.
    + simpl. unfold lookup. destruct (index <? 0); [exact I|].
      now destruct (Z.to_nat index).
  - eexists; split; [reflexivity|]. repeat split.
  - unfold tick. destruct (0 <=? d); eexists; (split; [reflexivity|]);
      repeat split.
Qed.

Lemma idle_empty_exec evs : forall s,
  idle_empty s -> exists s', exec evs s = (Normal tt, s') /\ idle_empty s'.
Proof.
  induction evs as [|[rand e] evs IH]; intros s Hs; simpl.
  - exists s. split; [reflexivity|exact Hs].
  - destruct (idle_empty_step rand e Hs) as (s1 & Hstep & H1).
    unfold bind. rewrite Hstep. apply IH, H1.
Qed.

(** C2, amended: for the empty platform id list the ledger is empty,
    [successCount] is 0 and no attempt is ever run (no task is pending, no
    write is made, [currentIndex] stays -1); [allComplete] is false and
    remains false through every later turn. *)
Theorem empty_list_never_completes (rand : float) (p : Props)
    (evs : list (float * Event)) :
  platformIds p = [] ->
  exists s',
    run rand p evs = (Normal tt, s')
    /\ connections s' = []
    /\ successCount s' = 0%nat
    /\ allComplete s' = false
    /\ currentIndex s' = -1
    /\ pendingTasks s' = []
    /\ history s' = [].
Proof.
  intro Hp.
  assert (H0 : mount rand p = (Normal tt, initialState p)
               /\ idle_empty (initialState p)).
  { unfold mount, autoStartEffect, bind, get, initialState; simpl.
    rewrite Hp; simpl. rewrite andb_false_r. repeat split. }
  destruct H0 as (Hm & H0). unfold run. rewrite Hm.
  destruct (idle_empty_exec evs H0) as (s' & Hs & Hl & Hci & Hac & Hts & Hh).
  exists s'. repeat (split; [assumption|]).
  split; [unfold successCount; now rewrite Hl|]. auto.
Qed.

Lemma empty_list_never_completes_witness :
  exists s',
    run 0%float empty_props [(0%float, Tick 500); (0%float, Retry 0 None)]
    = (Normal tt, s')
    /\ connections s' = []
    /\ successCount s' = 0%nat
    /\ allComplete s' = false
    /\ currentIndex s' = -1
    /\ pendingTasks s' = []
    /\ history s' = [].
Proof.
  apply (@empty_list_never_completes 0%float empty_props
           [(0%float, Tick 500); (0%float, Retry 0 None)]).
  reflexivity.
Defined.

(** ** [autoStart] off (C10) *)

Lemma not_started_step rand e s :
  not_started s -> keeps_autoStart_off e ->
  exists s', step rand e s = (Normal tt, s') /\ not_started s'
             /\ (~ is_retry e ->
                 pendingTasks s = [] ->
                 connections s' = connections s /\ pendingTasks s' = []
                 /\ history s' = history s).
Proof.
  intros (Hci & Hac & Hauto & Htasks) He.
  destruct e as [p|index credentials|tid|d]; simpl in *.
  - unfold rerender, bind, get, modify. rewrite He, Hauto. simpl.
    eexists; split; [reflexivity|]. split; [|auto]. repeat split; auto.
  - destruct (runConnection_cases rand index credentials FromRetry s)
      as (s' & Hrun & Hcase).
    exists s'. split; [exact Hrun|]. split; [|tauto].
    destruct (retry_call_frame Hcase) as (_ & _ & Hci' & Hac').
    split; [congruence|]. split; [congruence|].
    inversion Hcase; subst s'; simpl; split; auto;
      apply Forall_app; split; auto; repeat constructor.
  - destruct (find_task tid (pendingTasks s)) as [t|] eqn:Ht.
    + assert (Hr : retry_task t).
      { apply find_task_In in Ht. rewrite Forall_forall in Htasks.
        apply (Htasks _ Ht). }
      assert (Hrest : Forall (fun it => retry_task (snd it))
                        (remove_task tid (pendingTasks s))).
      { rewrite Forall_forall in *. intros x Hx.
        apply Htasks. eapply remove_task_In, Hx. }
      destruct t as [index p [|]|index dl due [|]|due a]; try contradiction.
      * eexists. split; [eapply resume_await; eassumption|]. simpl.
        split; [repeat split; assumption|].
        intros _ Hnil. rewrite Hnil in Ht. discriminate.
      * destruct (Z.le_gt_cases due (now s)) as [Hdue|Hearly].
        -- eexists. split; [eapply resume_mock; eassumption|]. simpl.
           split; [repeat split; assumption|].
           intros _ Hnil. rewrite Hnil in Ht. discriminate.
        -- exists s. split; [eapply resume_mock_early; eassumption|].
           split; [repeat split; assumption|auto].
    + unfold resume, bind, get. rewrite Ht.
      eexists; split; [reflexivity|]. split; [repeat split; assumption|auto].
  - unfold tick. destruct (0 <=? d);
      (eexists; split; [reflexivity|]; split; [repeat split; assumption|auto]).
Qed.

Lemma not_started_exec p evs : forall s,
  not_started s ->
  Forall (fun re => keeps_autoStart_off (snd re)) evs ->
  exists s', exec evs s = (Normal tt, s') /\ not_started s'
             /\ (Forall (fun re => ~ is_retry (snd re)) evs ->
                 untouched p s -> untouched p s').
Proof.
  induction evs as [|[rand e] evs IH]; intros s Hs Hevs; simpl.
  - exists s. auto.
  - inversion Hevs as [|x l He Hevs']; subst. simpl in He.
    destruct (@not_started_step rand e s Hs He) as (s1 & Hstep & H1 & Hquiet).
    destruct (IH s1 H1 Hevs') as (s' & Hexec & H' & Hkeep).
    exists s'. unfold bind. rewrite Hstep. split; [exact Hexec|].
    split; [exact H'|].
    intros Hno (Hl & Hts & Hh). inversion Hno as [|y l' Hne Hno']; subst.
    simpl in Hne. destruct (Hquiet Hne Hts) as (Hl1 & Hts1 & Hh1).
    apply Hkeep; [exact Hno'|]. repeat split; congruence.
Qed.

(** C10: with [autoStart] false at mount and at every later render, the
    sequencer never starts: [currentIndex] stays -1 and [allComplete] stays
    false through every turn, and as long as [retryConnection] is not called
    every record stays [pending], no task is parked and no write is made.
    The one operation the hook returns is [retryConnection], so only a retry
    can change a status. *)
Theorem autoStart_off_never_starts (rand : float) (p : Props)
    (evs : list (float * Event)) :
  autoStart p = false ->
  Forall (fun re => keeps_autoStart_off (snd re)) evs ->
  exists s',
    run rand p evs = (Normal tt, s')
    /\ currentIndex s' = -1
    /\ allComplete s' = false
    /\ (Forall (fun re => ~ is_retry (snd re)) evs ->
        connections s' = connections (initialState p)
        /\ Forall (fun c => status c = pending) (connections s')
        /\ pendingTasks s' = []
        /\ history s' = [])
    /\ (forall index credentials,
          out_retryConnection (useConnectionStatus_result rand s') index credentials
          = step rand (Retry index credentials)).
Proof.
  intros Hp Hevs.
  assert (Hm : mount rand p = (Normal tt, initialState p)).
  { unfold mount, autoStartEffect, bind, get. simpl. now rewrite Hp. }
  assert (H0 : not_started (initialState p)).
  { repeat split; simpl; auto. }
  destruct (@not_started_exec p evs (initialState p) H0 Hevs)
    as (s' & Hexec & (Hci & Hac & _) & Hkeep).
  exists s'. unfold run. rewrite Hm. split; [exact Hexec|].
  split; [exact Hci|]. split; [exact Hac|].
  split; [|reflexivity].
  intro Hno. destruct (Hkeep Hno) as (Hl & Hts & Hh).
  { repeat split. }
  rewrite Hl. repeat split; auto. apply initial_statuses.
Qed.

Lemma autoStart_off_never_starts_witness :
  exists s',
    run 0%float manual_props
      [(0%float, Tick 700); (0%float, Rerender manual_props); (0%float, Resume 0%nat)]
    = (Normal tt, s')
    /\ currentIndex s' = -1
    /\ allComplete s' = false
    /\ connections s' = [mkConn "A" pending; mkConn "B" pending].
Proof.
  destruct (@autoStart_off_never_starts 0%float manual_props
              [(0%float, Tick 700); (0%float, Rerender manual_props);
               (0%float, Resume 0%nat)])
    as (s' & Hrun & Hci & Hac & Hquiet & _).
  - reflexivity.
  - repeat constructor.
  - exists s'. split; [exact Hrun|]. split; [exact Hci|]. split; [exact Hac|].
    apply Hquiet. repeat constructor; simpl; tauto.
Defined.

(** With [autoStart] off a retry is what changes a status. *)
Example autoStart_off_retry :
  let s := snd (run 0%float manual_props
                  [(0%float, Retry 1 None); (0%float, Resume 0%nat)]) in
  statuses s = [pending; success] /\ currentIndex s = -1 /\ allComplete s = false.
Proof. vm_compute. auto. Qed.

(** ** The effects, case by case *)

Lemma sequencerEffect_cases rand s :
  exists s', sequencerEffect rand s = (Normal tt, s')
             /\ sequencer_result rand s s'.
Proof.
  unfold sequencerEffect, sequencer_result, ledger_length, bind, get.
  destruct ((0 <=? currentIndex s)
            && (currentIndex s <? Z.of_nat (length (connections s)))).
  - apply runConnection_cases.
  - eexists; split; reflexivity.
Qed.

Lemma setCurrentIndex_cases rand v s :
  exists s', setCurrentIndex rand v s = (Normal tt, s')
             /\ advance_result rand v s s'.
Proof.
  unfold setCurrentIndex, advance_result, bind, get.
  destruct (currentIndex s =? v).
  - eexists; split; reflexivity.
  - simpl. apply sequencerEffect_cases.
Qed.

Lemma autoStartEffect_cases rand s :
  exists s', autoStartEffect rand s = (Normal tt, s')
             /\ autoStart_result rand s s'.
Proof.
  unfold autoStartEffect, autoStart_result, ledger_length, bind, get.
  destruct (autoStart (props s) && (currentIndex s =? -1)
            && (0 <? Z.of_nat (length (connections s)))).
  - apply setCurrentIndex_cases.
  - eexists; split; reflexivity.
Qed.

Lemma rerender_cases rand p s :
  exists s', step rand (Rerender p) s = (Normal tt, s')
             /\ rerender_result rand p s s'.
Proof.
  simpl. unfold rerender, rerender_result, bind, get. simpl.
  destruct (Bool.eqb (autoStart p) (autoStart (props s))).
  - eexists; split; reflexivity.
  - apply autoStartEffect_cases.
Qed.

(** A call of [runConnection], whoever awaits it, writes only its own
    record, keeps [currentIndex], [allComplete], the clock and the props, and
    only adds tasks. *)
Lemma attempt_frame rand j credentials k s s' :
  attempt_result rand j credentials k s s' ->
  (forall i, i <> j -> lookup i (connections s') = lookup i (connections s))
  /\ ledger_ids s' = ledger_ids s
  /\ currentIndex s' = currentIndex s
  /\ allComplete s' = allComplete s
  /\ now s' = now s
  /\ props s' = props s
  /\ exists extra, pendingTasks s' = pendingTasks s ++ extra.
Proof.
  assert (Hres : forall s0,
             exists extra, pendingTasks (resumed k s0) = pendingTasks s0 ++ extra).
  { intro s0. destruct k; simpl; [exists []; now rewrite app_nil_r|eauto]. }
  intros [Hskip|c f Hc Hid Hf Hcall|c f p Hc Hid Hf Hcall|c Hc Hid Hf].
  - repeat split; try (now destruct k); apply Hres.
  - unfold ledger_ids. rewrite connections_resumed, currentIndex_resumed,
      allComplete_resumed.
    repeat split; try (now destruct k).
    + intros i Hi. simpl. now rewrite !lookup_set_status_other.
    + simpl. now rewrite !set_status_ids.
    + destruct (Hres (written j error (written j connecting s))) as (extra & He).
      exists extra. exact He.
  - unfold ledger_ids. simpl. repeat split; eauto.
    + intros i Hi. now rewrite lookup_set_status_other.
    + now rewrite set_status_ids.
  - unfold ledger_ids. simpl. repeat split; eauto.
    + intros i Hi. now rewrite lookup_set_status_other.
    + now rewrite set_status_ids.
Qed.

Lemma sequencer_frame rand s s' :
  sequencer_result rand s s' ->
  ledger_ids s' = ledger_ids s /\ currentIndex s' = currentIndex s
  /\ allComplete s' = allComplete s /\ now s' = now s /\ props s' = props s
  /\ exists extra, pendingTasks s' = pendingTasks s ++ extra.
Proof.
  unfold sequencer_result.
  destruct ((0 <=? currentIndex s) && (currentIndex s <? ledger_length s)).
  - intro H. apply attempt_frame in H. tauto.
  - intros ->. repeat split. exists []. now rewrite app_nil_r.
Qed.

Lemma advance_frame rand v s s' :
  advance_result rand v s s' ->
  ledger_ids s' = ledger_ids s /\ currentIndex s' = v
  /\ allComplete s' = allComplete s /\ now s' = now s /\ props s' = props s
  /\ exists extra, pendingTasks s' = pendingTasks s ++ extra.
Proof.
  unfold advance_result. destruct (Z.eqb_spec (currentIndex s) v) as [Hv|Hv].
  - intros ->. repeat split; auto. exists []. now rewrite app_nil_r.
  - intro H. apply sequencer_frame in H. simpl in H. tauto.
Qed.

Lemma rerender_frame rand p s s' :
  rerender_result rand p s s' ->
  ledger_ids s' = ledger_ids s /\ allComplete s' = allComplete s
  /\ now s' = now s /\ props s' = p
  /\ exists extra, pendingTasks s' = pendingTasks s ++ extra.
Proof.
  unfold rerender_result, autoStart_result.
  destruct (Bool.eqb (autoStart p) (autoStart (props s))).
  - intros ->. repeat split. exists []. now rewrite app_nil_r.
  - destruct (autoStart (props (with_props p s))
              && (currentIndex (with_props p s) =? -1)
              && (0 <? ledger_length (with_props p s))).
    + intro H. apply advance_frame in H. simpl in H. tauto.
    + intros ->. repeat split. exists []. now rewrite app_nil_r.
Qed.

(** ** Replaced sessions (C8) *)

(** C8 as stated fails: the hook keeps no run identity and checks nothing
    before a deferred write.  The Connector call for [A] is in flight when the
    caller replaces the session inputs by those for [B]; the ledger is not
    rebuilt, and when the old call resolves its callback writes [success]
    into it and goes on to complete the run. *)
Lemma stale_write_counterexample :
  connections after_replacement = [mkConn "A" connecting]
  /\ platformIds (props after_replacement) = ["B"]%string
  /\ find_task 0 (pendingTasks after_replacement)
     = Some (AwaitConnector 0 (Fulfilled OSuccess) (FromSequencer 0 1))
  /\ connections (snd (step 0%float (Resume 0%nat) after_replacement))
     = [mkConn "A" success]
  /\ ~ (connections (snd (step 0%float (Resume 0%nat) after_replacement))
        = connections after_replacement)
  /\ allComplete
       (snd (exec [(0%float, Resume 0%nat); (0%float, Tick 500); (0%float, Resume 1%nat)]
               after_replacement)) = true.
Proof. vm_compute. repeat split; try reflexivity. discriminate. Qed.

Lemma resume_timer rand tid s due a :
  find_task tid (pendingTasks s) = Some (SettleTimer due a) ->
  due <= now s ->
  exists s',
    step rand (Resume tid) s = (Normal tt, s')
    /\ match a with
       | AdvanceTo v => advance_result rand v (taken tid s) s'
       | MarkComplete => s' = snd (setAllComplete true (taken tid s))
       end.
Proof.
  intros Ht Hdue. simpl. unfold resume, bind, get. rewrite Ht.
  destruct (Z.leb_spec due (now s)) as [_|]; [|lia]. simpl.
  destruct a as [v|].
  - apply setCurrentIndex_cases.
  - eexists; split; reflexivity.
Qed.

(** C8, amended: a render with new props never rebuilds the ledger and
    cancels nothing, and no deferred write is guarded by a check of the run:
    whatever props replace the old ones, every callback that was in flight is
    still pending afterwards, and when it is resumed it applies its update to
    the hook's one ledger by index ([setConnections] for a Connector call or
    fallback timer, [setCurrentIndex] or [setAllComplete(true)] for a settle
    timer that is due), exactly as it would have without the replacement. *)
Theorem stale_callbacks_unguarded (rand rand' : float) (p' : Props)
    (s : HookState) (tid : nat) (t : Task) :
  find_task tid (pendingTasks s) = Some t ->
  exists s1,
    step rand (Rerender p') s = (Normal tt, s1)
    /\ ledger_ids s1 = ledger_ids s
    /\ find_task tid (pendingTasks s1) = Some t
    /\ exists s2,
         step rand' (Resume tid) s1 = (Normal tt, s2)
         /\ match t with
            | AwaitConnector index p _ =>
                connections s2 = set_status index (settled_status p) (connections s1)
            | MockDelay index _ due _ =>
                due <= now s1 ->
                connections s2 = set_status index (mock_status rand') (connections s1)
            | SettleTimer due (AdvanceTo v) =>
                due <= now s1 -> currentIndex s2 = v
            | SettleTimer due MarkComplete =>
                due <= now s1 -> allComplete s2 = true
            end.
Proof.
  intro Ht.
  destruct (rerender_cases rand p' s) as (s1 & Hs1 & Hcase).
  destruct (@rerender_frame rand p' s s1 Hcase) as (Hids & _ & _ & _ & extra & Htasks).
  assert (Ht1 : find_task tid (pendingTasks s1) = Some t).
  { rewrite Htasks. now apply find_task_app. }
  exists s1. repeat (split; [assumption|]).
  destruct t as [index p k|index d due k|due a].
  - eexists. split; [eapply resume_await; eassumption|].
    now rewrite connections_resumed.
  - destruct (step_total rand' (Resume tid) s1) as (s2 & Hs2).
    exists s2. split; [exact Hs2|]. intro Hdue.
    rewrite (@resume_mock rand' tid s1 _ _ _ _ Ht1 Hdue) in Hs2.
    injection Hs2 as <-. now rewrite connections_resumed.
  - destruct (step_total rand' (Resume tid) s1) as (s2 & Hs2).
    exists s2. split; [exact Hs2|].
    destruct a as [v|]; intro Hdue;
      destruct (@resume_timer rand' tid s1 _ _ Ht1 Hdue) as (s2' & Hs2' & Hres);
      rewrite Hs2 in Hs2'; injection Hs2' as <-.
    + apply advance_frame in Hres. tauto.
    + now subst s2.
Qed.

Lemma stale_callbacks_unguarded_witness :
  exists s1,
    step 0%float (Rerender second_session) (snd (mount 0%float first_session))
    = (Normal tt, s1)
    /\ ledger_ids s1 = ["A"]%string
    /\ exists s2,
         step 0%float (Resume 0%nat) s1 = (Normal tt, s2)
         /\ connections s2 = set_status 0 success (connections s1).
Proof.
  destruct (@stale_callbacks_unguarded 0%float 0%float second_session
              (snd (mount 0%float first_session)) 0%nat
              (AwaitConnector 0 (Fulfilled OSuccess) (FromSequencer 0 1)) eq_refl)
    as (s1 & Hs1 & Hids & _ & s2 & Hs2 & Hw).
  exists s1. split; [exact Hs1|]. split; [exact Hids|].
  exists s2. split; [exact Hs2|exact Hw].
Defined.

(** ** The sequencer's run (C6) *)

Lemma status_at_written k index st s :
  status_at k (written index st s)
  = if k =? index then option_map (fun _ => st) (status_at k s)
    else status_at k s.
Proof.
  unfold status_at, written; simpl. rewrite lookup_set_status.
  destruct (lookup k (connections s)); simpl; destruct (k =? index); reflexivity.
Qed.

Lemma ledger_length_written index st s :
  ledger_length (written index st s) = ledger_length s.
Proof. unfold ledger_length, written; simpl. now rewrite set_status_length. Qed.

Lemma settled_in_written k index st s :
  k <> index -> settled_in s k -> settled_in (written index st s) k.
Proof.
  intros Hne [(t & st' & Hst & Hin)|(Hno & c & Hc & Hid)].
  - left. exists t, st'. split; [exact Hst|]. simpl. now right.
  - right. split.
    + intros w [<-|Hw]; simpl; [congruence|now apply Hno].
    + exists c. split; [|exact Hid].
      unfold written; simpl. now rewrite lookup_set_status_other.
Qed.

Lemma settled_in_same s s' k :
  history s' = history s -> connections s' = connections s ->
  settled_in s k -> settled_in s' k.
Proof. unfold settled_in. intros -> ->. auto. Qed.

Lemma settled_in_recorded index st s :
  terminal st -> settled_in (written index st s) index.
Proof. intro Hst. left. exists (now s), st. split; [exact Hst|]. now left. Qed.

Lemma spaced_cons t index st h :
  spaced h ->
  (forall w, In w h -> w_index w <= index) ->
  (forall w, In w h -> w_index w < index -> w_time w + 500 <= t) ->
  spaced (mkWrite t index st :: h).
Proof.
  intros Hsp Hle Hbefore w w' [<-|Hw] [<-|Hw'] Hlt; simpl in *.
  - lia.
  - specialize (Hle w' Hw'). lia.
  - now apply Hbefore.
  - now apply Hsp.
Qed.

Lemma no_connecting_written index st s :
  st <> connecting ->
  (forall k, status_at k s = Some connecting -> k = index) ->
  no_connecting (written index st s).
Proof.
  intros Hst Honly k. rewrite status_at_written.
  destruct (Z.eqb_spec k index) as [->|Hne].
  - destruct (status_at index s); simpl; congruence.
  - intro H. apply Honly in H. contradiction.
Qed.

Lemma in_range_lookup s :
  in_range s -> exists c, lookup (currentIndex s) (connections s) = Some c.
Proof.
  unfold in_range, ledger_length. intro H.
  destruct (lookup (currentIndex s) (connections s)) as [c|] eqn:E; [eauto|].
  apply lookup_None_range in E. lia.
Qed.

(** Field by field, what the elementary state changes do. *)
Section Fields.

Variables (s : HookState) (index v : Z) (st : Status) (t : Task) (k : Caller)
  (tid : nat) (p : Props) (ts : list (nat * Task)).

Lemma connections_written :
  connections (written index st s)
  = set_status index st (connections s).
Proof. reflexivity. Qed.

Lemma currentIndex_written : currentIndex (written index st s) = currentIndex s.
Proof. reflexivity. Qed.

Lemma allComplete_written : allComplete (written index st s) = allComplete s.
Proof. reflexivity. Qed.

Lemma props_written : props (written index st s) = props s.
Proof. reflexivity. Qed.

Lemma pendingTasks_written : pendingTasks (written index st s) = pendingTasks s.
Proof. reflexivity. Qed.

Lemma nextTask_written : nextTask (written index st s) = nextTask s.
Proof. reflexivity. Qed.

Lemma now_written : now (written index st s) = now s.
Proof. reflexivity. Qed.

Lemma history_written :
  history (written index st s)
  = mkWrite (now s) index st :: history s.
Proof. reflexivity. Qed.

Lemma connections_parked : connections (parked t s) = connections s.
Proof. reflexivity. Qed.

Lemma currentIndex_parked : currentIndex (parked t s) = currentIndex s.
Proof. reflexivity. Qed.

Lemma allComplete_parked : allComplete (parked t s) = allComplete s.
Proof. reflexivity. Qed.

Lemma props_parked : props (parked t s) = props s.
Proof. reflexivity. Qed.

Lemma pendingTasks_parked :
  pendingTasks (parked t s)
  = pendingTasks s ++ [(nextTask s, t)].
Proof. reflexivity. Qed.

Lemma nextTask_parked : nextTask (parked t s) = S (nextTask s).
Proof. reflexivity. Qed.

Lemma now_parked : now (parked t s) = now s.
Proof. reflexivity. Qed.

Lemma history_parked : history (parked t s) = history s.
Proof. reflexivity. Qed.

Lemma connections_taken : connections (taken tid s) = connections s.
Proof. reflexivity. Qed.

Lemma currentIndex_taken : currentIndex (taken tid s) = currentIndex s.
Proof. reflexivity. Qed.

Lemma allComplete_taken : allComplete (taken tid s) = allComplete s.
Proof. reflexivity. Qed.

Lemma props_taken : props (taken tid s) = props s.
Proof. reflexivity. Qed.

Lemma pendingTasks_taken :
  pendingTasks (taken tid s)
  = remove_task tid (pendingTasks s).
Proof. reflexivity. Qed.

Lemma nextTask_taken : nextTask (taken tid s) = nextTask s.
Proof. reflexivity. Qed.

Lemma now_taken : now (taken tid s) = now s.
Proof. reflexivity. Qed.

Lemma history_taken : history (taken tid s) = history s.
Proof. reflexivity. Qed.

Lemma props_resumed : props (resumed k s) = props s.
Proof. now destruct k. Qed.

Lemma now_resumed : now (resumed k s) = now s.
Proof. now destruct k. Qed.

Lemma history_resumed : history (resumed k s) = history s.
Proof. now destruct k. Qed.

End Fields.

Lemma status_at_parked k t s : status_at k (parked t s) = status_at k s.
Proof. reflexivity. Qed.

Lemma status_at_taken k tid s : status_at k (taken tid s) = status_at k s.
Proof. reflexivity. Qed.

Lemma status_at_resumed i k s : status_at i (resumed k s) = status_at i s.
Proof. now destruct k. Qed.

Lemma ledger_length_parked t s : ledger_length (parked t s) = ledger_length s.
Proof. reflexivity. Qed.

Lemma ledger_length_taken tid s : ledger_length (taken tid s) = ledger_length s.
Proof. reflexivity. Qed.

Lemma ledger_length_resumed k s : ledger_length (resumed k s) = ledger_length s.
Proof. now destruct k. Qed.

Lemma pendingTasks_resumed i len s :
  pendingTasks (resumed (FromSequencer i len) s)
  = pendingTasks s ++ [(nextTask s, SettleTimer (now s + 500) (next_action i len))].
Proof. reflexivity. Qed.

Create Rewrite HintDb fields.

#[local] Hint Rewrite status_at_parked status_at_taken status_at_resumed
  ledger_length_written ledger_length_parked ledger_length_taken
  ledger_length_resumed pendingTasks_resumed : fields.

#[local] Hint Rewrite connections_written connections_parked connections_taken
  currentIndex_written currentIndex_parked currentIndex_taken
  allComplete_written allComplete_parked allComplete_taken props_written
  props_parked props_taken pendingTasks_written pendingTasks_parked
  pendingTasks_taken nextTask_written nextTask_parked nextTask_taken
  now_written now_parked now_taken history_written history_parked
  history_taken connections_resumed currentIndex_resumed allComplete_resumed
  props_resumed now_resumed history_resumed : fields.

Ltac fields := autorewrite with fields in *.

Lemma sequencer_starts rand s s' :
  sequencer_result rand s s' ->
  pendingTasks s = [] -> in_range s -> no_connecting s ->
  (forall w, In w (history s) -> w_time w <= now s) ->
  spaced (history s) ->
  (forall w, In w (history s) ->
             0 <= w_index w < currentIndex s /\ w_time w + 500 <= now s) ->
  (forall k, 0 <= k < currentIndex s -> settled_in s k) ->
  sequenced s'.
Proof.
  intros Hres Hts Hrange Hnc Hpast Hsp Hold Hsettled.
  unfold sequencer_result in Hres.
  assert (Hcond : (0 <=? currentIndex s) && (currentIndex s <? ledger_length s) = true).
  { unfold in_range in Hrange. apply andb_true_intro.
    split; [apply Z.leb_le|apply Z.ltb_lt]; lia. }
  rewrite Hcond in Hres. clear Hcond.
  assert (Hsp' : forall st, spaced (mkWrite (now s) (currentIndex s) st :: history s)).
  { intro st. apply spaced_cons; [exact Hsp| |].
    - intros w Hw. apply Hold in Hw. lia.
    - intros w Hw _. apply Hold in Hw. lia. }
  assert (Honly : forall k, status_at k (written (currentIndex s) connecting s)
                            = Some connecting -> k = currentIndex s).
  { intros k Hk. rewrite status_at_written in Hk.
    destruct (Z.eqb_spec k (currentIndex s)); [assumption|]. now apply Hnc in Hk. }
  assert (Hkeep : forall st k, 0 <= k < currentIndex s ->
                               settled_in (written (currentIndex s) st s) k).
  { intros st k Hk. apply settled_in_written; [lia|]. now apply Hsettled. }
  assert (Hr : forall st, in_range (written (currentIndex s) st s)).
  { intro st. unfold in_range. now fields. }
  unfold in_range in Hrange.
  inversion Hres as [Hskip|c f Hc Hid Hf Hcall|c f p Hc Hid Hf Hcall|c Hc Hid Hf];
    subst s'.
  - (* skipped at the guard *)
    destruct (@in_range_lookup s Hrange) as (c & Hc). rewrite Hc in Hskip.
    constructor; fields.
    + exact Hpast.
    + exact Hsp.
    + intros w Hw. apply Hold in Hw. lia.
    + apply ph_settling with (tid := nextTask s) (due := now s + 500);
        unfold in_range, no_connecting; fields.
      * now rewrite Hts.
      * exact Hrange.
      * exact Hnc.
      * intros w Hw. apply Hpast in Hw. lia.
      * intros k Hk. apply settled_in_same with (s := s); fields; auto.
        destruct (Z.eq_dec k (currentIndex s)) as [->|Hne].
        -- right. split; [|eauto]. intros w Hw. apply Hold in Hw. lia.
        -- apply Hsettled. lia.
  - (* the Connector threw *)
    constructor; fields.
    + intros w [<-|[<-|Hw]]; simpl; try lia. now apply Hpast.
    + apply spaced_cons; [apply Hsp'| |].
      * intros w [<-|Hw]; simpl; [lia|]. apply Hold in Hw. lia.
      * intros w [<-|Hw] Hlt; simpl in *; [lia|]. apply Hold in Hw. lia.
    + intros w [<-|[<-|Hw]]; simpl; try lia. apply Hold in Hw. lia.
    + apply ph_settling with (tid := nextTask s) (due := now s + 500);
        unfold in_range; fields.
      * now rewrite Hts.
      * exact Hrange.
      * intro k. fields. revert k. apply no_connecting_written; [discriminate|].
        exact Honly.
      * intros w [<-|[<-|Hw]]; simpl; try lia. apply Hpast in Hw. lia.
      * intros k Hk.
        apply settled_in_same
          with (s := written (currentIndex s) error (written (currentIndex s) connecting s));
          fields; auto.
        destruct (Z.eq_dec k (currentIndex s)) as [->|Hne].
        -- apply settled_in_recorded. now right.
        -- apply settled_in_written; [exact Hne|]. apply Hkeep. lia.
  - (* awaiting the promise *)
    constructor; fields.
    + intros w [<-|Hw]; simpl; [lia|now apply Hpast].
    + apply Hsp'.
    + intros w [<-|Hw]; simpl; [lia|]. apply Hold in Hw. lia.
    + apply ph_attempting with (tid := nextTask s) (t0 := now s)
        (t := AwaitConnector (currentIndex s) p
                (FromSequencer (currentIndex s) (ledger_length s)));
        unfold in_range, sequencer_attempt; fields.
      * now rewrite Hts.
      * exact Hrange.
      * split; reflexivity.
      * exact Honly.
      * now left.
      * intros k Hk.
        apply settled_in_same with (s := written (currentIndex s) connecting s);
          fields; auto.
  - (* the fallback timer *)
    constructor; fields.
    + intros w [<-|Hw]; simpl; [lia|now apply Hpast].
    + apply Hsp'.
    + intros w [<-|Hw]; simpl; [lia|]. apply Hold in Hw. lia.
    + apply ph_attempting with (tid := nextTask s) (t0 := now s)
        (t := MockDelay (currentIndex s) (mock_delay rand)
                (now s + delay_floor (mock_delay rand))
                (FromSequencer (currentIndex s) (ledger_length s)));
        unfold in_range, sequencer_attempt; fields.
      * now rewrite Hts.
      * exact Hrange.
      * split; reflexivity.
      * exact Honly.
      * now left.
      * intros k Hk.
        apply settled_in_same with (s := written (currentIndex s) connecting s);
          fields; auto.
Qed.

Lemma phase_same s s' :
  connections s' = connections s -> currentIndex s' = currentIndex s ->
  pendingTasks s' = pendingTasks s -> history s' = history s ->
  phase s -> phase s'.
Proof.
  intros Hl Hci Hts Hh.
  assert (Hst : forall k, status_at k s' = status_at k s)
    by (intro k; unfold status_at; now rewrite Hl).
  assert (Hlen : ledger_length s' = ledger_length s)
    by (unfold ledger_length; now rewrite Hl).
  assert (Hset : forall k, settled_in s k -> settled_in s' k)
    by (intros k; now apply settled_in_same).
  assert (Hnc : no_connecting s -> no_connecting s')
    by (intros H k; rewrite Hst; apply H).
  assert (Hr : in_range s -> in_range s')
    by (unfold in_range; now rewrite Hci, Hlen).
  intros [Hi Ht Hh0 Hn|tid t t0 Ht Hrange Hatt Honly Hw Hsettled
          |tid due Ht Hrange Hn Hdue Hsettled|Ht Hrange Hn Hsettled].
  - apply ph_idle; try congruence; auto.
  - apply ph_attempting with (tid := tid) (t := t) (t0 := t0); auto; try congruence.
    + destruct t; simpl in *; rewrite ?Hci, ?Hlen; auto.
    + intros k. rewrite Hst, Hci. apply Honly.
    + intros k. rewrite Hci. auto.
  - apply ph_settling with (tid := tid) (due := due); auto; try congruence.
    + intros w. rewrite Hh. apply Hdue.
    + intros k. rewrite Hci. auto.
  - apply ph_done; auto; try congruence. intros k. rewrite Hci. auto.
Qed.

Lemma sequenced_same s s' :
  connections s' = connections s -> currentIndex s' = currentIndex s ->
  pendingTasks s' = pendingTasks s -> history s' = history s ->
  now s <= now s' ->
  sequenced s -> sequenced s'.
Proof.
  intros Hl Hci Hts Hh Hnow [Hpast Hsp Hbound Hph].
  constructor; rewrite ?Hh, ?Hci; auto.
  - intros w Hw. apply Hpast in Hw. lia.
  - now apply (@phase_same s s').
Qed.

Lemma resume_unknown rand tid s :
  find_task tid (pendingTasks s) = None ->
  step rand (Resume tid) s = (Normal tt, s).
Proof. intro H. simpl. unfold resume, bind, get. now rewrite H. Qed.

Lemma resume_timer_early rand tid s due a :
  find_task tid (pendingTasks s) = Some (SettleTimer due a) ->
  now s < due ->
  step rand (Resume tid) s = (Normal tt, s).
Proof.
  intros H Hlt. simpl. unfold resume, bind, get. rewrite H.
  destruct (Z.leb_spec due (now s)); [lia|reflexivity].
Qed.

Lemma find_task_single tid tid0 t t' :
  find_task tid [(tid0, t)] = Some t' -> tid0 = tid /\ t' = t.
Proof.
  simpl. destruct (Nat.eqb_spec tid0 tid); [|discriminate].
  intros [= ->]. auto.
Qed.

Lemma remove_task_single tid t : remove_task tid [(tid, t)] = [].
Proof. simpl. now rewrite Nat.eqb_refl. Qed.

Lemma terminal_settled_status p : terminal (settled_status p).
Proof. destruct p as [[|]|]; simpl; [left|right|right]; reflexivity. Qed.

Lemma terminal_mock_status rand : terminal (mock_status rand).
Proof. unfold mock_status. destruct (mock_success rand); [left|right]; reflexivity. Qed.

Lemma terminal_not_connecting st : terminal st -> st <> connecting.
Proof. intros [->| ->]; discriminate. Qed.

(** The attempt at [currentIndex] ends: the outcome is written and the
    settle timer is set. *)
Lemma attempt_settles s tid t t0 st :
  sequenced s ->
  pendingTasks s = [(tid, t)] -> in_range s ->
  (forall k, status_at k s = Some connecting -> k = currentIndex s) ->
  In (mkWrite t0 (currentIndex s) connecting) (history s) ->
  (forall k, 0 <= k < currentIndex s -> settled_in s k) ->
  terminal st ->
  sequenced (resumed (FromSequencer (currentIndex s) (ledger_length s))
               (written (currentIndex s) st (taken tid s))).
Proof.
  intros [Hpast Hsp Hbound _] Hts Hrange Honly Hw Hsettled Hst.
  constructor; fields.
  - intros w [<-|Hin]; simpl; [lia|now apply Hpast].
  - apply spaced_cons; [exact Hsp| |].
    + intros w Hin. apply Hbound in Hin. lia.
    + intros w Hin Hlt. pose proof (Hsp w _ Hin Hw Hlt) as H1.
      apply Hpast in Hw. simpl in *. lia.
  - intros w [<-|Hin]; simpl; [unfold in_range in Hrange; lia|now apply Hbound].
  - apply ph_settling with (tid := nextTask s) (due := now s + 500);
      unfold in_range; fields.
    + rewrite Hts, remove_task_single. reflexivity.
    + exact Hrange.
    + intro k. fields. revert k.
      apply no_connecting_written; [now apply terminal_not_connecting|].
      intro k. fields. apply Honly.
    + intros w [<-|Hin]; simpl; [lia|]. apply Hpast in Hin. lia.
    + intros k Hk.
      apply settled_in_same with (s := written (currentIndex s) st (taken tid s));
        fields; auto.
      destruct (Z.eq_dec k (currentIndex s)) as [->|Hne].
      * replace (currentIndex s) with (currentIndex (taken tid s)) at 1 by reflexivity.
        now apply settled_in_recorded.
      * apply settled_in_written; [exact Hne|].
        apply settled_in_same with (s := s); fields; auto. apply Hsettled. lia.
Qed.

(** Starting the run from the idle state. *)
Lemma idle_starts rand s s' :
  sequenced s -> currentIndex s = -1 -> 0 < ledger_length s ->
  sequencer_result rand (with_currentIndex 0 s) s' ->
  sequenced s'.
Proof.
  intros [Hpast Hsp Hbound Hph] Hci Hlen Hres.
  assert (Hidle : pendingTasks s = [] /\ history s = [] /\ no_connecting s).
  { destruct Hph as [_ Ht Hh Hn|? ? ? _ Hr|? ? _ Hr|_ Hr];
      try (unfold in_range in Hr; lia). auto. }
  destruct Hidle as (Hts & Hh & Hnc).
  apply (@sequencer_starts rand (with_currentIndex 0 s) s' Hres); simpl;
    try (rewrite Hh); try easy.
  unfold in_range, ledger_length in *; simpl. lia.
Qed.

Lemma sequenced_step rand e s :
  sequenced s -> ~ is_retry e ->
  exists s', step rand e s = (Normal tt, s') /\ sequenced s'.
Proof.
  intros Hseq Hne.
  destruct e as [p|index credentials|tid|d]; [| now destruct Hne | |].
  - (* a render *)
    destruct (rerender_cases rand p s) as (s' & Hs' & Hres).
    exists s'. split; [exact Hs'|].
    unfold rerender_result in Hres.
    assert (Hp : sequenced (with_props p s))
      by (apply (@sequenced_same s); simpl; auto; lia).
    destruct (Bool.eqb (autoStart p) (autoStart (props s))); [now subst s'|].
    unfold autoStart_result in Hres.
    destruct (autoStart (props (with_props p s))
              && (currentIndex (with_props p s) =? -1)
              && (0 <? ledger_length (with_props p s))) eqn:Hc;
      [|now subst s'].
    apply andb_prop in Hc. destruct Hc as (Hc & Hlen).
    apply andb_prop in Hc. destruct Hc as (_ & Hci).
    apply Z.eqb_eq in Hci. apply Z.ltb_lt in Hlen.
    unfold advance_result in Hres. rewrite Hci in Hres. simpl in Hres.
    apply (@idle_starts rand (with_props p s) s' Hp Hci Hlen Hres).
  - (* a promise settles or a timer fires *)
    destruct (find_task tid (pendingTasks s)) as [t|] eqn:Ht;
      [|exists s; split; [now apply resume_unknown|exact Hseq]].
    pose proof Hseq as [Hpast Hsp Hbound Hph].
    destruct Hph as [_ Hts _ _|tid0 t' t0 Hts Hrange Hatt Honly Hw Hsettled
                    |tid0 due Hts Hrange Hnc Hdue Hsettled|Hts _ _ _];
      try (rewrite Hts in Ht; discriminate).
    + rewrite Hts in Ht. apply find_task_single in Ht. destruct Ht as (-> & ->).
      assert (Hfind : find_task tid (pendingTasks s) = Some t')
        by (rewrite Hts; simpl; now rewrite Nat.eqb_refl).
      destruct t' as [index p k|index dl due k|due a]; simpl in Hatt;
        [| |contradiction]; destruct Hatt as (-> & ->).
      * eexists. split; [eapply resume_await; exact Hfind|].
        eapply attempt_settles; eauto using terminal_settled_status.
      * destruct (Z.le_gt_cases due (now s)) as [Hdue|Hearly];
          [|exists s; split; [eapply resume_mock_early; eauto|exact Hseq]].
        eexists. split; [eapply resume_mock; [exact Hfind|exact Hdue]|].
        eapply attempt_settles; eauto using terminal_mock_status.
    + rewrite Hts in Ht. apply find_task_single in Ht. destruct Ht as (-> & ->).
      assert (Hfind : find_task tid (pendingTasks s)
                      = Some (SettleTimer due (next_action (currentIndex s)
                                                 (ledger_length s))))
        by (rewrite Hts; simpl; now rewrite Nat.eqb_refl).
      destruct (Z.le_gt_cases due (now s)) as [Hle|Hgt];
        [|exists s; split; [eapply resume_timer_early; eauto|exact Hseq]].
      destruct (@resume_timer rand tid s _ _ Hfind Hle) as (s' & Hs' & Hres).
      exists s'. split; [exact Hs'|].
      assert (Htaken : pendingTasks (taken tid s) = [])
        by (fields; rewrite Hts; apply remove_task_single).
      unfold next_action in Hres. unfold in_range in Hrange.
      destruct (Z.ltb_spec (currentIndex s) (ledger_length s - 1)) as [Hlt|Hge].
      * (* advance to the next record *)
        unfold advance_result in Hres. simpl in Hres.
        destruct (Z.eqb_spec (currentIndex s) (currentIndex s + 1)); [lia|].
        apply (@sequencer_starts rand _ s' Hres); simpl.
        -- rewrite Hts. apply remove_task_single.
        -- unfold in_range, ledger_length in *; simpl. lia.
        -- exact Hnc.
        -- exact Hpast.
        -- exact Hsp.
        -- intros w Hin. pose proof (Hbound w Hin). pose proof (Hdue w Hin). lia.
        -- intros k Hk.
           apply settled_in_same with (s := s); auto. apply Hsettled. lia.
      * (* the last record: the run completes *)
        subst s'. constructor; simpl; auto.
        apply ph_done; simpl; auto.
        all: try (rewrite Hts; apply remove_task_single).
        all: try (intros k Hk; apply settled_in_same with (s := s); now auto).
  - (* time passes *)
    simpl. unfold tick. destruct (Z.leb_spec 0 d).
    + eexists. split; [reflexivity|].
      apply (@sequenced_same s); simpl; auto; lia.
    + exists s. split; [reflexivity|exact Hseq].
Qed.

Lemma sequenced_exec evs : forall s,
  sequenced s ->
  Forall (fun re => ~ is_retry (snd re)) evs ->
  exists s', exec evs s = (Normal tt, s') /\ sequenced s'.
Proof.
  induction evs as [|[rand e] evs IH]; intros s Hs Hevs; simpl.
  - exists s. auto.
  - inversion Hevs as [|x l He Hevs']; subst. simpl in He.
    destruct (@sequenced_step rand e s Hs He) as (s1 & Hstep & H1).
    unfold bind. rewrite Hstep. apply IH; assumption.
Qed.

Lemma sequenced_initial p : sequenced (initialState p).
Proof.
  constructor; simpl; try easy.
  apply ph_idle; simpl; auto.
  intros k. unfold status_at; simpl. unfold lookup.
  destruct (k <? 0); [discriminate|].
  rewrite nth_error_map. destruct (nth_error (platformIds p) (Z.to_nat k));
    discriminate.
Qed.

Lemma sequenced_mount rand p :
  exists s, mount rand p = (Normal tt, s) /\ sequenced s.
Proof.
  unfold mount.
  destruct (autoStartEffect_cases rand (initialState p)) as (s & Hs & Hres).
  exists s. split; [exact Hs|].
  pose proof (sequenced_initial p) as H0.
  unfold autoStart_result in Hres.
  destruct (autoStart (props (initialState p))
            && (currentIndex (initialState p) =? -1)
            && (0 <? ledger_length (initialState p))) eqn:Hc; [|now subst s].
  apply andb_prop in Hc. destruct Hc as (_ & Hlen). apply Z.ltb_lt in Hlen.
  unfold advance_result in Hres. simpl in Hres.
  apply (@idle_starts rand (initialState p) s H0 eq_refl Hlen Hres).
Qed.

Lemma sequenced_run rand p evs :
  Forall (fun re => ~ is_retry (snd re)) evs ->
  exists s, run rand p evs = (Normal tt, s) /\ sequenced s.
Proof.
  intro Hevs. destruct (sequenced_mount rand p) as (s0 & Hm & H0).
  unfold run. rewrite Hm. now apply sequenced_exec.
Qed.

(** In a sequenced state at most the record at [currentIndex] is
    [connecting]. *)
Lemma sequenced_one_connecting s k :
  sequenced s -> status_at k s = Some connecting -> k = currentIndex s.
Proof.
  intros [_ _ _ Hph] Hk.
  destruct Hph as [_ _ _ Hn|? ? ? _ _ _ Honly _ _|? ? _ _ Hn _ _|_ _ Hn _];
    try (now apply Hn in Hk). now apply Honly.
Qed.

Lemma sequenced_settled s i j t' :
  sequenced s -> 0 <= i < j ->
  In (mkWrite t' j connecting) (history s) ->
  settled_in s i.
Proof.
  intros [_ _ Hbound Hph] Hij Hw. apply Hbound in Hw. simpl in Hw.
  destruct Hph as [Hci _ _ _|? ? ? _ _ _ _ _ Hs|? ? _ _ _ _ Hs|_ _ _ Hs];
    try (apply Hs; lia).
  lia.
Qed.

(** C6: in an auto-run with no retries, whatever the renders, settlements
    and timers in between, the sequencer attempts records in ledger order and
    one at a time: at no point are two records [connecting]; if attempts are
    started on records [i < j], the outcome of [i] ([success] or [error]) is
    recorded at a time [t] and the attempt on [j] starts no earlier than
    [t + 500]; and every write to a lower index precedes every write to a
    higher index by the settle delay.  (A record between them that never
    got an attempt is one the guard passed over: its [platformId] is empty
    and it was never written.) *)
Theorem sequencer_strict_order (rand : float) (p : Props)
    (evs : list (float * Event)) :
  Forall (fun re => ~ is_retry (snd re)) evs ->
  exists s,
    run rand p evs = (Normal tt, s)
    /\ (forall k1 k2, status_at k1 s = Some connecting ->
                      status_at k2 s = Some connecting -> k1 = k2)
    /\ (forall i j t0 t', i < j ->
          In (mkWrite t0 i connecting) (history s) ->
          In (mkWrite t' j connecting) (history s) ->
          exists t st, terminal st /\ In (mkWrite t i st) (history s)
                       /\ t + 500 <= t')
    /\ (forall w w', In w (history s) -> In w' (history s) ->
          w_index w < w_index w' -> w_time w + 500 <= w_time w')
    /\ (forall i j t', 0 <= i < j ->
          In (mkWrite t' j connecting) (history s) ->
          (exists t st, terminal st /\ In (mkWrite t i st) (history s)
                        /\ t + 500 <= t')
          \/ ((forall w, In w (history s) -> w_index w <> i)
              /\ exists c, lookup i (connections s) = Some c
                           /\ falsy (platformId c) = true)).
Proof.
  intro Hevs. destruct (sequenced_run rand p Hevs) as (s & Hrun & Hseq).
  exists s. split; [exact Hrun|].
  assert (Hsettled : forall i j t', 0 <= i < j ->
            In (mkWrite t' j connecting) (history s) ->
            (exists t st, terminal st /\ In (mkWrite t i st) (history s)
                          /\ t + 500 <= t')
            \/ ((forall w, In w (history s) -> w_index w <> i)
                /\ exists c, lookup i (connections s) = Some c
                             /\ falsy (platformId c) = true)).
  { intros i j t' Hij Hw.
    destruct (@sequenced_settled s i j t' Hseq Hij Hw)
      as [(t & st & Hst & Hin)|Hskip]; [left|right; exact Hskip].
    exists t, st. split; [exact Hst|]. split; [exact Hin|].
    apply (sq_spaced Hseq _ _ Hin Hw). simpl. lia. }
  split; [|split; [|split; [exact (sq_spaced Hseq)|exact Hsettled]]].
  - intros k1 k2 H1 H2.
    rewrite (@sequenced_one_connecting s k1 Hseq H1).
    now rewrite (@sequenced_one_connecting s k2 Hseq H2).
  - intros i j t0 t' Hij Hi Hj.
    assert (H0 : 0 <= i) by (apply (sq_bound Hseq) in Hi; simpl in Hi; lia).
    destruct (Hsettled i j t' (conj H0 Hij) Hj)
      as [(t & st & Hst & Hin & Hgap)|(Hno & _)].
    + exists t, st. repeat split; auto.
    + exfalso. apply (Hno _ Hi). reflexivity.
Qed.

Lemma sequencer_strict_order_witness :
  exists s,
    run 0%float (abc_props (Some (always OSuccess))) full_run = (Normal tt, s)
    /\ (forall k1 k2, status_at k1 s = Some connecting ->
                      status_at k2 s = Some connecting -> k1 = k2)
    /\ (forall w w', In w (history s) -> In w' (history s) ->
          w_index w < w_index w' -> w_time w + 500 <= w_time w').
Proof.
  destruct (@sequencer_strict_order 0%float (abc_props (Some (always OSuccess)))
              full_run)
    as (s & Hrun & Hone & _ & Hspaced & _).
  - repeat constructor; simpl; tauto.
  - exists s. split; [exact Hrun|]. split; [exact Hone|exact Hspaced].
Defined.

(** The writes of the run of [abc_all_success], oldest first. *)
Example abc_history :
  rev (history (snd (run 0%float (abc_props (Some (always OSuccess))) full_run)))
  = [mkWrite 0 0 connecting; mkWrite 0 0 success;
     mkWrite 500 1 connecting; mkWrite 500 1 success;
     mkWrite 1000 2 connecting; mkWrite 1000 2 success].
Proof. vm_compute. reflexivity. Qed.

(** ** Binary64 arithmetic of the fallback draws (C9) *)

Unset Implicit Arguments.

(** ** Binary64 rounding, from the specification of the primitive floats *)

Lemma digits2_pos_size m : digits2_pos m = Pos.size m.
Proof. induction m; simpl; congruence. Qed.

Lemma digits2_bounds m :
  2 ^ (Zpos (digits2_pos m) - 1) <= Zpos m < 2 ^ Zpos (digits2_pos m).
Proof.
  rewrite digits2_pos_size. split.
  - pose proof (Pos.size_le m) as H.
    assert (H' : 2 ^ Zpos (Pos.size m) <= 2 * Zpos m).
    { change (2 * Zpos m) with (Zpos m~0).
      rewrite <- Pos2Z.inj_pow. now apply Pos2Z.pos_le_pos. }
    replace (Zpos (Pos.size m)) with (Zpos (Pos.size m) - 1 + 1) in H' by lia.
    rewrite Z.pow_add_r in H' by lia. lia.
  - pose proof (Pos.size_gt m) as H.
    rewrite <- Pos2Z.inj_pow. now apply Pos2Z.pos_lt_pos.
Qed.

(** One step of the right shift, on a non-negative mantissa. *)
Lemma shr_1_spec m r s :
  0 <= m ->
  shr_1 (Build_shr_record m r s)
  = Build_shr_record (m / 2) (Z.odd m) (r || s).
Proof.
  intro Hm. destruct m as [|p|p]; [reflexivity| |lia].
  destruct p as [p|p|]; simpl; try reflexivity.
  - f_equal. rewrite Pos2Z.inj_xI.
    apply Z.div_unique with 1; lia.
  - f_equal. rewrite Pos2Z.inj_xO.
    apply Z.div_unique with 0; lia.
Qed.

Lemma iter_pos_nat {A} (f : A -> A) n x :
  iter_pos f n x = Nat.iter (Pos.to_nat n) f x.
Proof.
  revert x. induction n as [n IH|n IH|]; intro x; cbn [iter_pos].
  - rewrite !IH, Pos2Nat.inj_xI, <- Nat.iter_add.
    replace (S (2 * Pos.to_nat n)) with (S (Pos.to_nat n + Pos.to_nat n)) by lia.
    now rewrite Nat.iter_succ_r.
  - rewrite !IH, Pos2Nat.inj_xO, <- Nat.iter_add. f_equal. lia.
  - reflexivity.
Qed.

Lemma shifted_0 m : 0 <= m -> shifted m 0 (Build_shr_record m false false).
Proof.
  intro Hm. split; [exact Hm|]. exists 0. cbn [shr_m shr_r shr_s Z.b2z].
  change (2 ^ (0 + 1)) with 2. change (2 ^ 0) with 1.
  repeat split; try lia; try discriminate.
Qed.

Lemma shifted_step m k mrs :
  0 <= k -> shifted m k mrs -> shifted m (k + 1) (shr_1 mrs).
Proof.
  intros Hk (Hq & low & Heq & Hlow & Hs).
  destruct mrs as [q r s]. cbn [shr_m shr_r shr_s] in *.
  rewrite shr_1_spec by exact Hq.
  split; cbn [shr_m shr_r shr_s].
  - apply Z.div_pos; lia.
  - exists (Z.b2z r * 2 ^ k + low). 
    assert (Hk1 : 2 ^ (k + 1) = 2 * 2 ^ k) by (rewrite Z.pow_add_r; lia).
    assert (Hk2 : 2 ^ (k + 1 + 1) = 4 * 2 ^ k) by (rewrite !Z.pow_add_r; lia).
    assert (Hpos : 0 < 2 ^ k) by (apply Z.pow_pos_nonneg; lia).
    assert (Hq2 : q = 2 * (q / 2) + Z.b2z (Z.odd q)).
    { rewrite (Z.div_mod q 2) at 1 by lia. rewrite Zmod_odd.
      destruct (Z.odd q); simpl; lia. }
    repeat split.
    + rewrite Hk1, Hk2. rewrite Heq, Hk1. 
      set (h := q / 2) in *. set (o := Z.b2z (Z.odd q)) in *. nia.
    + destruct r; cbn [Z.b2z]; lia.
    + rewrite Hk1. destruct r; cbn [Z.b2z]; lia.
    + intro H. apply orb_true_iff in H.
      destruct H as [->|H]; cbn [Z.b2z]; [lia|].
      apply Hs in H. destruct r; cbn [Z.b2z]; lia.
    + intro H. apply orb_true_iff. destruct r; [now left|right].
      apply Hs. cbn [Z.b2z] in H. lia.
Qed.

Lemma shifted_iter m n :
  0 <= m ->
  shifted m (Z.of_nat n) (Nat.iter n shr_1 (Build_shr_record m false false)).
Proof.
  intro Hm. induction n as [|n IH].
  - now apply shifted_0.
  - rewrite Nat2Z.inj_succ. cbn [Nat.iter nat_rect]. unfold Z.succ.
    apply shifted_step; [lia|exact IH].
Qed.

(** [shr] by [n >= 0] bits. *)
Lemma shr_spec m e n :
  0 <= m -> 0 <= n ->
  exists mrs, shr (Build_shr_record m false false) e n = (mrs, e + n)
              /\ shifted m n mrs.
Proof.
  intros Hm Hn. destruct n as [|p|p]; [| |lia].
  - exists (Build_shr_record m false false). rewrite Z.add_0_r.
    split; [reflexivity|now apply shifted_0].
  - eexists. split; [reflexivity|]. rewrite iter_pos_nat.
    rewrite <- (positive_nat_Z p). now apply shifted_iter.
Qed.

(** Rounding to nearest even moves the quotient up by at most one, and only
    if something was shifted out. *)
Lemma round_nearest_even_spec m k mrs :
  0 <= k -> shifted m k mrs ->
  let q := round_nearest_even (shr_m mrs) (loc_of_shr_record mrs) in
  0 <= q /\ q * 2 ^ k <= m + (2 ^ k - 1) /\ m < (q + 1) * 2 ^ k
  /\ shr_m mrs <= q <= shr_m mrs + 1.
Proof.
  intros Hk (Hq & low & Heq & Hlow & Hs).
  destruct mrs as [q r s]. cbn [shr_m shr_r shr_s] in *.
  assert (Hk1 : 2 ^ (k + 1) = 2 * 2 ^ k) by (rewrite Z.pow_add_r; lia).
  assert (Hpos : 0 < 2 ^ k) by (apply Z.pow_pos_nonneg; lia).
  rewrite Hk1 in Heq.
  destruct r, s; cbn [loc_of_shr_record round_nearest_even Z.b2z] in *.
  - assert (0 < low) by (now apply Hs). nia.
  - assert (~ 0 < low) by (intro H; apply Hs in H; discriminate).
    destruct (Z.even q); nia.
  - assert (0 < low) by (now apply Hs). nia.
  - assert (~ 0 < low) by (intro H; apply Hs in H; discriminate). nia.
Qed.

(** The exponent of the binary64 format for a number of magnitude [2^e]. *)
Lemma fexp_eq e : fexp prec emax e = Z.max (e - 53) (-1074).
Proof. reflexivity. Qed.

Lemma canonical_mantissa_iff m e :
  canonical_mantissa prec emax m e = true <-> canonical m e.
Proof. unfold canonical_mantissa, canonical. apply Z.eqb_eq. Qed.

Lemma canonical_bounds m e :
  canonical m e -> -1074 <= e /\ Zpos m < 2 ^ 53 /\ (e = -1074 \/ 2 ^ 52 <= Zpos m).
Proof.
  unfold canonical. rewrite fexp_eq. intro H.
  pose proof (digits2_bounds m) as Hd.
  set (d := Zpos (digits2_pos m)) in *.
  assert (Hd53 : d <= 53) by lia.
  split; [lia|]. split.
  - apply Z.lt_le_trans with (2 ^ d); [lia|].
    apply Z.pow_le_mono_r; lia.
  - destruct (Z.eq_dec e (-1074)) as [|Hne]; [now left|right].
    assert (d = 53) by lia.
    replace 52 with (d - 1) by lia. lia.
Qed.

Lemma canonical_intro m e :
  -1074 <= e -> Zpos m < 2 ^ 53 -> (e = -1074 \/ 2 ^ 52 <= Zpos m) ->
  canonical m e.
Proof.
  intros He Hlt Hnorm. unfold canonical. rewrite fexp_eq.
  pose proof (digits2_bounds m) as Hd.
  set (d := Zpos (digits2_pos m)) in *.
  assert (Hd53 : d <= 53).
  { destruct (Z.le_gt_cases d 53) as [|Hgt]; [assumption|exfalso].
    assert (2 ^ 53 <= 2 ^ (d - 1)) by (apply Z.pow_le_mono_r; lia). lia. }
  destruct Hnorm as [->|Hnorm]; [lia|].
  assert (53 <= d).
  { destruct (Z.le_gt_cases 53 d) as [|Hlt']; [assumption|exfalso].
    assert (2 ^ d <= 2 ^ 52) by (apply Z.pow_le_mono_r; lia). lia. }
  lia.
Qed.

Lemma finish_zero e : -1074 <= e -> finish 0 e = S754_zero false.
Proof.
  intro He. unfold finish, shr_fexp. cbn [Zdigits2 shr_record_of_loc].
  rewrite Z.add_0_l, fexp_eq.
  destruct (Z.max (e - 53) (-1074) - e) eqn:E; try reflexivity. lia.
Qed.

Lemma finish_fits m e :
  canonical m e ->
  finish (Zpos m) e
  = if e <=? emax - prec then S754_finite false m e else S754_infinity false.
Proof.
  intro Hc. unfold finish, shr_fexp. cbn [Zdigits2 shr_record_of_loc].
  rewrite Hc, Z.sub_diag. reflexivity.
Qed.

Lemma finish_carry e :
  -1074 <= e ->
  finish (2 ^ 53) e
  = if e + 1 <=? emax - prec then S754_finite false (2 ^ 52) (e + 1)
    else S754_infinity false.
Proof.
  intro He. unfold finish, shr_fexp.
  change (Zdigits2 (2 ^ 53)) with 54. rewrite fexp_eq.
  replace (Z.max (54 + e - 53) (-1074) - e) with 1 by lia.
  reflexivity.
Qed.

(** [binary_round_aux] on an exact positive input whose exponent is at most
    the format's: the mantissa is shifted right by [n] bits, moved up by at
    most one, and packed. *)
Lemma binary_round_aux_core (mx : positive) (ex : Z) :
  let e' := fexp prec emax (Zpos (digits2_pos mx) + ex) in
  let n := e' - ex in
  0 <= n ->
  exists q,
    binary_round_aux prec emax false (Zpos mx) ex loc_Exact = finish q e'
    /\ 0 <= q
    /\ q * 2 ^ n <= Zpos mx + (2 ^ n - 1)
    /\ Zpos mx < (q + 1) * 2 ^ n.
Proof.
  intros e' n Hn.
  destruct (@shr_spec (Zpos mx) ex n) as (mrs & Hshr & Hsh); [lia|exact Hn|].
  pose proof (round_nearest_even_spec (Zpos mx) n mrs Hn Hsh) as Hr.
  cbv zeta in Hr. destruct Hr as (Hq0 & Hup & Hdown & _).
  exists (round_nearest_even (shr_m mrs) (loc_of_shr_record mrs)).
  split; [|auto].
  unfold binary_round_aux, finish.
  assert (E : shr_fexp prec emax (Zpos mx) ex loc_Exact = (mrs, e')).
  { unfold shr_fexp. cbn [Zdigits2 shr_record_of_loc]. fold e'. fold n.
    rewrite Hshr. f_equal. unfold n. lia. }
  rewrite E. reflexivity.
Qed.

(** The quotient of the shift fits 53 bits, or carries into the 54th. *)
Lemma binary_round_aux_range (mx : positive) (ex q : Z) :
  let e' := fexp prec emax (Zpos (digits2_pos mx) + ex) in
  let n := e' - ex in
  0 <= n -> 0 <= q ->
  q * 2 ^ n <= Zpos mx + (2 ^ n - 1) ->
  Zpos mx < (q + 1) * 2 ^ n ->
  -1074 <= e' /\ q <= 2 ^ 53 /\ (e' = -1074 \/ 2 ^ 52 <= q).
Proof.
  intros e' n Hn Hq Hup Hdown.
  pose proof (digits2_bounds mx) as Hd.
  set (d := Zpos (digits2_pos mx)) in *.
  assert (He' : e' = Z.max (d + ex - 53) (-1074)) by (unfold e'; apply fexp_eq).
  assert (Hpos : 0 < 2 ^ n) by (apply Z.pow_pos_nonneg; lia).
  split; [lia|]. split.
  - (* mx < 2^d <= 2^(53 + n) *)
    assert (H1 : 2 ^ d <= 2 ^ (53 + n)) by (apply Z.pow_le_mono_r; lia).
    rewrite Z.pow_add_r in H1 by lia. nia.
  - destruct (Z.eq_dec e' (-1074)) as [|Hne]; [now left|right].
    assert (Hnd : d - 1 = 52 + n) by lia.
    rewrite Hnd, Z.pow_add_r in Hd by lia. nia.
Qed.

Lemma scaled_shift m e k :
  -1200 <= e -> 0 <= k -> scaled m (e + k) = scaled (m * 2 ^ k) e.
Proof.
  intros He Hk. unfold scaled.
  replace (e + k + 1200) with (k + (e + 1200)) by lia.
  rewrite Z.pow_add_r by lia. ring.
Qed.

Lemma scaled_pos m e : 0 < m -> -1200 <= e -> 0 < scaled m e.
Proof.
  intros Hm He. unfold scaled. apply Z.mul_pos_pos; [exact Hm|].
  apply Z.pow_pos_nonneg; lia.
Qed.

Lemma scaled_le_mono m m' e : -1200 <= e -> m <= m' -> scaled m e <= scaled m' e.
Proof.
  intros He Hm. unfold scaled. apply Z.mul_le_mono_nonneg_r; [|exact Hm].
  apply Z.pow_nonneg; lia.
Qed.

Lemma scaled_le_cancel m m' e : -1200 <= e -> scaled m e <= scaled m' e -> m <= m'.
Proof.
  intros He H. unfold scaled in H.
  apply Z.mul_le_mono_pos_r in H; [exact H|]. apply Z.pow_pos_nonneg; lia.
Qed.

(** A canonical float with the larger exponent is the larger float. *)
Lemma canonical_exponent_lt m1 e1 m2 e2 :
  canonical m1 e1 -> canonical m2 e2 -> e1 < e2 ->
  scaled (Zpos m1) e1 < scaled (Zpos m2) e2.
Proof.
  intros H1 H2 Hlt.
  apply canonical_bounds in H1. apply canonical_bounds in H2.
  destruct H1 as (He1 & Hm1 & _). destruct H2 as (He2 & _ & [->|Hm2]); [lia|].
  replace e2 with (e1 + (e2 - e1)) by lia. rewrite scaled_shift by lia.
  apply Z.mul_lt_mono_pos_r; [apply Z.pow_pos_nonneg; lia|].
  assert (2 <= 2 ^ (e2 - e1)).
  { change 2 with (2 ^ 1) at 1. apply Z.pow_le_mono_r; lia. }
  change (2 ^ 53) with (2 * 2 ^ 52) in Hm1. nia.
Qed.

Lemma SFleb_intro m1 e1 m2 e2 :
  canonical m1 e1 -> canonical m2 e2 ->
  scaled (Zpos m1) e1 <= scaled (Zpos m2) e2 ->
  SFleb (S754_finite false m1 e1) (S754_finite false m2 e2) = true.
Proof.
  intros H1 H2 Hle. unfold SFleb, SFcompare.
  destruct (Z.compare_spec e1 e2) as [->|Hlt|Hgt]; [|reflexivity|].
  - apply scaled_le_cancel in Hle;
      [|apply canonical_bounds in H2; lia].
    change (Pos.compare_cont Eq m1 m2) with (Pos.compare m1 m2).
    destruct (Pos.compare_spec m1 m2); try reflexivity. lia.
  - pose proof (canonical_exponent_lt m2 e2 m1 e1 H2 H1 Hgt). lia.
Qed.

Lemma SFltb_elim m1 e1 m2 e2 :
  canonical m1 e1 -> canonical m2 e2 ->
  SFltb (S754_finite false m1 e1) (S754_finite false m2 e2) = true ->
  scaled (Zpos m1) e1 < scaled (Zpos m2) e2.
Proof.
  intros H1 H2. unfold SFltb, SFcompare.
  destruct (Z.compare_spec e1 e2) as [->|Hlt|Hgt]; try discriminate.
  - change (Pos.compare_cont Eq m1 m2) with (Pos.compare m1 m2).
    destruct (Pos.compare_spec m1 m2); try discriminate. intros _.
    unfold scaled. apply Z.mul_lt_mono_pos_r; [|lia].
    apply Z.pow_pos_nonneg; [lia|]. apply canonical_bounds in H2. lia.
  - intros _. now apply canonical_exponent_lt.
Qed.

Lemma SFleb_elim m1 e1 m2 e2 :
  canonical m1 e1 -> canonical m2 e2 ->
  SFleb (S754_finite false m1 e1) (S754_finite false m2 e2) = true ->
  scaled (Zpos m1) e1 <= scaled (Zpos m2) e2.
Proof.
  intros H1 H2. unfold SFleb, SFcompare.
  destruct (Z.compare_spec e1 e2) as [->|Hlt|Hgt]; try discriminate.
  - change (Pos.compare_cont Eq m1 m2) with (Pos.compare m1 m2).
    destruct (Pos.compare_spec m1 m2); try discriminate; intros _.
    + subst. apply Z.le_refl.
    + apply scaled_le_mono; [apply canonical_bounds in H2|]; lia.
  - intros _. apply Z.lt_le_incl. now apply canonical_exponent_lt.
Qed.

Lemma binary_round_aux_rounded (mx : positive) (ex : Z) :
  let e' := fexp prec emax (Zpos (digits2_pos mx) + ex) in
  let n := e' - ex in
  0 <= n ->
  exists q,
    rounded q e' (binary_round_aux prec emax false (Zpos mx) ex loc_Exact)
    /\ 0 <= q <= 2 ^ 53
    /\ -1074 <= e'
    /\ (e' = -1074 \/ 2 ^ 52 <= q)
    /\ q * 2 ^ n <= Zpos mx + (2 ^ n - 1)
    /\ Zpos mx < (q + 1) * 2 ^ n.
Proof.
  intros e' n Hn.
  destruct (binary_round_aux_core mx ex Hn) as (q & Hr & Hq & Hup & Hdown).
  fold e' in Hr. fold n in Hup, Hdown.
  destruct (binary_round_aux_range mx ex q Hn Hq Hup Hdown) as (He' & Hq53 & Hnorm).
  fold e' in He', Hnorm.
  exists q. repeat (split; [first [assumption|lia]|]). split; [|auto].
  rewrite Hr.
  destruct (Z.eq_dec q 0) as [->|Hq0].
  - rewrite finish_zero by exact He'. now apply rounded_zero.
  - destruct (Z.eq_dec q (2 ^ 53)) as [->|Hq1].
    + rewrite finish_carry by exact He'. now apply rounded_carry.
    + destruct q as [|m|m]; try lia.
      assert (Hc : canonical m e') by (apply canonical_intro; lia).
      rewrite (finish_fits m e' Hc). now apply rounded_fits.
Qed.

Lemma scaled_exp_mono m e e' :
  0 <= m -> -1200 <= e <= e' -> scaled m e <= scaled m e'.
Proof.
  intros Hm He. unfold scaled. apply Z.mul_le_mono_nonneg_l; [exact Hm|].
  apply Z.pow_le_mono_r; lia.
Qed.

(** The exponent the format gives a number is monotone in the number. *)
Lemma format_exponent_mono mx ex mb eb :
  -1200 <= ex -> canonical mb eb ->
  scaled (Zpos mx) ex <= scaled (Zpos mb) eb ->
  fexp prec emax (Zpos (digits2_pos mx) + ex) <= eb.
Proof.
  intros Hex Hb Hle.
  pose proof (canonical_bounds mb eb Hb) as (Heb & _ & _).
  unfold canonical in Hb. rewrite fexp_eq in *.
  pose proof (digits2_bounds mx) as Hd. pose proof (digits2_bounds mb) as Hdb.
  assert (Hdpos : 0 < Zpos (digits2_pos mx)) by lia.
  assert (Hdbpos : 0 < Zpos (digits2_pos mb)) by lia.
  set (d := Zpos (digits2_pos mx)) in *. set (db := Zpos (digits2_pos mb)) in *.
  destruct (Z.le_gt_cases (d + ex) (db + eb)) as [|Hgt]; [lia|exfalso].
  assert (H1 : scaled (Zpos mb) eb < 2 ^ (db + eb + 1200)).
  { unfold scaled. replace (db + eb + 1200) with (db + (eb + 1200)) by lia.
    rewrite (Z.pow_add_r 2 db (eb + 1200)) by lia.
    apply Z.mul_lt_mono_pos_r; [apply Z.pow_pos_nonneg; lia|lia]. }
  assert (H2 : 2 ^ (d - 1 + ex + 1200) <= scaled (Zpos mx) ex).
  { unfold scaled. replace (d - 1 + ex + 1200) with (d - 1 + (ex + 1200)) by lia.
    rewrite (Z.pow_add_r 2 (d - 1) (ex + 1200)) by lia.
    apply Z.mul_le_mono_nonneg_r; [apply Z.pow_nonneg; lia|lia]. }
  assert (H3 : 2 ^ (db + eb + 1200) <= 2 ^ (d - 1 + ex + 1200))
    by (apply Z.pow_le_mono_r; lia).
  lia.
Qed.

(** Rounding does not cross a representable upper bound. *)
Lemma round_upper (mx : positive) (ex : Z) (mb : positive) (eb : Z) :
  0 <= fexp prec emax (Zpos (digits2_pos mx) + ex) - ex ->
  -1200 <= ex -> canonical mb eb -> eb <= emax - prec ->
  scaled (Zpos mx) ex <= scaled (Zpos mb) eb ->
  let r := binary_round_aux prec emax false (Zpos mx) ex loc_Exact in
  r = S754_zero false
  \/ exists m e, r = S754_finite false m e /\ canonical m e /\ e <= emax - prec
                 /\ scaled (Zpos m) e <= scaled (Zpos mb) eb.
Proof.
  intros Hn Hex Hb Heb Hle r.
  pose proof (format_exponent_mono mx ex mb eb Hex Hb Hle) as He'.
  destruct (binary_round_aux_rounded mx ex Hn)
    as (q & Hr & Hq & Hmin & Hnorm & Hup & Hdown).
  fold r in Hr.
  set (e' := fexp prec emax (Zpos (digits2_pos mx) + ex)) in *.
  set (n := e' - ex) in *.
  pose proof (canonical_bounds mb eb Hb) as (_ & Hmb & _).
  assert (Hpn : 0 < 2 ^ n) by (apply Z.pow_pos_nonneg; lia).
  assert (Hpk : 0 < 2 ^ (eb - e')) by (apply Z.pow_pos_nonneg; lia).
  (* the bound, as a multiple of the unit in the last place of the result *)
  assert (HB : scaled (Zpos mb) eb = scaled (Zpos mb * 2 ^ (eb - e')) e').
  { rewrite <- scaled_shift by lia. f_equal. lia. }
  assert (HqN : q <= Zpos mb * 2 ^ (eb - e')).
  { assert (Hx : Zpos mx <= Zpos mb * 2 ^ (eb - e') * 2 ^ n).
    { apply (scaled_le_cancel _ _ ex Hex).
      rewrite <- scaled_shift by lia.
      replace (ex + n) with e' by (unfold n; lia). now rewrite <- HB. }
    nia. }
  assert (Hval : scaled q e' <= scaled (Zpos mb) eb).
  { rewrite HB. apply scaled_le_mono; lia. }
  destruct Hr as [Hq0|m Hqm Hc|Hqc].
  - now left.
  - right. change (emax - prec) with 971 in *.
    destruct (Z.leb_spec e' 971); [|lia].
    exists m, e'. rewrite <- Hqm. auto.
  - right. change (emax - prec) with 971 in *.
    assert (He1 : e' + 1 <= eb).
    { destruct (Z.eq_dec e' eb) as [E|]; [|lia]. exfalso.
      rewrite E, Z.sub_diag in HqN. change (2 ^ 0) with 1 in HqN. lia. }
    destruct (Z.leb_spec (e' + 1) 971); [|lia].
    exists (2 ^ 52)%positive, (e' + 1). split; [reflexivity|].
    split; [apply canonical_intro; lia|]. split; [lia|].
    rewrite scaled_shift by lia. rewrite Hqc in Hval. exact Hval.
Qed.

(** Rounding does not cross a representable lower bound. *)
Lemma round_lower (mx : positive) (ex : Z) (mb : positive) (eb : Z) :
  0 <= fexp prec emax (Zpos (digits2_pos mx) + ex) - ex ->
  -1200 <= ex -> canonical mb eb ->
  scaled (Zpos mb) eb <= scaled (Zpos mx) ex ->
  let r := binary_round_aux prec emax false (Zpos mx) ex loc_Exact in
  r <> S754_zero false
  /\ forall m e, r = S754_finite false m e ->
                 scaled (Zpos mb) eb <= scaled (Zpos m) e.
Proof.
  intros Hn Hex Hb Hle r.
  destruct (binary_round_aux_rounded mx ex Hn)
    as (q & Hr & Hq & Hmin & Hnorm & Hup & Hdown).
  fold r in Hr.
  set (e' := fexp prec emax (Zpos (digits2_pos mx) + ex)) in *.
  set (n := e' - ex) in *.
  pose proof (canonical_bounds mb eb Hb) as (Heb & Hmb & _).
  assert (Hpn : 0 < 2 ^ n) by (apply Z.pow_pos_nonneg; lia).
  assert (Hval : scaled (Zpos mb) eb <= scaled q e' /\ 0 < q).
  { destruct (Z.le_gt_cases e' eb) as [Hk|Hk].
    - assert (Hpk : 0 < 2 ^ (eb - e')) by (apply Z.pow_pos_nonneg; lia).
      assert (HB : scaled (Zpos mb) eb = scaled (Zpos mb * 2 ^ (eb - e')) e').
      { rewrite <- scaled_shift by lia. f_equal. lia. }
      assert (Hx : Zpos mb * 2 ^ (eb - e') * 2 ^ n <= Zpos mx).
      { apply (scaled_le_cancel _ _ ex Hex).
        rewrite <- scaled_shift by lia.
        replace (ex + n) with e' by (unfold n; lia). now rewrite <- HB. }
      assert (HNq : Zpos mb * 2 ^ (eb - e') <= q) by nia.
      split; [rewrite HB; apply scaled_le_mono; lia|nia].
    - destruct Hnorm as [E|Hq52]; [lia|]. split; [|lia].
      apply Z.le_trans with (scaled (2 ^ 53) eb);
        [apply scaled_le_mono; lia|].
      apply Z.le_trans with (scaled (2 ^ 52) (eb + 1));
        [rewrite scaled_shift by lia; apply Z.le_refl|].
      apply Z.le_trans with (scaled (2 ^ 52) e');
        [apply scaled_exp_mono; lia|apply scaled_le_mono; lia]. }
  destruct Hval as (Hval & Hq0).
  destruct Hr as [Hqz|m Hqm Hc|Hqc].
  - lia.
  - split; [destruct (e' <=? emax - prec); discriminate|].
    intros m' e Hr. destruct (e' <=? emax - prec); [|discriminate].
    injection Hr as <- <-. now rewrite <- Hqm.
  - split; [destruct (e' + 1 <=? emax - prec); discriminate|].
    intros m' e Hr. destruct (e' + 1 <=? emax - prec); [|discriminate].
    injection Hr as <- <-. rewrite scaled_shift by lia.
    rewrite Hqc in Hval. exact Hval.
Qed.

(** ** Alignment and the operations *)

Lemma shl_align_value mx ex ez :
  ez <= ex ->
  Zpos (fst (shl_align mx ex ez)) = Zpos mx * 2 ^ (ex - ez)
  /\ snd (shl_align mx ex ez) = ez.
Proof.
  intro Hle. unfold shl_align.
  destruct (ez - ex) as [|d|d] eqn:E; cbn [fst snd].
  - replace (ex - ez) with 0 by lia. split; lia.
  - lia.
  - replace (ex - ez) with (Zpos d) by lia. split; [|reflexivity].
    change (Pos.iter xO mx d) with (shift_pos d mx).
    rewrite shift_pos_correct. change (Z.pow_pos 2 d) with (2 ^ Zpos d). ring.
Qed.

Lemma digits2_unique m D :
  2 ^ (D - 1) <= Zpos m < 2 ^ D -> Zpos (digits2_pos m) = D.
Proof.
  intro H. pose proof (digits2_bounds m) as Hd.
  assert (Hp : 0 < Zpos (digits2_pos m)) by lia.
  set (d := Zpos (digits2_pos m)) in *.
  assert (HD : 0 < D).
  { destruct (Z.lt_ge_cases 0 D) as [|Hn]; [assumption|exfalso].
    assert (2 ^ D <= 2 ^ 0) by (apply Z.pow_le_mono_r; lia).
    change (2 ^ 0) with 1 in *. lia. }
  destruct (Z.lt_trichotomy d D) as [Hlt|[Heq|Hgt]]; [exfalso|exact Heq|exfalso].
  - assert (2 ^ d <= 2 ^ (D - 1)) by (apply Z.pow_le_mono_r; lia). lia.
  - assert (2 ^ D <= 2 ^ (d - 1)) by (apply Z.pow_le_mono_r; lia). lia.
Qed.

(** [binary_round] first aligns its argument so that [binary_round_aux]
    only ever shifts right. *)
Lemma binary_round_aligned (M : positive) (ez : Z) :
  -1200 <= ez ->
  exists mx ex,
    binary_round prec emax false M ez
    = binary_round_aux prec emax false (Zpos mx) ex loc_Exact
    /\ 0 <= fexp prec emax (Zpos (digits2_pos mx) + ex) - ex
    /\ -1200 <= ex
    /\ scaled (Zpos mx) ex = scaled (Zpos M) ez.
Proof.
  intro Hez. unfold binary_round.
  set (e' := fexp prec emax (Zpos (digits2_pos M) + ez)).
  assert (He' : -1074 <= e') by (unfold e'; rewrite fexp_eq; lia).
  destruct (Z.le_gt_cases ez e') as [Hle|Hgt].
  - (* no alignment needed *)
    exists M, ez. unfold shl_align.
    destruct (e' - ez) as [|d|d] eqn:E; try lia; (split; [reflexivity|]);
      fold e'; repeat split; lia.
  - pose proof (shl_align_value M ez e') as (Hm & He); [lia|].
    destruct (shl_align M ez e') as [mz ez'] eqn:E. cbn [fst snd] in Hm, He.
    subst ez'. exists mz, e'. split; [reflexivity|].
    assert (Hpk : 0 < 2 ^ (ez - e')) by (apply Z.pow_pos_nonneg; lia).
    assert (Hd : Zpos (digits2_pos mz) = Zpos (digits2_pos M) + (ez - e')).
    { apply digits2_unique. rewrite Hm.
      pose proof (digits2_bounds M) as HM.
      assert (0 < Zpos (digits2_pos M)) by lia.
      replace (Zpos (digits2_pos M) + (ez - e') - 1)
        with (Zpos (digits2_pos M) - 1 + (ez - e')) by lia.
      rewrite !Z.pow_add_r by lia. nia. }
    split; [|split; [lia|]].
    + rewrite Hd. replace (Zpos (digits2_pos M) + (ez - e') + e')
        with (Zpos (digits2_pos M) + ez) by lia.
      fold e'. lia.
    + rewrite Hm. replace ez with (e' + (ez - e')) at 2 by lia.
      now rewrite scaled_shift by lia.
Qed.

Lemma canonical_1500 : canonical m1500 (-42).
Proof. reflexivity. Qed.

Lemma canonical_3000 : canonical m1500 (-41).
Proof. reflexivity. Qed.

Lemma canonical_1 : canonical (2 ^ 52) (-52).
Proof. reflexivity. Qed.

Lemma m1500_value : Zpos m1500 = 1500 * 2 ^ 42.
Proof. reflexivity. Qed.

(** A draw below 1, times 1500, is at most 1500. *)
Lemma mul_1500_bound m e :
  canonical m e ->
  SFltb (S754_finite false m e) c1 = true ->
  let p := SFmul prec emax (S754_finite false m e) c1500 in
  p = S754_zero false
  \/ exists mp ep, p = S754_finite false mp ep /\ canonical mp ep
                   /\ scaled (Zpos mp) ep <= scaled (Zpos m1500) (-42).
Proof.
  intros Hc Hlt p.
  pose proof (SFltb_elim m e _ _ Hc canonical_1 Hlt) as Hval.
  pose proof (canonical_bounds m e Hc) as (He & Hm & _).
  assert (Hp : p = binary_round_aux prec emax false (Zpos (m * m1500)) (e + -42)
                     loc_Exact) by reflexivity.
  assert (Hn : 0 <= fexp prec emax (Zpos (digits2_pos (m * m1500)) + (e + -42))
                    - (e + -42)).
  { rewrite fexp_eq.
    pose proof (digits2_bounds (m * m1500)) as HD.
    pose proof (digits2_bounds m) as Hd.
    assert (0 < Zpos (digits2_pos m)) by lia.
    set (D := Zpos (digits2_pos (m * m1500))) in *.
    set (d := Zpos (digits2_pos m)) in *.
    assert (Hlow : 2 ^ (d - 1 + 52) <= Zpos (m * m1500)).
    { rewrite Z.pow_add_r by lia. rewrite Pos2Z.inj_mul, m1500_value.
      change (2 ^ 52) with 4503599627370496.
      change (2 ^ 42) with 4398046511104. nia. }
    assert (d + 51 < D).
    { apply (Z.pow_lt_mono_r_iff 2); [lia| |].
      - unfold D. lia.
      - replace (d + 51) with (d - 1 + 52) by lia. lia. }
    lia. }
  assert (Hle : scaled (Zpos (m * m1500)) (e + -42) <= scaled (Zpos m1500) (-42)).
  { unfold scaled in *. rewrite Pos2Z.inj_mul.
    replace (e + -42 + 1200) with (e + 1158) by lia.
    replace (e + 1200) with (e + 1158 + 42) in Hval by lia.
    rewrite Z.pow_add_r in Hval by lia.
    change (-42 + 1200) with 1158. change (-52 + 1200) with 1148 in Hval.
    assert (H2 : (2:Z) ^ 52 * 2 ^ 1148 = 2 ^ 1158 * 2 ^ 42)
      by (rewrite <- !Z.pow_add_r by lia; reflexivity).
    change (Zpos (2 ^ 52)) with (2 ^ 52) in Hval. rewrite H2 in Hval.
    assert (Hp42 : 0 < 2 ^ 42) by (apply Z.pow_pos_nonneg; lia).
    assert (Hx : Zpos m * 2 ^ (e + 1158) < 2 ^ 1158) by nia.
    assert (0 < Zpos m1500) by lia. nia. }
  destruct (round_upper (m * m1500) (e + -42) m1500 (-42) Hn) as [Hz|Hf].
  - lia.
  - exact canonical_1500.
  - change (emax - prec) with 971. lia.
  - exact Hle.
  - left. now rewrite Hp.
  - right. destruct Hf as (mp & ep & Hr & Hcp & _ & Hv).
    exists mp, ep. rewrite Hp. auto.
Qed.

(** 1500 plus a float in (0, 1500] lies in [1500, 3000]. *)
Lemma add_1500_bound mp ep :
  canonical mp ep ->
  scaled (Zpos mp) ep <= scaled (Zpos m1500) (-42) ->
  let q := SFadd prec emax c1500 (S754_finite false mp ep) in
  SFleb c1500 q = true /\ SFleb q c3000 = true.
Proof.
  intros Hc Hle q.
  pose proof (canonical_bounds mp ep Hc) as (Hep & _ & _).
  set (ez := Z.min (-42) ep).
  destruct (shl_align_value m1500 (-42) ez) as (Ha & _); [unfold ez; lia|].
  destruct (shl_align_value mp ep ez) as (Hb & _); [unfold ez; lia|].
  set (a := fst (shl_align m1500 (-42) ez)) in *.
  set (b := fst (shl_align mp ep ez)) in *.
  assert (Hq : q = binary_round prec emax false (a + b) ez) by reflexivity.
  assert (Hsum : scaled (Zpos (a + b)) ez
                 = scaled (Zpos m1500) (-42) + scaled (Zpos mp) ep).
  { rewrite Pos2Z.inj_add, Ha, Hb. unfold scaled at 1.
    rewrite Z.mul_add_distr_r. f_equal.
    - fold (scaled (Zpos m1500 * 2 ^ (-42 - ez)) ez).
      rewrite <- scaled_shift by (unfold ez; lia). f_equal. lia.
    - fold (scaled (Zpos mp * 2 ^ (ep - ez)) ez).
      rewrite <- scaled_shift by (unfold ez; lia). f_equal. lia. }
  destruct (binary_round_aligned (a + b) ez) as (mx & ex & Hr & Hn & Hex & Hv);
    [unfold ez; lia|].
  rewrite <- Hq in Hr. rewrite Hsum in Hv.
  assert (Hpos : 0 < scaled (Zpos mp) ep) by (apply scaled_pos; lia).
  assert (H3000 : scaled (Zpos m1500) (-41) = 2 * scaled (Zpos m1500) (-42)).
  { change (-41) with (-42 + 1). rewrite scaled_shift by lia.
    unfold scaled. change (2 ^ 1) with 2. ring. }
  destruct (round_upper mx ex m1500 (-41) Hn Hex canonical_3000)
    as [Hz|(m & e & Hf & Hcf & _ & Hup)];
    [change (emax - prec) with 971; lia|lia| |].
  - (* the sum is at least 1500, so it does not round to zero *)
    exfalso.
    destruct (round_lower mx ex m1500 (-42) Hn Hex canonical_1500) as (Hnz & _);
      [lia|]. contradiction.
  - destruct (round_lower mx ex m1500 (-42) Hn Hex canonical_1500) as (_ & Hlow);
      [lia|].
    specialize (Hlow m e Hf). rewrite Hr, Hf. split.
    + apply SFleb_intro; [exact canonical_1500|exact Hcf|exact Hlow].
    + apply SFleb_intro; [exact Hcf|exact canonical_3000|exact Hup].
Qed.

(** [1500 + r * 1500] for a binary64 [r] with [0 <= r < 1]. *)
Lemma delay_expression_bounds (r : float) :
  (0 <=? r)%float = true -> (r <? 1)%float = true ->
  (1500 <=? 1500 + r * 1500)%float = true
  /\ (1500 + r * 1500 <=? 3000)%float = true.
Proof.
  rewrite !leb_spec, ltb_spec, add_spec, mul_spec.
  change (Prim2SF 1500) with c1500. change (Prim2SF 3000) with c3000.
  change (Prim2SF 1) with c1. change (Prim2SF 0) with (S754_zero false).
  pose proof (Prim2SF_valid r) as Hvalid.
  unfold SF64add, SF64mul.
  destruct (Prim2SF r) as [s| s| |s m e]; intros H0 H1.
  - (* a zero *) destruct s; split; reflexivity.
  - destruct s; discriminate.
  - discriminate.
  - destruct s; [discriminate|].
    cbn [valid_binary] in Hvalid. unfold bounded in Hvalid.
    apply andb_prop in Hvalid. destruct Hvalid as (Hc & _).
    apply canonical_mantissa_iff in Hc.
    destruct (mul_1500_bound m e Hc H1) as [Hz|(mp & ep & Hp & Hcp & Hv)].
    + rewrite Hz. split; reflexivity.
    + rewrite Hp. now apply add_1500_bound.
Qed.

(** The whole part of a positive binary64 value, against integer bounds. *)
Lemma shiftl_bounds (m : positive) (e lo hi : Z) :
  -1200 <= e -> 0 <= lo ->
  lo * 2 ^ 1200 <= scaled (Zpos m) e <= hi * 2 ^ 1200 ->
  lo <= Z.shiftl (Zpos m) e <= hi.
Proof.
  intros He Hlo (Hl & Hh). unfold scaled in *.
  destruct (Z.le_gt_cases 0 e) as [Hpos|Hneg].
  - rewrite Z.shiftl_mul_pow2 by lia.
    rewrite Z.pow_add_r in Hl, Hh by lia.
    assert (0 < 2 ^ 1200) by (apply Z.pow_pos_nonneg; lia).
    rewrite Z.mul_assoc in Hl, Hh.
    split; [apply (Z.mul_le_mono_pos_r _ _ (2 ^ 1200))
           |apply (Z.mul_le_mono_pos_r _ _ (2 ^ 1200))]; assumption.
  - rewrite Z.shiftl_div_pow2 by lia.
    assert (Hp : 0 < 2 ^ (- e)) by (apply Z.pow_pos_nonneg; lia).
    assert (Hq : 0 < 2 ^ (e + 1200)) by (apply Z.pow_pos_nonneg; lia).
    assert (E : 2 ^ 1200 = 2 ^ (- e) * 2 ^ (e + 1200)).
    { rewrite <- Z.pow_add_r by lia. f_equal. lia. }
    rewrite E, Z.mul_assoc in Hl, Hh.
    apply Z.mul_le_mono_pos_r in Hl; [|exact Hq].
    apply Z.mul_le_mono_pos_r in Hh; [|exact Hq].
    split.
    + apply Z.div_le_lower_bound; lia.
    + apply Z.div_le_upper_bound; lia.
Qed.

Lemma delay_floor_bounds (d : float) :
  (1500 <=? d)%float = true -> (d <=? 3000)%float = true ->
  1500 <= delay_floor d <= 3000.
Proof.
  rewrite !leb_spec. unfold delay_floor.
  change (Prim2SF 1500) with c1500. change (Prim2SF 3000) with c3000.
  pose proof (Prim2SF_valid d) as Hvalid.
  destruct (Prim2SF d) as [s| s| |s m e]; try discriminate.
  - destruct s; discriminate.
  - destruct s; [discriminate|]. intros Hlo Hhi.
    cbn [valid_binary] in Hvalid. unfold bounded in Hvalid.
    apply andb_prop in Hvalid. destruct Hvalid as (Hc & _).
    apply canonical_mantissa_iff in Hc.
    pose proof (canonical_bounds m e Hc) as (He & _ & _).
    apply (SFleb_elim _ _ _ _ canonical_1500 Hc) in Hlo.
    apply (SFleb_elim _ _ _ _ Hc canonical_3000) in Hhi.
    apply shiftl_bounds; [lia|lia|]. split.
    + replace (1500 * 2 ^ 1200) with (scaled (Zpos m1500) (-42)); [exact Hlo|].
      unfold scaled. rewrite m1500_value. change (-42 + 1200) with 1158.
      rewrite <- Z.mul_assoc, <- Z.pow_add_r by lia. reflexivity.
    + replace (3000 * 2 ^ 1200) with (scaled (Zpos m1500) (-41)); [exact Hhi|].
      unfold scaled. rewrite m1500_value. change (-41 + 1200) with 1159.
      replace 3000 with (1500 * 2) by reflexivity.
      replace (2 ^ 1200) with (2 ^ 41 * 2 ^ 1159)
        by (rewrite <- Z.pow_add_r by lia; reflexivity).
      change (2 ^ 42) with (2 * 2 ^ 41). ring.
Qed.

(** ** The fallback attempt (C9) *)

Lemma mock_delay_bounds (rand : float) :
  (0 <=? rand)%float = true -> (rand <? 1)%float = true ->
  (1500 <=? mock_delay rand)%float = true
  /\ (mock_delay rand <=? 3000)%float = true.
Proof. apply delay_expression_bounds. Qed.

(** C9 as stated fails at the top of the range: for the largest draws
    [Math.random()] can return, [1500 + Math.random() * 1500] is exactly 3000
    in binary64, which is outside [[1500, 3000)].  The product rounds to
    1499.9999999999998, and 1500 plus that lies halfway between
    2999.9999999999995 and 3000, which rounds to the even one, 3000. *)
Lemma fallback_delay_counterexample :
  (0 <=? largest_draw)%float = true
  /\ (largest_draw <? 1)%float = true
  /\ (largest_draw * 1500)%float = 1499.9999999999998%float
  /\ mock_delay largest_draw = 3000%float
  /\ (mock_delay largest_draw <? 3000)%float = false
  /\ delay_floor (mock_delay largest_draw) = 3000
  /\ (second_largest_draw <? 1)%float = true
  /\ mock_delay second_largest_draw = 3000%float.
Proof. vm_compute. repeat split. Qed.

Lemma find_task_remove_other tid tid' ts :
  tid <> tid' -> find_task tid (remove_task tid' ts) = find_task tid ts.
Proof.
  intro Hne. induction ts as [|[i t] ts IH]; simpl; [reflexivity|].
  destruct (Nat.eqb_spec i tid') as [->|Hi]; simpl.
  - destruct (Nat.eqb_spec tid' tid); [congruence|exact IH].
  - now rewrite IH.
Qed.

(** A parked task stays parked through every turn but its own. *)
Lemma task_stays_pending rand e s tid t :
  find_task tid (pendingTasks s) = Some t ->
  e <> Resume tid ->
  find_task tid (pendingTasks (snd (step rand e s))) = Some t.
Proof.
  intros Ht He.
  assert (Happ : forall s', (exists extra, pendingTasks s' = pendingTasks s ++ extra) ->
                            find_task tid (pendingTasks s') = Some t).
  { intros s' (extra & ->). now apply find_task_app. }
  destruct e as [p|index credentials|tid'|d].
  - destruct (rerender_cases rand p s) as (s' & -> & Hres).
    apply rerender_frame in Hres. apply Happ. tauto.
  - simpl. unfold retryConnection.
    destruct (runConnection_cases rand index credentials FromRetry s)
      as (s' & -> & Hres).
    apply attempt_frame in Hres. apply Happ. tauto.
  - assert (Hne : tid <> tid') by congruence.
    assert (Hkeep : find_task tid (pendingTasks (taken tid' s)) = Some t).
    { rewrite pendingTasks_taken. now rewrite find_task_remove_other. }
    assert (Hres : forall k s0, find_task tid (pendingTasks s0) = Some t ->
                                find_task tid (pendingTasks (resumed k s0)) = Some t).
    { intros k s0 H0. destruct k; [exact H0|]. simpl. now apply find_task_app. }
    destruct (find_task tid' (pendingTasks s))
      as [[index p k|index dl due k|due a]|] eqn:Ht'.
    + rewrite (resume_await rand tid' s Ht'). simpl. now apply Hres.
    + destruct (Z.le_gt_cases due (now s)) as [Hle|Hgt].
      * rewrite (resume_mock rand tid' s Ht' Hle). simpl. now apply Hres.
      * now rewrite (resume_mock_early rand tid' s Ht' Hgt).
    + destruct (Z.le_gt_cases due (now s)) as [Hle|Hgt].
      * destruct (resume_timer rand tid' s Ht' Hle) as (s' & -> & Hcase). simpl.
        destruct a as [v|]; [|now subst s'].
        apply advance_frame in Hcase.
        destruct Hcase as (_ & _ & _ & _ & _ & extra & ->).
        now apply find_task_app.
      * now rewrite (resume_timer_early rand tid' s Ht' Hgt).
    + now rewrite (resume_unknown rand tid' s Ht').
  - simpl. unfold tick. now destruct (0 <=? d).
Qed.

(** C9, amended: with no Connector, an attempt on a record (whoever starts
    it) marks it [connecting] and sets one timer whose requested delay is
    [1500 + Math.random() * 1500]; for a draw in [[0, 1)] that delay lies in
    [[1500, 3000]] (3000 itself being reached, by rounding, at the largest
    draws), so the timer is due between 1500 and 3000 after it was set.  The
    timer stays pending through every other turn and does not fire before it
    is due; when it fires, the record is set to [success] if the second draw
    is greater than 0.1 and to [error] otherwise, so the record ends in a
    terminal status. *)
Theorem fallback_attempt :
  (forall rand index credentials k s c,
     lookup index (connections s) = Some c ->
     falsy (platformId c) = false ->
     connectPlatform (props s) = None ->
     (0 <=? rand)%float = true -> (rand <? 1)%float = true ->
     exists s' due,
       runConnection rand index credentials k s = (Normal tt, s')
       /\ status_at index s' = Some connecting
       /\ pendingTasks s'
          = pendingTasks s ++ [(nextTask s, MockDelay index (mock_delay rand) due k)]
       /\ (1500 <=? mock_delay rand)%float = true
       /\ (mock_delay rand <=? 3000)%float = true
       /\ now s + 1500 <= due <= now s + 3000)
  /\ (forall rand e s tid index delay due k,
     find_task tid (pendingTasks s) = Some (MockDelay index delay due k) ->
     e <> Resume tid ->
     find_task tid (pendingTasks (snd (step rand e s)))
     = Some (MockDelay index delay due k))
  /\ (forall rand tid s index delay due k,
     find_task tid (pendingTasks s) = Some (MockDelay index delay due k) ->
     now s < due ->
     step rand (Resume tid) s = (Normal tt, s))
  /\ (forall rand tid s index delay due k c,
     find_task tid (pendingTasks s) = Some (MockDelay index delay due k) ->
     lookup index (connections s) = Some c ->
     due <= now s ->
     exists s',
       step rand (Resume tid) s = (Normal tt, s')
       /\ status_at index s'
          = Some (if (0.1 <? rand)%float then success else error)
       /\ (status_at index s' = Some success \/ status_at index s' = Some error)).
Proof.
  split; [|split; [|split]].
  - intros rand index credentials k s c Hc Hid Hf H0 H1.
    destruct (mock_delay_bounds rand H0 H1) as (Hlo & Hhi).
    pose proof (delay_floor_bounds (mock_delay rand) Hlo Hhi) as Hfloor.
    eexists. exists (now s + delay_floor (mock_delay rand)).
    split; [eapply runConnection_fallback; eassumption|].
    split; [|split; [reflexivity|split; [exact Hlo|split; [exact Hhi|lia]]]].
    rewrite status_at_parked. eapply status_at_written_same; eassumption.
  - intros rand e s tid index delay due k. apply task_stays_pending.
  - intros rand tid s index delay due k. apply resume_mock_early.
  - intros rand tid s index delay due k c Ht Hc Hdue.
    eexists. split; [eapply resume_mock; eassumption|].
    rewrite status_at_resumed.
    assert (Hst : status_at index (written index (mock_status rand) (taken tid s))
                  = Some (mock_status rand))
      by (eapply status_at_written_same; rewrite connections_taken; eassumption).
    rewrite Hst. unfold mock_status, mock_success.
    split; [reflexivity|]. destruct (_ <? rand)%float; auto.
Qed.

Lemma fallback_attempt_witness :
  (exists s' due,
     runConnection 0.5%float 0 None (FromSequencer 0 1) (initialState one_offline)
     = (Normal tt, s')
     /\ status_at 0 s' = Some connecting
     /\ (1500 <=? mock_delay 0.5)%float = true
     /\ (mock_delay 0.5 <=? 3000)%float = true
     /\ 1500 <= due <= 3000)
  /\ step 0.5%float (Resume 0%nat) (snd (mount 0.5%float one_offline))
     = (Normal tt, snd (mount 0.5%float one_offline))
  /\ (exists s',
     step 0.5%float (Resume 0%nat) offline_due = (Normal tt, s')
     /\ status_at 0 s' = Some success).
Proof.
  destruct fallback_attempt as (Hstart & _ & Hearly & Hfire). split; [|split].
  - destruct (Hstart 0.5%float 0 None (FromSequencer 0 1) (initialState one_offline)
                (mkConn "A" pending) eq_refl eq_refl eq_refl eq_refl eq_refl)
      as (s' & due & Hs & Hst & _ & Hlo & Hhi & Hdue).
    exists s', due. auto.
  - apply (Hearly 0.5%float 0%nat (snd (mount 0.5%float one_offline)) 0
             (mock_delay 0.5) 2250 (FromSequencer 0 1)).
    + vm_compute. reflexivity.
    + vm_compute. reflexivity.
  - destruct (Hfire 0.5%float 0%nat offline_due 0
                (mock_delay 0.5) 2250 (FromSequencer 0 1) (mkConn "A" connecting))
      as (s' & Hs & Hst & _).
    + vm_compute. reflexivity.
    + reflexivity.
    + vm_compute. discriminate.
    + exists s'. split; [exact Hs|exact Hst].
Defined.

(** With no Connector, one platform id and draws 0.5, the run ends in
    [success] and completes. *)
Example offline_run :
  let s := snd (run 0.5%float one_offline
                  [(0.5%float, Tick 2250); (0.5%float, Resume 0%nat);
                   (0.5%float, Tick 500); (0.5%float, Resume 1%nat)]) in
  statuses s = [success] /\ allComplete s = true
  /\ find_task 0 (pendingTasks (snd (mount 0.5%float one_offline)))
     = Some (MockDelay 0 2250 2250 (FromSequencer 0 1)).
Proof. vm_compute. auto. Qed.

(** * Further properties of the hook *)

(** ** What every turn is made of *)

Lemma terminal_not_pending st : terminal st -> st <> pending.
Proof. intros [->| ->]; discriminate. Qed.

(** Every turn is a sequence of elementary changes: a write of a status other
    than [pending], [setAllComplete(true)], a new [currentIndex], new props,
    a task parked or taken, time moving forward.  A relation that all of
    them keep is kept by every turn. *)
Section Forward.

Variable R : HookState -> HookState -> Prop.

Hypothesis R_refl : forall s, R s s.

Hypothesis R_trans : forall a b c, R a b -> R b c -> R a c.

Hypothesis R_written : forall i st s, st <> pending -> R s (written i st s).

Hypothesis R_complete : forall s, R s (snd (setAllComplete true s)).

Hypothesis R_currentIndex : forall v s, R s (with_currentIndex v s).

Hypothesis R_props : forall p s, R s (with_props p s).

Hypothesis R_taken : forall tid s, R s (taken tid s).

Hypothesis R_parked : forall t s, R s (parked t s).

Hypothesis R_later : forall d s, 0 <= d -> R s (with_now (now s + d) s).

Lemma forward_resumed k s : R s (resumed k s).
Proof. destruct k; simpl; [apply R_refl|apply R_parked]. Qed.

Lemma forward_attempt rand j credentials k s s' :
  attempt_result rand j credentials k s s' -> R s s'.
Proof.
  intros [Hskip|c f Hc Hid Hf Hcall|c f p Hc Hid Hf Hcall|c Hc Hid Hf].
  - apply forward_resumed.
  - eapply R_trans; [|apply forward_resumed].
    eapply R_trans; apply R_written; discriminate.
  - eapply R_trans; [|apply R_parked]. apply R_written; discriminate.
  - eapply R_trans; [|apply R_parked]. apply R_written; discriminate.
Qed.

Lemma forward_sequencer rand s s' : sequencer_result rand s s' -> R s s'.
Proof.
  unfold sequencer_result.
  destruct ((0 <=? currentIndex s) && (currentIndex s <? ledger_length s)).
  - apply forward_attempt.
  - intros ->. apply R_refl.
Qed.

Lemma forward_advance rand v s s' : advance_result rand v s s' -> R s s'.
Proof.
  unfold advance_result. destruct (currentIndex s =? v).
  - intros ->. apply R_refl.
  - intro H. eapply R_trans; [apply (R_currentIndex v)|].
    eapply forward_sequencer; exact H.
Qed.

Lemma forward_autoStart rand s s' : autoStart_result rand s s' -> R s s'.
Proof.
  unfold autoStart_result.
  destruct (autoStart (props s) && (currentIndex s =? -1) && (0 <? ledger_length s)).
  - apply forward_advance.
  - intros ->. apply R_refl.
Qed.

Lemma forward_step rand e s :
  exists s', step rand e s = (Normal tt, s') /\ R s s'.
Proof.
  destruct e as [p|index credentials|tid|d].
  - destruct (rerender_cases rand p s) as (s' & Hs' & Hres).
    exists s'. split; [exact Hs'|]. unfold rerender_result in Hres.
    destruct (Bool.eqb (autoStart p) (autoStart (props s))).
    + subst s'. apply R_props.
    + eapply R_trans; [apply (R_props p)|]. eapply forward_autoStart; exact Hres.
  - destruct (runConnection_cases rand index credentials FromRetry s)
      as (s' & Hs' & Hres).
    exists s'. split; [exact Hs'|]. eapply forward_attempt; exact Hres.
  - destruct (find_task tid (pendingTasks s)) as [[index p k|index dl due k|due a]|]
      eqn:Ht.
    + eexists. split; [eapply resume_await; exact Ht|].
      eapply R_trans; [|apply forward_resumed].
      eapply R_trans; [apply (R_taken tid)|].
      apply R_written. apply terminal_not_pending, terminal_settled_status.
    + destruct (Z.le_gt_cases due (now s)) as [Hdue|Hearly].
      * eexists. split; [eapply resume_mock; [exact Ht|exact Hdue]|].
        eapply R_trans; [|apply forward_resumed].
        eapply R_trans; [apply (R_taken tid)|].
        apply R_written. apply terminal_not_pending, terminal_mock_status.
      * exists s. split; [eapply resume_mock_early; eassumption|apply R_refl].
    + destruct (Z.le_gt_cases due (now s)) as [Hdue|Hearly].
      * destruct (@resume_timer rand tid s due a Ht Hdue) as (s' & Hs' & Hres).
        exists s'. split; [exact Hs'|].
        eapply R_trans; [apply (R_taken tid)|].
        destruct a as [v|].
        -- eapply forward_advance; exact Hres.
        -- subst s'. apply R_complete.
      * exists s. split; [eapply resume_timer_early; eassumption|apply R_refl].
    + exists s. split; [now apply resume_unknown|apply R_refl].
  - simpl. unfold tick. destruct (Z.leb_spec 0 d).
    + eexists. split; [reflexivity|]. now apply R_later.
    + exists s. split; [reflexivity|apply R_refl].
Qed.

Lemma forward_exec evs : forall s,
  exists s', exec evs s = (Normal tt, s') /\ R s s'.
Proof.
  induction evs as [|[rand e] evs IH]; intro s; simpl.
  - exists s. split; [reflexivity|apply R_refl].
  - destruct (forward_step rand e s) as (s1 & Hs1 & H1).
    destruct (IH s1) as (s' & Hs' & H').
    exists s'. unfold bind. rewrite Hs1. split; [exact Hs'|].
    eapply R_trans; eassumption.
Qed.

End Forward.

Lemma forward_run (R : HookState -> HookState -> Prop) rand p evs :
  (forall s, R s s) -> (forall a b c, R a b -> R b c -> R a c) ->
  (forall rand e s, exists s', step rand e s = (Normal tt, s') /\ R s s') ->
  (forall s s', autoStart_result rand s s' -> R s s') ->
  exists s', run rand p evs = (Normal tt, s') /\ R (initialState p) s'.
Proof.
  intros Hrefl Htrans Hstep Hstart. unfold run, mount.
  destruct (autoStartEffect_cases rand (initialState p)) as (s0 & Hs0 & Hres).
  rewrite Hs0. apply Hstart in Hres.
  assert (Hexec : forall evs s, exists s', exec evs s = (Normal tt, s') /\ R s s').
  { clear - Hrefl Htrans Hstep. induction evs as [|[r e] evs IH]; intro s; simpl.
    - exists s. auto.
    - destruct (Hstep r e s) as (s1 & Hs1 & H1). destruct (IH s1) as (s' & Hs' & H').
      exists s'. unfold bind. rewrite Hs1. eauto. }
  destruct (Hexec evs s0) as (s' & Hs' & H'). exists s'. eauto.
Qed.

(** ** Nothing is undone *)

Lemma keeps_marks_refl s : keeps_marks s s.
Proof. split; eauto. Qed.

Lemma keeps_marks_trans a b c :
  keeps_marks a b -> keeps_marks b c -> keeps_marks a c.
Proof.
  intros (Hc1 & Hs1) (Hc2 & Hs2). split; [auto|].
  intros k st Hk Hst. destruct (Hs1 k st Hk Hst) as (st1 & Hk1 & Hst1). eauto.
Qed.

Lemma keeps_marks_same s s' :
  allComplete s' = allComplete s -> connections s' = connections s ->
  keeps_marks s s'.
Proof.
  intros Hc Hl. split; [congruence|]. intros k st Hk Hst.
  exists st. unfold status_at in *. now rewrite Hl.
Qed.

Lemma keeps_marks_written i st s : st <> pending -> keeps_marks s (written i st s).
Proof.
  intro Hst. split; [auto|]. intros k st0 Hk Hst0. rewrite status_at_written, Hk.
  destruct (k =? i); simpl; eauto.
Qed.

(** X1: no turn takes back what the hook has reported.  Along any sequence
    of turns (renders, retries, settlements, timers) from any state,
    [allComplete] once true stays true, and a record that has left [pending]
    never shows [pending] again. *)
Theorem marks_are_never_undone (evs : list (float * Event)) (s : HookState) :
  exists s',
    exec evs s = (Normal tt, s')
    /\ (allComplete s = true -> allComplete s' = true)
    /\ (forall k st, status_at k s = Some st -> st <> pending ->
          exists st', status_at k s' = Some st' /\ st' <> pending).
Proof.
  assert (H : exists s', exec evs s = (Normal tt, s') /\ keeps_marks s s').
  { apply forward_exec.
    - apply keeps_marks_refl.
    - apply keeps_marks_trans.
    - apply keeps_marks_written.
    - intro s0. split; [reflexivity|eauto].
    - intros v s0. now apply keeps_marks_same.
    - intros p s0. now apply keeps_marks_same.
    - intros tid s0. now apply keeps_marks_same.
    - intros t s0. now apply keeps_marks_same.
    - intros d s0 _. now apply keeps_marks_same. }
  destruct H as (s' & Hs' & Hdone & Hleft). exists s'. auto.
Qed.

(** ** Task identifiers *)

Lemma remove_task_fst tid ts x :
  In x (map fst (remove_task tid ts)) -> In x (map fst ts).
Proof.
  induction ts as [|[i t] ts IH]; simpl; [auto|].
  destruct (Nat.eqb i tid); simpl; intuition.
Qed.

Lemma remove_task_NoDup tid ts :
  NoDup (map fst ts) -> NoDup (map fst (remove_task tid ts)).
Proof.
  induction ts as [|[i t] ts IH]; simpl; intro H; [constructor|].
  inversion H as [|? ? Hnot Hrest]; subst.
  destruct (Nat.eqb i tid); simpl; [auto|].
  constructor; [|auto]. intro Hin. apply Hnot. eapply remove_task_fst; eassumption.
Qed.

Lemma remove_task_absent tid ts :
  ~ In tid (map fst ts) -> remove_task tid ts = ts.
Proof.
  induction ts as [|[i t] ts IH]; simpl; intro H; [reflexivity|].
  destruct (Nat.eqb_spec i tid) as [->|_]; [tauto|].
  f_equal. apply IH. tauto.
Qed.

Lemma NoDup_fst_unique (ts : list (nat * Task)) tid t t' :
  NoDup (map fst ts) -> In (tid, t) ts -> In (tid, t') ts -> t = t'.
Proof.
  induction ts as [|[i t0] ts IH]; simpl; intros H Hin Hin'; [contradiction|].
  inversion H as [|? ? Hnot Hrest]; subst.
  destruct Hin as [Hin|Hin], Hin' as [Hin'|Hin'].
  - congruence.
  - exfalso. apply Hnot. injection Hin as -> _.
    change tid with (fst (tid, t')). now apply in_map.
  - exfalso. apply Hnot. injection Hin' as -> _.
    change tid with (fst (tid, t)). now apply in_map.
  - auto.
Qed.

Lemma In_find_task tid t ts :
  In (tid, t) ts -> exists t', find_task tid ts = Some t'.
Proof.
  induction ts as [|[i t0] ts IH]; simpl; [contradiction|].
  destruct (Nat.eqb_spec i tid) as [->|Hne]; [eauto|].
  intros [[= -> ->]|Hin]; [contradiction|auto].
Qed.

Lemma filter_remove_task (P : nat * Task -> bool) tid ts :
  filter P (remove_task tid ts) = remove_task tid (filter P ts).
Proof.
  induction ts as [|[i t] ts IH]; simpl; [reflexivity|].
  destruct (Nat.eqb i tid) eqn:E; simpl.
  - destruct (P (i, t)); simpl; [now rewrite E|exact IH].
  - destruct (P (i, t)); simpl; [rewrite E; now f_equal|exact IH].
Qed.

Lemma fresh_ids_parked t s : fresh_ids s -> fresh_ids (parked t s).
Proof.
  intros (Hnd & Hlt). unfold fresh_ids. fields. split.
  - rewrite map_app. simpl. apply NoDup_app; [exact Hnd|repeat constructor; auto|].
    intros x Hx [<-|[]]. apply in_map_iff in Hx. destruct Hx as (it & Hfst & Hin).
    apply Hlt in Hin. lia.
  - intros it Hin. apply in_app_iff in Hin. destruct Hin as [Hin|[<-|[]]].
    + apply Hlt in Hin. lia.
    + simpl. lia.
Qed.

Lemma fresh_ids_taken tid s : fresh_ids s -> fresh_ids (taken tid s).
Proof.
  intros (Hnd & Hlt). unfold fresh_ids. fields. split.
  - now apply remove_task_NoDup.
  - intros it Hin. apply Hlt. eapply remove_task_In; eassumption.
Qed.

(** ** Where the sequencer stands *)

Lemma sequencer_tasks_parked t s :
  sequencer_tasks (parked t s)
  = sequencer_tasks s ++ (if sequencer_task t then [(nextTask s, t)] else []).
Proof.
  unfold sequencer_tasks. fields. rewrite filter_app. simpl.
  now destruct (sequencer_task t).
Qed.

Lemma sequencer_tasks_taken tid s :
  sequencer_tasks (taken tid s) = remove_task tid (sequencer_tasks s).
Proof. unfold sequencer_tasks. fields. apply filter_remove_task. Qed.

Lemma sequencer_tasks_written i st s :
  sequencer_tasks (written i st s) = sequencer_tasks s.
Proof. reflexivity. Qed.

Lemma sequencer_tasks_resumed i len s :
  sequencer_tasks (resumed (FromSequencer i len) s)
  = sequencer_tasks s ++ [(nextTask s, SettleTimer (now s + 500) (next_action i len))].
Proof. unfold resumed. now rewrite sequencer_tasks_parked. Qed.

Lemma sequencer_tasks_retried s : sequencer_tasks (resumed FromRetry s) = sequencer_tasks s.
Proof. reflexivity. Qed.

#[local] Hint Rewrite sequencer_tasks_taken sequencer_tasks_written
  sequencer_tasks_resumed sequencer_tasks_retried : fields.

Lemma sequencer_task_found s tid t :
  fresh_ids s -> sequencer_tasks s = [(tid, t)] ->
  find_task tid (pendingTasks s) = Some t.
Proof.
  intros (Hnd & _) Hts.
  assert (Hin : In (tid, t) (pendingTasks s)).
  { assert (H : In (tid, t) (sequencer_tasks s)) by (rewrite Hts; now left).
    unfold sequencer_tasks in H. apply filter_In in H. tauto. }
  destruct (In_find_task _ _ _ Hin) as (t' & Ht'). rewrite Ht'. f_equal.
  apply find_task_In in Ht'. eapply NoDup_fst_unique; eassumption.
Qed.

Lemma found_sequencer_task s tid t tid0 t0 :
  find_task tid (pendingTasks s) = Some t -> sequencer_task t = true ->
  sequencer_tasks s = [(tid0, t0)] -> tid0 = tid /\ t0 = t.
Proof.
  intros Ht Hseq Hts. apply find_task_In in Ht.
  assert (H : In (tid, t) (sequencer_tasks s))
    by (unfold sequencer_tasks; apply filter_In; auto).
  rewrite Hts in H. destruct H as [[= -> ->]|[]]. auto.
Qed.

Lemma found_retry_task s tid t :
  fresh_ids s -> find_task tid (pendingTasks s) = Some t ->
  sequencer_task t = false ->
  remove_task tid (sequencer_tasks s) = sequencer_tasks s.
Proof.
  intros (Hnd & _) Ht Hseq. apply remove_task_absent. intro Hin.
  apply in_map_iff in Hin. destruct Hin as ((i & t') & Hi & Hin). simpl in Hi. subst i.
  unfold sequencer_tasks in Hin. apply filter_In in Hin. destruct Hin as (Hin & Hseq').
  apply find_task_In in Ht. simpl in Hseq'.
  assert (t = t') by (eapply NoDup_fst_unique; eassumption). congruence.
Qed.

Lemma progress_same s s' :
  currentIndex s' = currentIndex s -> allComplete s' = allComplete s ->
  ledger_length s' = ledger_length s -> sequencer_tasks s' = sequencer_tasks s ->
  now s <= now s' ->
  progress s -> progress s'.
Proof.
  intros Hci Hc Hlen Hts Hnow
    [Hi Hf Ht|tid t Hr Hf Ht Hat Htime|Hi Hlen0 Hf Ht Htime].
  - apply pr_idle; congruence.
  - apply pr_running with (tid := tid) (t := t); try congruence.
    + unfold in_range in *. now rewrite Hci, Hlen.
    + destruct t; simpl in *; now rewrite Hci, Hlen.
    + rewrite Hci. lia.
  - apply pr_complete; try congruence; lia.
Qed.

(** The sequencer's attempt on the record at [currentIndex] leaves exactly
    one task of the sequencer pending. *)
Lemma attempt_starts rand s s' :
  attempt_result rand (currentIndex s) None
    (FromSequencer (currentIndex s) (ledger_length s)) s s' ->
  in_range s -> allComplete s = false -> sequencer_tasks s = [] ->
  500 * currentIndex s <= now s ->
  progress s' /\ currentIndex s' = currentIndex s
  /\ ledger_length s' = ledger_length s
  /\ exists tid t, sequencer_tasks s' = [(tid, t)].
Proof.
  intros Hres Hr Hf Hts Htime. unfold in_range in Hr.
  inversion Hres as [Hskip|c f Hc Hid Hfn Hcall|c f p Hc Hid Hfn Hcall|c Hc Hid Hfn];
    subst s'; (split; [|fields; repeat split; try reflexivity]).
  - apply pr_running with (tid := nextTask s)
      (t := SettleTimer (now s + 500) (next_action (currentIndex s) (ledger_length s)));
      unfold in_range; fields; auto.
    + now rewrite Hts.
    + unfold at_position. fields. split; [reflexivity|lia].
  - rewrite Hts. do 2 eexists. reflexivity.
  - apply pr_running with (tid := nextTask s)
      (t := SettleTimer (now s + 500) (next_action (currentIndex s) (ledger_length s)));
      unfold in_range; fields; auto.
    + now rewrite Hts.
    + unfold at_position. fields. split; [reflexivity|lia].
  - rewrite Hts. do 2 eexists. reflexivity.
  - apply pr_running with (tid := nextTask s)
      (t := AwaitConnector (currentIndex s) p
              (FromSequencer (currentIndex s) (ledger_length s)));
      unfold in_range; fields; auto.
    + rewrite sequencer_tasks_parked. fields. now rewrite Hts.
    + unfold at_position. fields. auto.
  - rewrite sequencer_tasks_parked. fields. rewrite Hts. do 2 eexists. reflexivity.
  - apply pr_running with (tid := nextTask s)
      (t := MockDelay (currentIndex s) (mock_delay rand)
              (now s + delay_floor (mock_delay rand))
              (FromSequencer (currentIndex s) (ledger_length s)));
      unfold in_range; fields; auto.
    + rewrite sequencer_tasks_parked. fields. now rewrite Hts.
    + unfold at_position. fields. auto.
  - rewrite sequencer_tasks_parked. fields. rewrite Hts. do 2 eexists. reflexivity.
Qed.

Lemma sequencer_continues rand s s' :
  sequencer_result rand s s' ->
  in_range s -> allComplete s = false -> sequencer_tasks s = [] ->
  500 * currentIndex s <= now s ->
  progress s' /\ currentIndex s' = currentIndex s
  /\ ledger_length s' = ledger_length s
  /\ exists tid t, sequencer_tasks s' = [(tid, t)].
Proof.
  intros Hres Hr. unfold sequencer_result in Hres.
  assert (Hc : (0 <=? currentIndex s) && (currentIndex s <? ledger_length s) = true).
  { unfold in_range in Hr. apply andb_true_intro.
    split; [apply Z.leb_le|apply Z.ltb_lt]; lia. }
  rewrite Hc in Hres. now apply attempt_starts with (rand := rand).
Qed.

Lemma sequencer_tasks_moved v s :
  sequencer_tasks (with_currentIndex v s) = sequencer_tasks s.
Proof. reflexivity. Qed.

(** The attempt ends: the outcome is written and the settle timer is the
    sequencer's one pending task. *)
Lemma attempt_ends s tid t st :
  in_range s -> allComplete s = false -> sequencer_tasks s = [(tid, t)] ->
  500 * currentIndex s <= now s ->
  progress (resumed (FromSequencer (currentIndex s) (ledger_length s))
              (written (currentIndex s) st (taken tid s)))
  /\ sequencer_tasks (resumed (FromSequencer (currentIndex s) (ledger_length s))
                        (written (currentIndex s) st (taken tid s)))
     = [(nextTask s, SettleTimer (now s + 500)
                       (next_action (currentIndex s) (ledger_length s)))].
Proof.
  intros Hr Hf Hts Htime. unfold in_range in Hr.
  assert (E : sequencer_tasks (resumed (FromSequencer (currentIndex s) (ledger_length s))
                        (written (currentIndex s) st (taken tid s)))
     = [(nextTask s, SettleTimer (now s + 500)
                       (next_action (currentIndex s) (ledger_length s)))]).
  { fields. rewrite Hts, remove_task_single. reflexivity. }
  split; [|exact E].
  eapply pr_running; [| |exact E| |]; unfold in_range, at_position; fields; auto.
  split; [reflexivity|lia].
Qed.

Lemma remaining_bound s :
  (remaining s <= 2 * Z.to_nat (ledger_length s - currentIndex s))%nat.
Proof.
  unfold remaining. destruct (sequencer_tasks s) as [|[tid t] [|x l]]; try lia.
  all: destruct t; lia.
Qed.

(** Resuming the sequencer's task once it is due moves the sequencer on. *)
Lemma resume_sequencer rand s tid t :
  fresh_ids s -> progress s -> sequencer_tasks s = [(tid, t)] ->
  (forall due, due_time t = Some due -> due <= now s) ->
  exists s',
    step rand (Resume tid) s = (Normal tt, s')
    /\ progress s'
    /\ (remaining s' < remaining s)%nat
    /\ (currentIndex s' = currentIndex s \/ currentIndex s' = currentIndex s + 1).
Proof.
  intros Hfresh Hpr Hts Hdue.
  pose proof (sequencer_task_found s tid t Hfresh Hts) as Hfind.
  destruct Hpr as [_ _ Ht|tid0 t0 Hr Hf Ht Hat Htime|_ _ _ Ht _];
    try (rewrite Ht in Hts; discriminate).
  rewrite Ht in Hts. injection Hts as -> ->.
  pose proof Hr as Hr'. unfold in_range in Hr'.
  destruct t as [index p k|index dl due k|due a].
  - destruct Hat as (-> & ->).
    destruct (attempt_ends s tid _ (settled_status p) Hr Hf Ht Htime) as (Hpr' & Hts').
    eexists. split; [eapply resume_await; exact Hfind|]. split; [exact Hpr'|].
    split; [|left; now fields].
    unfold remaining at 1. rewrite Hts'. unfold remaining. rewrite Ht. fields. lia.
  - destruct Hat as (-> & ->).
    destruct (attempt_ends s tid _ (mock_status rand) Hr Hf Ht Htime) as (Hpr' & Hts').
    eexists. split; [eapply resume_mock; [exact Hfind|now apply Hdue]|].
    split; [exact Hpr'|]. split; [|left; now fields].
    unfold remaining at 1. rewrite Hts'. unfold remaining. rewrite Ht. fields. lia.
  - destruct Hat as (-> & Hbound).
    assert (Hle : due <= now s) by now apply Hdue.
    destruct (@resume_timer rand tid s due _ Hfind Hle) as (s' & Hs' & Hres).
    exists s'. split; [exact Hs'|].
    assert (Hrem : remaining s = (2 * Z.to_nat (ledger_length s - currentIndex s) - 1)%nat)
      by (unfold remaining; now rewrite Ht).
    assert (Hnone : sequencer_tasks (taken tid s) = [])
      by (fields; rewrite Ht; apply remove_task_single).
    unfold next_action in Hres.
    destruct (Z.ltb_spec (currentIndex s) (ledger_length s - 1)) as [Hlt|Hge].
    + unfold advance_result in Hres. fields.
      destruct (Z.eqb_spec (currentIndex s) (currentIndex s + 1)); [lia|].
      destruct (sequencer_continues rand
                  (with_currentIndex (currentIndex s + 1) (taken tid s)) s' Hres)
        as (Hpr' & Hci' & Hlen' & tid' & t' & Hts').
      * unfold in_range, ledger_length in *. simpl. lia.
      * exact Hf.
      * rewrite sequencer_tasks_moved. fields. exact Hnone.
      * change (500 * (currentIndex s + 1) <= now s). lia.
      * simpl in Hci'. split; [exact Hpr'|]. split; [|now right].
        pose proof (remaining_bound s') as Hb. rewrite Hci', Hlen' in Hb.
        change (ledger_length (with_currentIndex (currentIndex s + 1) (taken tid s)))
          with (ledger_length s) in Hb.
        lia.
    + subst s'. split; [|split; [|now left]].
      * apply pr_complete.
        -- change (currentIndex s = ledger_length s - 1). lia.
        -- change (0 < ledger_length s). lia.
        -- reflexivity.
        -- change (sequencer_tasks (taken tid s) = []). fields. exact Hnone.
        -- change (500 * ledger_length s <= now s). nia.
      * unfold remaining at 1.
        change (sequencer_tasks (snd (setAllComplete true (taken tid s))))
          with (sequencer_tasks (taken tid s)).
        fields. rewrite Hnone. lia.
Qed.

Lemma steady_refl s : steady s s.
Proof. unfold steady. split; [auto|]. split; [lia|reflexivity]. Qed.

Lemma steady_trans a b c : steady a b -> steady b c -> steady a c.
Proof.
  unfold steady. intros (H1 & H2 & H3) (H4 & H5 & H6).
  split; [auto|]. split; [lia|congruence].
Qed.

Ltac steady_conditions :=
  first [ apply steady_refl | apply steady_trans
        | unfold steady; intros; (split; [|split]);
          auto using fresh_ids_parked, fresh_ids_taken, ledger_length_written;
          fields; simpl; lia ].

Lemma steady_step rand e s :
  exists s', step rand e s = (Normal tt, s') /\ steady s s'.
Proof. apply forward_step; steady_conditions. Qed.

(** A retry's attempt leaves the sequencer alone. *)
Lemma retry_attempt_aside rand j credentials s s' :
  attempt_result rand j credentials FromRetry s s' ->
  currentIndex s' = currentIndex s /\ allComplete s' = allComplete s
  /\ ledger_length s' = ledger_length s
  /\ sequencer_tasks s' = sequencer_tasks s /\ now s' = now s.
Proof.
  intros [Hskip|c f Hc Hid Hf Hcall|c f p Hc Hid Hf Hcall|c Hc Hid Hf];
    rewrite ?sequencer_tasks_parked; fields; simpl;
    rewrite ?app_nil_r; auto.
Qed.

(** Starting from the idle state. *)
Lemma start_progress rand s s' :
  autoStart_result rand s s' -> progress s -> 0 <= now s ->
  progress s'
  /\ (currentIndex s' = currentIndex s \/ currentIndex s' = currentIndex s + 1).
Proof.
  intros Hres Hpr Hclock. unfold autoStart_result in Hres.
  destruct (autoStart (props s) && (currentIndex s =? -1) && (0 <? ledger_length s))
    eqn:Hc; [|subst s'; auto].
  apply andb_prop in Hc. destruct Hc as (Hc & Hlen).
  apply andb_prop in Hc. destruct Hc as (_ & Hci).
  apply Z.eqb_eq in Hci. apply Z.ltb_lt in Hlen.
  unfold advance_result in Hres. rewrite Hci in Hres. simpl in Hres.
  assert (Hidle : allComplete s = false /\ sequencer_tasks s = []).
  { destruct Hpr as [_ Hf Ht|? ? Hr _ _ _ _|Hi Hl _ _ _]; [auto| |lia].
    unfold in_range in Hr. lia. }
  destruct Hidle as (Hf & Hts).
  assert (Hr : in_range (with_currentIndex 0 s))
    by (unfold in_range, ledger_length in *; simpl; lia).
  assert (Htime : 500 * currentIndex (with_currentIndex 0 s) <= now (with_currentIndex 0 s))
    by (change (500 * 0 <= now s); lia).
  destruct (sequencer_continues rand (with_currentIndex 0 s) s' Hres Hr Hf Hts Htime)
    as (Hpr' & Hci' & _).
  split; [exact Hpr'|]. right. rewrite Hci'. simpl. lia.
Qed.

Lemma orderly_step rand e s :
  orderly s ->
  exists s',
    step rand e s = (Normal tt, s') /\ orderly s'
    /\ (currentIndex s' = currentIndex s \/ currentIndex s' = currentIndex s + 1).
Proof.
  intros [Hfresh Hclock Hpr].
  destruct (steady_step rand e s) as (s' & Hs' & Hfresh' & Hnow & Hlen).
  exists s'. split; [exact Hs'|].
  cut (progress s'
       /\ (currentIndex s' = currentIndex s \/ currentIndex s' = currentIndex s + 1)).
  { intros (Hpr' & Hci'). split; [|exact Hci'].
    constructor; [auto|lia|exact Hpr']. }
  destruct e as [p|index credentials|tid|d].
  - (* a render *)
    destruct (rerender_cases rand p s) as (s1 & Hs1 & Hres).
    rewrite Hs' in Hs1. injection Hs1 as <-.
    unfold rerender_result in Hres.
    destruct (Bool.eqb (autoStart p) (autoStart (props s))).
    + subst s'. split; [|now left]. now apply (progress_same s).
    + apply start_progress in Hres; [exact Hres| |exact Hclock].
      now apply (progress_same s).
  - (* a retry *)
    destruct (runConnection_cases rand index credentials FromRetry s)
      as (s1 & Hs1 & Hres).
    simpl in Hs'. unfold retryConnection in Hs'.
    rewrite Hs' in Hs1. injection Hs1 as <-.
    apply retry_attempt_aside in Hres.
    destruct Hres as (Hci & Hc & _ & Hts & _).
    split; [|now left]. now apply (progress_same s).
  - (* a settlement or a timer *)
    destruct (find_task tid (pendingTasks s)) as [t|] eqn:Ht.
    2:{ rewrite (@resume_unknown rand tid s Ht) in Hs'. injection Hs' as <-. auto. }
    destruct (sequencer_task t) eqn:Hseq.
    + (* the sequencer's own task *)
      assert (Hts : sequencer_tasks s = [(tid, t)]).
      { destruct Hpr as [_ _ Hno|tid0 t0 _ _ Hone _ _|_ _ _ Hno _].
        - apply find_task_In in Ht.
          assert (H : In (tid, t) (sequencer_tasks s))
            by (unfold sequencer_tasks; apply filter_In; auto).
          rewrite Hno in H. destruct H.
        - destruct (found_sequencer_task s tid t tid0 t0 Ht Hseq Hone) as (-> & ->).
          exact Hone.
        - apply find_task_In in Ht.
          assert (H : In (tid, t) (sequencer_tasks s))
            by (unfold sequencer_tasks; apply filter_In; auto).
          rewrite Hno in H. destruct H. }
      destruct (due_time t) as [due|] eqn:Hdue.
      * destruct (Z.le_gt_cases due (now s)) as [Hle|Hgt].
        -- destruct (resume_sequencer rand s tid t Hfresh Hpr Hts)
             as (s1 & Hs1 & Hpr1 & _ & Hci1).
           { intros due0 E. congruence. }
           rewrite Hs' in Hs1. injection Hs1 as <-. auto.
        -- assert (E : step rand (Resume tid) s = (Normal tt, s)).
           { destruct t as [? ? ?|index dl due0 k|due0 a]; [discriminate| |];
               injection Hdue as ->.
             - eapply resume_mock_early; eassumption.
             - eapply resume_timer_early; eassumption. }
           rewrite Hs' in E. injection E as ->. auto.
      * destruct (resume_sequencer rand s tid t Hfresh Hpr Hts)
          as (s1 & Hs1 & Hpr1 & _ & Hci1).
        { intros due0 E. congruence. }
        rewrite Hs' in Hs1. injection Hs1 as <-. auto.
    + (* a retry's task *)
      pose proof (found_retry_task s tid t Hfresh Ht Hseq) as Hkeep.
      destruct t as [index p [|]|index dl due [|]|due a]; try discriminate.
      * rewrite (@resume_await rand tid s index p FromRetry Ht) in Hs'.
        injection Hs' as <-. split; [|now left].
        apply (progress_same s); fields; auto; lia.
      * destruct (Z.le_gt_cases due (now s)) as [Hle|Hgt].
        -- rewrite (@resume_mock rand tid s index dl due FromRetry Ht Hle) in Hs'.
           injection Hs' as <-. split; [|now left].
           apply (progress_same s); fields; auto; lia.
        -- rewrite (@resume_mock_early rand tid s index dl due FromRetry Ht Hgt) in Hs'.
           injection Hs' as <-. auto.
  - (* time passes *)
    split; [|left]; simpl in Hs'; unfold tick in Hs';
      destruct (0 <=? d); injection Hs' as <-; auto.
    apply (progress_same s); simpl; auto; lia.
Qed.

Lemma orderly_exec evs : forall s,
  orderly s -> exists s', exec evs s = (Normal tt, s') /\ orderly s'.
Proof.
  induction evs as [|[rand e] evs IH]; intros s Hs; simpl.
  - exists s. auto.
  - destruct (orderly_step rand e s Hs) as (s1 & Hs1 & H1 & _).
    unfold bind. rewrite Hs1. now apply IH.
Qed.

Lemma orderly_initial p : orderly (initialState p).
Proof.
  constructor.
  - split; [constructor|intros it []].
  - simpl. lia.
  - now apply pr_idle.
Qed.

Lemma orderly_mount rand p :
  exists s, mount rand p = (Normal tt, s) /\ orderly s
            /\ ledger_length s = ledger_length (initialState p).
Proof.
  unfold mount.
  destruct (autoStartEffect_cases rand (initialState p)) as (s & Hs & Hres).
  exists s. split; [exact Hs|].
  destruct (orderly_initial p) as [Hfresh Hclock Hpr].
  assert (Hsteady : steady (initialState p) s).
  { apply forward_autoStart with (rand := rand); [steady_conditions..|exact Hres]. }
  destruct Hsteady as (Hf & Hn & Hl).
  destruct (start_progress rand _ _ Hres Hpr Hclock) as (Hpr' & _).
  split; [|exact Hl]. constructor; [auto|lia|exact Hpr'].
Qed.

Lemma steady_exec evs s :
  exists s', exec evs s = (Normal tt, s') /\ steady s s'.
Proof.
  apply forward_exec; steady_conditions.
Qed.

Lemma orderly_run rand p evs :
  exists s, run rand p evs = (Normal tt, s) /\ orderly s
            /\ ledger_length s = Z.of_nat (length (platformIds p)).
Proof.
  destruct (orderly_mount rand p) as (s0 & Hm & H0 & Hl0).
  unfold run. rewrite Hm.
  destruct (orderly_exec evs s0 H0) as (s & Hs & Hord).
  destruct (steady_exec evs s0) as (s1 & Hs1 & _ & _ & Hl).
  rewrite Hs in Hs1. injection Hs1 as <-.
  exists s. split; [exact Hs|]. split; [exact Hord|].
  rewrite Hl, Hl0. unfold ledger_length, initialState. simpl.
  now rewrite length_map.
Qed.

(** X2: wherever a run stands, retries and renders included, the sequencer's
    position is either -1 (not started) or the index of a record, and the
    sequencer has at most one task of its own pending (its attempt or its
    settle timer), none before it has started: it is never advanced twice.
    [allComplete] is true only when the position is the last record, no task
    of the sequencer is pending any more, and at least 500 ms per record have
    passed; and the record at the position was not reached before 500 ms per
    earlier record had passed. *)
Theorem sequencer_position (rand : float) (p : Props) (evs : list (float * Event)) :
  exists s,
    run rand p evs = (Normal tt, s)
    /\ (currentIndex s = -1
        \/ 0 <= currentIndex s < Z.of_nat (length (platformIds p)))
    /\ (length (sequencer_tasks s) <= 1)%nat
    /\ (currentIndex s = -1 -> sequencer_tasks s = [])
    /\ (allComplete s = true ->
        currentIndex s = Z.of_nat (length (platformIds p)) - 1
        /\ sequencer_tasks s = []
        /\ 500 * Z.of_nat (length (platformIds p)) <= now s)
    /\ 500 * currentIndex s <= now s.
Proof.
  destruct (orderly_run rand p evs) as (s & Hs & [_ Hclock Hpr] & Hlen).
  exists s. split; [exact Hs|]. rewrite <- Hlen.
  destruct Hpr as [Hi Hf Ht|tid t Hr Hf Ht Hat Htime|Hi Hl Hf Ht Htime];
    unfold in_range in *; rewrite Ht; simpl length.
  - split; [now left|]. split; [lia|]. split; [auto|]. split; [congruence|lia].
  - split; [now right|]. split; [lia|]. split; [lia|]. split; [congruence|lia].
  - split; [right; lia|]. split; [lia|]. split; [auto|]. split; [auto|lia].
Qed.

(** X3: from any state a run can reach, one turn leaves [currentIndex] where
    it is or moves it to the next record; it never skips a record and never
    goes back. *)
Theorem currentIndex_moves_by_one (rand rand' : float) (p : Props)
    (evs : list (float * Event)) (e : Event) (s : HookState) :
  run rand p evs = (Normal tt, s) ->
  exists s',
    step rand' e s = (Normal tt, s')
    /\ (currentIndex s' = currentIndex s \/ currentIndex s' = currentIndex s + 1).
Proof.
  intro Hrun. destruct (orderly_run rand p evs) as (s0 & Hs0 & Hord & _).
  rewrite Hrun in Hs0. injection Hs0 as <-.
  destruct (orderly_step rand' e s Hord) as (s' & Hs' & _ & Hci). eauto.
Qed.

Lemma currentIndex_moves_by_one_witness :
  exists s',
    step 0%float (Resume 1%nat) first_settled = (Normal tt, s')
    /\ (currentIndex s' = currentIndex first_settled
        \/ currentIndex s' = currentIndex first_settled + 1).
Proof.
  apply (currentIndex_moves_by_one 0%float 0%float
           (abc_props (Some (always OSuccess)))
           [(0%float, Resume 0%nat); (0%float, Tick 500)] (Resume 1%nat)
           first_settled).
  vm_compute. reflexivity.
Defined.

(** ** The run completes *)

Lemma exec_app evs evs' s s1 :
  exec evs s = (Normal tt, s1) -> exec (evs ++ evs') s = exec evs' s1.
Proof.
  revert s. induction evs as [|[rand e] evs IH]; intros s H; simpl in *.
  - unfold ret in H. now injection H as ->.
  - unfold bind in *. destruct (step rand e s) as [[[]|] s2]; [|discriminate].
    now apply IH.
Qed.

Lemma fire_environment s tid t :
  Forall (fun re : float * Event => environment_turn (snd re)) (fire s tid t).
Proof. unfold fire. destruct (due_time t); repeat constructor. Qed.

(** Firing the sequencer's pending task moves the sequencer on. *)
Lemma fire_moves s tid t :
  orderly s -> sequencer_tasks s = [(tid, t)] ->
  exists s',
    exec (fire s tid t) s = (Normal tt, s') /\ orderly s'
    /\ (remaining s' < remaining s)%nat
    /\ currentIndex s <= currentIndex s'.
Proof.
  intros Hord Hts.
  assert (Hgo : forall s1, orderly s1 -> sequencer_tasks s1 = [(tid, t)] ->
            (forall due, due_time t = Some due -> due <= now s1) ->
            exists s', step 0%float (Resume tid) s1 = (Normal tt, s') /\ orderly s'
                       /\ (remaining s' < remaining s1)%nat
                       /\ currentIndex s1 <= currentIndex s').
  { intros s1 Hord1 Hts1 Hdue. pose proof Hord1 as [Hfresh _ Hpr].
    destruct (resume_sequencer 0%float s1 tid t Hfresh Hpr Hts1 Hdue)
      as (s' & Hs' & _ & Hrem & Hci).
    destruct (orderly_step 0%float (Resume tid) s1 Hord1) as (s2 & Hs2 & Hord2 & _).
    rewrite Hs' in Hs2. injection Hs2 as <-.
    exists s'. split; [exact Hs'|]. split; [exact Hord2|]. split; [exact Hrem|lia]. }
  unfold fire. destruct (due_time t) as [due|] eqn:Hdue.
  - set (d := Z.max 0 (due - now s)).
    assert (Htick : step 0%float (Tick d) s = (Normal tt, with_now (now s + d) s)).
    { simpl. unfold tick. destruct (Z.leb_spec 0 d); [reflexivity|lia]. }
    destruct (orderly_step 0%float (Tick d) s Hord) as (s1 & Hs1 & Hord1 & _).
    rewrite Htick in Hs1. injection Hs1 as <-.
    destruct (Hgo (with_now (now s + d) s) Hord1 Hts) as (s' & Hs' & Hord' & Hrem & Hci).
    { intros due0 [= <-]. simpl. lia. }
    exists s'. split; [|auto].
    simpl. unfold bind. simpl in Htick. rewrite Htick. simpl in Hs'. rewrite Hs'.
    reflexivity.
  - destruct (Hgo s Hord Hts) as (s' & Hs' & Hord' & Hrem & Hci); [discriminate|].
    exists s'. split; [|auto].
    simpl. unfold bind. simpl in Hs'. rewrite Hs'. reflexivity.
Qed.

Lemma drive n : forall s,
  orderly s -> currentIndex s <> -1 -> (remaining s <= n)%nat ->
  exists evs s',
    Forall (fun re : float * Event => environment_turn (snd re)) evs
    /\ exec evs s = (Normal tt, s') /\ orderly s' /\ allComplete s' = true.
Proof.
  induction n as [|n IH]; intros s Hord Hstarted Hn.
  - pose proof Hord as [_ _ Hpr].
    destruct Hpr as [Hi _ _|tid t Hr _ Ht _ _|_ _ Hf _ _]; [contradiction| |].
    + exfalso. unfold in_range in Hr. unfold remaining in Hn. rewrite Ht in Hn.
      destruct t; lia.
    + exists [], s. split; [constructor|]. split; [reflexivity|]. split; assumption.
  - pose proof Hord as [_ _ Hpr].
    destruct Hpr as [Hi _ _|tid t Hr _ Ht _ _|_ _ Hf _ _]; [contradiction| |].
    + destruct (fire_moves s tid t Hord Ht) as (s1 & Hs1 & Hord1 & Hrem & Hci).
      unfold in_range in Hr.
      destruct (IH s1 Hord1) as (evs & s' & Henv & Hs' & Hord' & Hdone); [lia|lia|].
      exists (fire s tid t ++ evs), s'. split; [|split; [|auto]].
      * apply Forall_app. split; [apply fire_environment|exact Henv].
      * rewrite (exec_app _ _ _ _ Hs1). exact Hs'.
    + exists [], s. split; [constructor|]. split; [reflexivity|]. split; assumption.
Qed.

Lemma started_exec evs : forall s,
  orderly s -> 0 <= currentIndex s ->
  exists s', exec evs s = (Normal tt, s') /\ orderly s' /\ 0 <= currentIndex s'.
Proof.
  induction evs as [|[rand e] evs IH]; intros s Hs Hci; simpl.
  - exists s. auto.
  - destruct (orderly_step rand e s Hs) as (s1 & Hs1 & H1 & Hci1).
    unfold bind. rewrite Hs1. apply IH; [exact H1|lia].
Qed.

Lemma mount_starts rand p :
  autoStart p = true -> platformIds p <> [] ->
  exists s, mount rand p = (Normal tt, s) /\ orderly s /\ currentIndex s = 0.
Proof.
  intros Hauto Hids.
  destruct (orderly_mount rand p) as (s & Hs & Hord & _).
  exists s. split; [exact Hs|]. split; [exact Hord|].
  unfold mount in Hs.
  destruct (autoStartEffect_cases rand (initialState p)) as (s1 & Hs1 & Hres).
  rewrite Hs in Hs1. injection Hs1 as <-.
  unfold autoStart_result in Hres.
  assert (Hc : autoStart (props (initialState p))
               && (currentIndex (initialState p) =? -1)
               && (0 <? ledger_length (initialState p)) = true).
  { simpl. rewrite Hauto. simpl. apply Z.ltb_lt.
    unfold ledger_length. simpl. rewrite length_map.
    destruct (platformIds p); [contradiction|simpl; lia]. }
  rewrite Hc in Hres. apply advance_frame in Hres. tauto.
Qed.

(** X4: a run that has started always completes.  When the hook is mounted
    with [autoStart] on and at least one platform id, then whatever has
    happened since (renders, retries, settlements, timers), the environment
    alone can bring the run to its end: there are turns in which nothing but
    pending settlements and timers are resumed and time passes, after which
    [allComplete] is true. *)
Theorem completion_is_reachable (rand : float) (p : Props)
    (evs : list (float * Event)) :
  autoStart p = true -> platformIds p <> [] ->
  exists evs' s,
    Forall (fun re : float * Event => environment_turn (snd re)) evs'
    /\ run rand p (evs ++ evs') = (Normal tt, s)
    /\ allComplete s = true.
Proof.
  intros Hauto Hids.
  destruct (mount_starts rand p Hauto Hids) as (s0 & Hm & H0 & Hci0).
  destruct (started_exec evs s0 H0) as (s1 & Hs1 & H1 & Hci1); [lia|].
  destruct (drive (remaining s1) s1 H1) as (evs' & s & Henv & Hs & _ & Hdone);
    [lia|lia|].
  exists evs', s. split; [exact Henv|]. split; [|exact Hdone].
  unfold run. rewrite Hm. rewrite (exec_app _ _ _ _ Hs1). exact Hs.
Qed.

Lemma completion_is_reachable_witness :
  exists evs' s,
    Forall (fun re : float * Event => environment_turn (snd re)) evs'
    /\ run 0%float (abc_props None) ([(0%float, Retry 1 None)] ++ evs')
       = (Normal tt, s)
    /\ allComplete s = true.
Proof.
  apply (completion_is_reachable 0%float (abc_props None) [(0%float, Retry 1 None)]).
  - reflexivity.
  - discriminate.
Defined.

(** ** What completion means *)

Lemma written_marked_written i st s :
  st <> pending -> written_marked s -> written_marked (written i st s).
Proof.
  intros Hst H w [<-|Hin]; simpl w_index; rewrite status_at_written.
  - rewrite Z.eqb_refl. destruct (status_at i s); simpl; congruence.
  - specialize (H w Hin). destruct (w_index w =? i); [|exact H].
    destruct (status_at (w_index w) s); simpl; congruence.
Qed.

Lemma written_marked_step rand e s :
  exists s', step rand e s = (Normal tt, s')
             /\ (written_marked s -> written_marked s').
Proof.
  apply forward_step with (R := fun s s' => written_marked s -> written_marked s');
    auto using written_marked_written.
Qed.

Lemma written_marked_run rand p evs :
  exists s, run rand p evs = (Normal tt, s) /\ written_marked s.
Proof.
  destruct (forward_run (fun s s' => written_marked s -> written_marked s') rand p evs)
    as (s & Hs & H); auto.
  - apply written_marked_step.
  - intros s s' Hres.
    apply (forward_autoStart (fun s s' => written_marked s -> written_marked s'))
      with (rand := rand); auto using written_marked_written.
  - exists s. split; [exact Hs|]. apply H. intros w [].
Qed.

Lemma complete_settled s :
  sequenced s -> progress s -> written_marked s -> allComplete s = true ->
  pendingTasks s = [] /\ no_connecting s
  /\ forall k c, lookup k (connections s) = Some c ->
                 falsy (platformId c) = false -> terminal (status c).
Proof.
  intros [_ _ _ Hph] Hpr Hmarked Hdone.
  destruct Hpr as [_ Hf _|tid t _ Hf _ _ _|Hci Hlen _ Hnone _]; try congruence.
  assert (Hone : forall tid t, pendingTasks s = [(tid, t)] ->
                               sequencer_task t = true -> False).
  { intros tid t Hts Hseq. unfold sequencer_tasks in Hnone. rewrite Hts in Hnone.
    simpl in Hnone. rewrite Hseq in Hnone. discriminate. }
  destruct Hph as [Hi _ _ _|tid t t0 Hts _ Hatt _ _ _|tid due Hts _ _ _ _
                  |Hts _ Hnc Hsettled].
  - lia.
  - exfalso. apply (Hone tid t Hts).
    destruct t as [index q k|index dl due k|due a]; simpl in Hatt;
      [| |contradiction]; destruct Hatt as (_ & ->); reflexivity.
  - exfalso. apply (Hone _ _ Hts). reflexivity.
  - split; [exact Hts|]. split; [exact Hnc|].
    intros k c Hc Hid.
    assert (Hk : 0 <= k <= currentIndex s).
    { destruct (Z.lt_ge_cases k 0) as [Hneg|Hpos].
      - assert (E : lookup k (connections s) = None)
          by (apply lookup_None_range; lia). congruence.
      - destruct (Z.lt_ge_cases k (ledger_length s)) as [Hlt|Hge]; [lia|].
        assert (E : lookup k (connections s) = None)
          by (apply lookup_None_range; unfold ledger_length in Hge; lia).
        congruence. }
    destruct (Hsettled k Hk) as [(t & st & Hst & Hin)|(_ & c' & Hc' & Hid')];
      [|congruence].
    specialize (Hmarked _ Hin). simpl in Hmarked. specialize (Hnc k).
    unfold status_at in Hmarked, Hnc. rewrite Hc in Hmarked, Hnc. simpl in *.
    unfold terminal. destruct (status c); auto; congruence.
Qed.

(** X5: in a run without retries, [allComplete] reports the truth.  Whenever
    it is true, nothing is pending any more, no record is [connecting], and
    every record with a non-empty [platformId] is [success] or [error]. *)
Theorem completion_means_settled (rand : float) (p : Props)
    (evs : list (float * Event)) :
  Forall (fun re => ~ is_retry (snd re)) evs ->
  exists s,
    run rand p evs = (Normal tt, s)
    /\ (allComplete s = true ->
        pendingTasks s = []
        /\ (forall k, status_at k s <> Some connecting)
        /\ forall k c, lookup k (connections s) = Some c ->
                       falsy (platformId c) = false ->
                       status c = success \/ status c = error).
Proof.
  intro Hevs.
  destruct (sequenced_run rand p Hevs) as (s & Hs & Hseq).
  destruct (orderly_run rand p evs) as (s1 & Hs1 & [_ _ Hpr] & _).
  rewrite Hs in Hs1. injection Hs1 as <-.
  destruct (written_marked_run rand p evs) as (s2 & Hs2 & Hmarked).
  rewrite Hs in Hs2. injection Hs2 as <-.
  exists s. split; [exact Hs|]. intro Hdone.
  exact (complete_settled s Hseq Hpr Hmarked Hdone).
Qed.

Lemma completion_means_settled_witness :
  exists s,
    run 0%float (abc_props (Some (always OSuccess))) full_run = (Normal tt, s)
    /\ (allComplete s = true ->
        pendingTasks s = []
        /\ (forall k, status_at k s <> Some connecting)
        /\ forall k c, lookup k (connections s) = Some c ->
                       falsy (platformId c) = false ->
                       status c = success \/ status c = error).
Proof.
  apply (completion_means_settled 0%float (abc_props (Some (always OSuccess)))
           full_run).
  repeat constructor; simpl; tauto.
Defined.

(** ** Late start *)

Lemma late_start_step rand p' s :
  currentIndex s = -1 -> autoStart (props s) = false -> autoStart p' = true ->
  0 < ledger_length s ->
  step rand (Rerender p') s
  = runConnection rand 0 None (FromSequencer 0 (ledger_length s))
      (with_currentIndex 0 (with_props p' s)).
Proof.
  intros Hci Hoff Hon Hlen. unfold ledger_length in *.
  apply Z.ltb_lt in Hlen.
  simpl. unfold rerender, bind, get, modify. simpl. rewrite Hon, Hoff. simpl.
  unfold autoStartEffect, bind, get. simpl. rewrite Hon, Hci, Hlen. simpl.
  unfold setCurrentIndex, bind, get, modify. simpl. rewrite Hci. simpl.
  unfold sequencerEffect, bind, get. simpl. rewrite Hlen. reflexivity.
Qed.

(** X6: [autoStart] matters only while the run has not started.  Once
    [currentIndex] has left -1 a render does nothing but replace the props,
    whatever they are (the run is not restarted, nothing is cancelled); while
    [currentIndex] is -1, a render that turns [autoStart] on starts the run:
    [currentIndex] becomes 0 and the first record is attempted with the
    Connector of the new props, the other records being left alone. *)
Theorem autoStart_only_starts :
  (forall rand p' s,
     currentIndex s <> -1 ->
     step rand (Rerender p') s = (Normal tt, with_props p' s))
  /\ (forall rand p' s c,
        currentIndex s = -1 -> autoStart (props s) = false ->
        autoStart p' = true ->
        lookup 0 (connections s) = Some c -> falsy (platformId c) = false ->
        exists s',
          step rand (Rerender p') s = (Normal tt, s')
          /\ currentIndex s' = 0 /\ props s' = p'
          /\ (forall k, k <> 0 -> lookup k (connections s') = lookup k (connections s))
          /\ match connectPlatform p' with
             | Some f =>
                 match f (platformId c) None with
                 | Throws => status_at 0 s' = Some error
                 | Returns _ => status_at 0 s' = Some connecting
                 end
             | None => status_at 0 s' = Some connecting
             end).
Proof.
  split.
  - intros rand p' s Hci. simpl. unfold rerender, bind, get, modify. simpl.
    destruct (Bool.eqb (autoStart p') (autoStart (props s))); [reflexivity|].
    unfold autoStartEffect, bind, get. simpl.
    destruct (Z.eqb_spec (currentIndex s) (-1)) as [E|_]; [contradiction|].
    now rewrite andb_false_r.
  - intros rand p' s c Hci Hoff Hon Hc Hid.
    assert (Hlen : 0 < ledger_length s).
    { unfold ledger_length. destruct (connections s); [discriminate|simpl; lia]. }
    rewrite (late_start_step rand p' s Hci Hoff Hon Hlen).
    destruct (runConnection_cases rand 0 None (FromSequencer 0 (ledger_length s))
                (with_currentIndex 0 (with_props p' s))) as (s' & Hs' & Hres).
    exists s'. split; [exact Hs'|].
    pose proof (@attempt_frame _ _ _ _ _ _ Hres) as (Hother & _ & Hci' & _ & _ & Hp' & _).
    split; [exact Hci'|]. split; [exact Hp'|]. split; [exact Hother|].
    assert (Hc1 : lookup 0 (connections (with_currentIndex 0 (with_props p' s))) = Some c)
      by exact Hc.
    inversion Hres as [Hskip|c0 f Hc0 Hid0 Hf Hcall|c0 f q Hc0 Hid0 Hf Hcall
                      |c0 Hc0 Hid0 Hf]; subst s'.
    + rewrite Hc1 in Hskip. congruence.
    + rewrite Hc1 in Hc0. injection Hc0 as <-.
      change (connectPlatform p' = Some f) in Hf. rewrite Hf, Hcall.
      unfold status_at. fields.
      erewrite lookup_set_status_same; [reflexivity|].
      eapply lookup_set_status_same. exact Hc.
    + rewrite Hc1 in Hc0. injection Hc0 as <-.
      change (connectPlatform p' = Some f) in Hf. rewrite Hf, Hcall.
      unfold status_at. fields.
      erewrite lookup_set_status_same; [reflexivity|exact Hc].
    + rewrite Hc1 in Hc0. injection Hc0 as <-.
      change (connectPlatform p' = None) in Hf. rewrite Hf.
      unfold status_at. fields.
      erewrite lookup_set_status_same; [reflexivity|exact Hc].
Qed.

Lemma autoStart_only_starts_witness :
  step 0%float (Rerender manual_props) first_settled
  = (Normal tt, with_props manual_props first_settled)
  /\ exists s',
       step 0%float (Rerender manual_props_on) manual_mounted = (Normal tt, s')
       /\ currentIndex s' = 0 /\ status_at 0 s' = Some connecting.
Proof.
  destruct autoStart_only_starts as (Hstay & Hstart). split.
  - apply Hstay. vm_compute. discriminate.
  - destruct (Hstart 0%float manual_props_on manual_mounted (mkConn "A" pending))
      as (s' & Hs' & Hci & _ & _ & Hst); try reflexivity.
    exists s'. split; [exact Hs'|]. split; [exact Hci|exact Hst].
Defined.

(** ** What the ledger shows *)

Lemma lookup_written k i st s c' :
  lookup k (connections (written i st s)) = Some c' ->
  exists c, lookup k (connections s) = Some c
            /\ platformId c' = platformId c
            /\ status c' = if k =? i then st else status c.
Proof.
  fields. rewrite lookup_set_status.
  destruct (lookup k (connections s)) as [c|]; [|discriminate].
  simpl. intros [= <-]. exists c. split; [reflexivity|].
  now destruct (k =? i).
Qed.

Lemma written_lookup k i st s c :
  lookup k (connections s) = Some c ->
  exists c', lookup k (connections (written i st s)) = Some c'
             /\ platformId c' = platformId c.
Proof.
  intro Hc. fields. rewrite lookup_set_status, Hc. simpl.
  eexists. split; [reflexivity|]. now destruct (k =? i).
Qed.

Lemma fits_same_id f st c c' : platformId c' = platformId c -> fits f st c -> fits f st c'.
Proof. unfold fits. now intros ->. Qed.

Lemma named_written k i st s : named s k -> named (written i st s) k.
Proof.
  intros (c & Hc & Hid). destruct (written_lookup k i st s c Hc) as (c' & Hc' & E).
  exists c'. split; [exact Hc'|]. now rewrite E.
Qed.

Lemma task_fits_written f i st s t : task_fits f s t -> task_fits f (written i st s) t.
Proof.
  destruct t as [index q k|index d due k|due a]; simpl; auto.
  intros (c & Hc & Hid & Hq).
  destruct (written_lookup index i st s c Hc) as (c' & Hc' & E).
  exists c'. rewrite E. auto.
Qed.

(** A write that fits its record keeps the ledger, the tasks and the history
    fitting. *)
Lemma answering_written f i st s :
  connectPlatform (props s) = Some f ->
  (forall tid t, In (tid, t) (pendingTasks s) -> task_fits f s t) ->
  (forall k c, k <> i -> lookup k (connections s) = Some c -> fits f (status c) c) ->
  (forall w, In w (history s) -> named s (w_index w)) ->
  (forall c, lookup i (connections s) = Some c -> fits f st c) ->
  named s i ->
  answering f (written i st s).
Proof.
  intros Hp Hts Hother Hh Hi Hnamed. constructor.
  - exact Hp.
  - intros tid t Hin. apply task_fits_written. exact (Hts tid t Hin).
  - intros k c' Hc'. apply lookup_written in Hc'.
    destruct Hc' as (c & Hc & Hid & Hst). rewrite Hst.
    apply (fits_same_id f _ c c' Hid).
    destruct (Z.eqb_spec k i) as [->|Hne]; [now apply Hi|now apply (Hother k)].
  - intros w [<-|Hin]; apply named_written; [exact Hnamed|now apply Hh].
Qed.

Lemma answering_parked f t s :
  answering f s -> task_fits f s t -> answering f (parked t s).
Proof.
  intros [Hp Hts Hl Hh] Ht. constructor; auto.
  intros tid t' Hin. fields. apply in_app_iff in Hin.
  destruct Hin as [Hin|[[= <- <-]|[]]]; [|exact Ht].
  exact (Hts tid t' Hin).
Qed.

Lemma answering_resumed f k s : answering f s -> answering f (resumed k s).
Proof.
  intro H. destruct k; simpl; [exact H|]. apply answering_parked; simpl; auto.
Qed.

Lemma answering_taken f tid s : answering f s -> answering f (taken tid s).
Proof.
  intros [Hp Hts Hl Hh]. constructor; auto.
  intros tid' t Hin. fields. apply remove_task_In in Hin. exact (Hts tid' t Hin).
Qed.

Lemma answering_same f s s' :
  connectPlatform (props s') = Some f -> pendingTasks s' = pendingTasks s ->
  connections s' = connections s -> history s' = history s ->
  answering f s -> answering f s'.
Proof.
  intros Hp' Hts' Hl' Hh' [Hp Hts Hl Hh]. constructor; [exact Hp'| | |].
  - intros tid t. rewrite Hts'. intro Hin. specialize (Hts tid t Hin).
    destruct t; simpl in *; auto. now rewrite Hl'.
  - intros k c. rewrite Hl'. apply Hl.
  - intros w. rewrite Hh'. intro Hin. unfold named. rewrite Hl'. now apply Hh.
Qed.

(** An attempt without credentials, whoever starts it. *)
Lemma answering_attempt f rand j k s s' :
  attempt_result rand j None k s s' -> answering f s -> answering f s'.
Proof.
  intros Hres Hans. pose proof Hans as [Hp Hts Hl Hh].
  inversion Hres as [Hskip|c g Hc Hid Hg Hcall|c g q Hc Hid Hg Hcall|c Hc Hid Hg];
    subst s'.
  - now apply answering_resumed.
  - rewrite Hp in Hg. injection Hg as <-.
    assert (Hnamed : named s j) by (exists c; auto).
    apply answering_resumed. apply answering_written.
    + exact Hp.
    + intros tid t Hin. apply task_fits_written. exact (Hts tid t Hin).
    + intros k0 c0 Hne Hc0. apply lookup_written in Hc0.
      destruct Hc0 as (c1 & Hc1 & Hid1 & Hst1).
      destruct (Z.eqb_spec k0 j); [contradiction|]. rewrite Hst1.
      apply (fits_same_id f _ c1 c0 Hid1). now apply (Hl k0).
    + intros w [<-|Hin]; apply named_written; [exact Hnamed|now apply Hh].
    + intros c0 Hc0. apply lookup_written in Hc0.
      destruct Hc0 as (c1 & Hc1 & Hid1 & _). rewrite Hc in Hc1. injection Hc1 as <-.
      unfold fits. rewrite Hid1, Hcall. reflexivity.
    + now apply named_written.
  - rewrite Hp in Hg. injection Hg as <-.
    assert (Hnamed : named s j) by (exists c; auto).
    assert (Hw : answering f (written j connecting s)).
    { apply answering_written; auto.
      - intros k0 c0 _. apply Hl.
      - intros c0 Hc0. rewrite Hc in Hc0. injection Hc0 as <-.
        unfold fits. eauto. }
    apply answering_parked; [exact Hw|].
    simpl. exists (mkConn (platformId c) connecting).
    split; [|split; [exact Hid|exact Hcall]].
    fields. now apply lookup_set_status_same.
  - congruence.
Qed.

Lemma answering_sequencer f rand s s' :
  sequencer_result rand s s' -> answering f s -> answering f s'.
Proof.
  intros Hres H0. unfold sequencer_result in Hres.
  destruct ((0 <=? currentIndex s) && (currentIndex s <? ledger_length s));
    [|now subst s'].
  eapply answering_attempt; eassumption.
Qed.

Lemma answering_advance f rand v s s' :
  advance_result rand v s s' -> answering f s -> answering f s'.
Proof.
  intros Hres H0. unfold advance_result in Hres.
  destruct (currentIndex s =? v); [now subst s'|].
  apply (answering_sequencer f rand _ _ Hres). pose proof H0 as [Hp0 _ _ _].
  now apply (answering_same f s).
Qed.

Lemma answering_autoStart f rand s s' :
  autoStart_result rand s s' -> answering f s -> answering f s'.
Proof.
  intros Hres H0. unfold autoStart_result in Hres.
  destruct (autoStart (props s) && (currentIndex s =? -1) && (0 <? ledger_length s));
    [|now subst s'].
  eapply answering_advance; eassumption.
Qed.

Lemma answering_step f rand e s :
  answering f s -> same_connector f e ->
  exists s', step rand e s = (Normal tt, s') /\ answering f s'.
Proof.
  intros Hans He. pose proof Hans as [Hp Hts Hl Hh].
  destruct e as [p|index credentials|tid|d].
  - (* a render that keeps the Connector *)
    simpl in He. destruct (rerender_cases rand p s) as (s' & Hs' & Hres).
    exists s'. split; [exact Hs'|].
    assert (H1 : answering f (with_props p s)) by now apply (answering_same f s).
    unfold rerender_result in Hres.
    destruct (Bool.eqb (autoStart p) (autoStart (props s))); [now subst s'|].
    exact (answering_autoStart f rand _ _ Hres H1).
  - (* a retry without credentials *)
    destruct credentials as [cr|]; [contradiction|].
    destruct (runConnection_cases rand index None FromRetry s) as (s' & Hs' & Hres).
    exists s'. split; [exact Hs'|]. eapply answering_attempt; eassumption.
  - (* a settlement or a timer *)
    destruct (find_task tid (pendingTasks s)) as [[index q k|index dl due k|due a]|]
      eqn:Ht.
    + eexists. split; [eapply resume_await; exact Ht|].
      pose proof (Hts _ _ (find_task_In _ _ Ht)) as (c & Hc & Hid & Hq).
      apply answering_resumed.
      destruct (answering_taken f tid s Hans) as [Hp1 Hts1 Hl1 Hh1].
      apply answering_written; auto.
      * intros k0 c0 _. apply Hl1.
      * intros c0 Hc0. change (lookup index (connections s) = Some c0) in Hc0.
        rewrite Hc in Hc0. injection Hc0 as <-.
        unfold fits. rewrite Hq. simpl. destruct (settled_status q); eauto.
      * exists c. auto.
    + destruct (Hts _ _ (find_task_In _ _ Ht)).
    + destruct (Z.le_gt_cases due (now s)) as [Hdue|Hearly].
      * destruct (@resume_timer rand tid s due a Ht Hdue) as (s' & Hs' & Hres).
        exists s'. split; [exact Hs'|].
        pose proof (answering_taken f tid s Hans) as H1.
        destruct a as [v|]; [exact (answering_advance f rand _ _ _ Hres H1)|].
        subst s'. pose proof H1 as [Hp1 _ _ _].
        now apply (answering_same f (taken tid s)).
      * exists s. split; [eapply resume_timer_early; eassumption|exact Hans].
    + exists s. split; [now apply resume_unknown|exact Hans].
  - simpl. unfold tick. destruct (0 <=? d).
    + eexists. split; [reflexivity|]. now apply (answering_same f s).
    + exists s. split; [reflexivity|exact Hans].
Qed.

Lemma answering_exec f evs : forall s,
  answering f s -> Forall (fun re => same_connector f (snd re)) evs ->
  exists s', exec evs s = (Normal tt, s') /\ answering f s'.
Proof.
  induction evs as [|[rand e] evs IH]; intros s Hs Hevs; simpl.
  - exists s. auto.
  - inversion Hevs as [|x l He Hevs']; subst. simpl in He.
    destruct (answering_step f rand e s Hs He) as (s1 & Hs1 & H1).
    unfold bind. rewrite Hs1. now apply IH.
Qed.

Lemma answering_initial f p :
  connectPlatform p = Some f -> answering f (initialState p).
Proof.
  intro Hp. constructor; [exact Hp|intros tid t []| |intros w []].
  intros k c Hc. unfold lookup, initialState in Hc. simpl in Hc.
  destruct (k <? 0); [discriminate|]. rewrite nth_error_map in Hc.
  destruct (nth_error (platformIds p) (Z.to_nat k)); [|discriminate].
  injection Hc as <-. exact I.
Qed.

Lemma answering_run f rand p evs :
  connectPlatform p = Some f ->
  Forall (fun re => same_connector f (snd re)) evs ->
  exists s, run rand p evs = (Normal tt, s) /\ answering f s.
Proof.
  intros Hp Hevs. unfold run, mount.
  destruct (autoStartEffect_cases rand (initialState p)) as (s0 & Hs0 & Hres).
  rewrite Hs0.
  pose proof (answering_autoStart f rand _ _ Hres (answering_initial f p Hp)) as H0.
  exact (answering_exec f evs s0 H0 Hevs).
Qed.

(** X7: the ledger shows what the Connector answered.  In a run with a
    Connector that stays the same and is called without credentials
    (renders that keep it, retries without credentials, settlements, timers),
    every record that is [success] or [error] shows the answer of the
    Connector for its [platformId] ([error] if the call throws or its
    promise is rejected, the promise's outcome otherwise), and every record
    that is [connecting] is one for which the Connector returned a promise.
    (The Connector is a function of its arguments here.) *)
Theorem ledger_shows_the_answers (rand : float) (p : Props) (f : Connector)
    (evs : list (float * Event)) :
  connectPlatform p = Some f ->
  Forall (fun re => same_connector f (snd re)) evs ->
  exists s,
    run rand p evs = (Normal tt, s)
    /\ forall k c,
         lookup k (connections s) = Some c ->
         match status c with
         | pending => True
         | connecting => exists q, f (platformId c) None = Returns q
         | st => st = answer (f (platformId c) None)
         end.
Proof.
  intros Hp Hevs.
  destruct (answering_run f rand p evs Hp Hevs) as (s & Hs & [_ _ Hl _]).
  exists s. split; [exact Hs|].
  intros k c Hc. specialize (Hl k c Hc). unfold fits in Hl.
  destruct (status c); exact Hl.
Qed.

Lemma ledger_shows_the_answers_witness :
  exists s,
    run 0%float (abc_props (Some mixed))
      (full_run ++ [(0%float, Retry 1 None); (0%float, Resume 6%nat)])
    = (Normal tt, s)
    /\ forall k c,
         lookup k (connections s) = Some c ->
         match status c with
         | pending => True
         | connecting => exists q, mixed (platformId c) None = Returns q
         | st => st = answer (mixed (platformId c) None)
         end.
Proof.
  apply (ledger_shows_the_answers 0%float (abc_props (Some mixed)) mixed
           (full_run ++ [(0%float, Retry 1 None); (0%float, Resume 6%nat)])).
  - reflexivity.
  - repeat constructor.
Defined.

Lemma unwritten_pending_written i st s :
  unwritten_pending s -> unwritten_pending (written i st s).
Proof.
  intros H k c Hc Hno. apply lookup_written in Hc.
  destruct Hc as (c0 & Hc0 & _ & Hst).
  assert (Hne : k <> i)
    by (intros ->; apply (Hno (mkWrite (now s) i st)); [now left|reflexivity]).
  destruct (Z.eqb_spec k i); [contradiction|]. rewrite Hst.
  apply (H k c0 Hc0). intros w Hin. apply Hno. now right.
Qed.

Lemma unwritten_pending_step rand e s :
  exists s', step rand e s = (Normal tt, s')
             /\ (unwritten_pending s -> unwritten_pending s').
Proof.
  apply forward_step with (R := fun s s' => unwritten_pending s -> unwritten_pending s');
    auto using unwritten_pending_written.
Qed.

Lemma unwritten_pending_run rand p evs :
  exists s, run rand p evs = (Normal tt, s) /\ unwritten_pending s.
Proof.
  destruct (forward_run (fun s s' => unwritten_pending s -> unwritten_pending s')
              rand p evs) as (s & Hs & H); auto.
  - apply unwritten_pending_step.
  - intros s s' Hres.
    apply (forward_autoStart (fun s s' => unwritten_pending s -> unwritten_pending s'))
      with (rand := rand); auto using unwritten_pending_written.
  - exists s. split; [exact Hs|]. apply H.
    intros k c Hc _. unfold lookup, initialState in Hc. simpl in Hc.
    destruct (k <? 0); [discriminate|]. rewrite nth_error_map in Hc.
    destruct (nth_error (platformIds p) (Z.to_nat k)); [|discriminate].
    now injection Hc as <-.
Qed.

Lemma In_lookup c l : In c l -> exists k, lookup k l = Some c.
Proof.
  intro Hin. apply In_nth_error in Hin. destruct Hin as (n & Hn).
  exists (Z.of_nat n). unfold lookup.
  destruct (Z.ltb_spec (Z.of_nat n) 0); [lia|]. now rewrite Nat2Z.id.
Qed.

Lemma filter_map_length {A B : Type} (g : A -> bool) (h : B -> bool) (k : A -> B) l :
  (forall x, In x l -> g x = h (k x)) ->
  length (filter g l) = length (filter h (map k l)).
Proof.
  induction l as [|x l IH]; simpl; intro H; [reflexivity|].
  rewrite <- (H x) by now left.
  destruct (g x); simpl; rewrite IH; auto.
Qed.

(** X8: the result of a run.  In a run without retries whose Connector stays
    the same, once [allComplete] is true the ledger is, record by record in
    the order of the platform ids, the Connector's answer for the id
    ([success] or [error]; [error] when the call throws or the promise is
    rejected), except that a record with an empty id is still [pending]; and
    [successCount] is the number of non-empty ids the Connector answers
    [success] for. *)
Theorem completed_run_result (rand : float) (p : Props) (f : Connector)
    (evs : list (float * Event)) :
  connectPlatform p = Some f ->
  Forall (fun re => same_connector f (snd re) /\ ~ is_retry (snd re)) evs ->
  exists s,
    run rand p evs = (Normal tt, s)
    /\ (allComplete s = true ->
        map status (connections s) = map (final_status f) (platformIds p)
        /\ successCount s
           = length (filter (fun id => Status_eqb (final_status f id) success)
                       (platformIds p))).
Proof.
  intros Hp Hevs.
  assert (Hsame : Forall (fun re => same_connector f (snd re)) evs)
    by (eapply Forall_impl; [|exact Hevs]; simpl; tauto).
  assert (Hnoretry : Forall (fun re => ~ is_retry (snd re)) evs)
    by (eapply Forall_impl; [|exact Hevs]; simpl; tauto).
  destruct (sequenced_run rand p Hnoretry) as (s & Hs & Hseq).
  destruct (orderly_run rand p evs) as (s1 & Hs1 & [_ _ Hpr] & _).
  rewrite Hs in Hs1. injection Hs1 as <-.
  destruct (written_marked_run rand p evs) as (s2 & Hs2 & Hmarked).
  rewrite Hs in Hs2. injection Hs2 as <-.
  destruct (unwritten_pending_run rand p evs) as (s3 & Hs3 & Hunwritten).
  rewrite Hs in Hs3. injection Hs3 as <-.
  destruct (answering_run f rand p evs Hp Hsame) as (s4 & Hs4 & [_ _ Hl Hh]).
  rewrite Hs in Hs4. injection Hs4 as <-.
  pose proof (same_shape_run rand p evs) as Hshape.
  apply ensures_elim in Hshape. destruct Hshape as ([] & s5 & Hs5 & Hshape).
  rewrite Hs in Hs5. injection Hs5 as <-.
  unfold same_shape in Hshape. rewrite initial_ids in Hshape.
  unfold ledger_ids in Hshape.
  exists s. split; [exact Hs|]. intro Hdone.
  destruct (complete_settled s Hseq Hpr Hmarked Hdone) as (_ & _ & Hterminal).
  assert (Hpoint : forall c, In c (connections s) ->
                             status c = final_status f (platformId c)).
  { intros c Hin. destruct (In_lookup c _ Hin) as (k & Hc).
    unfold final_status. destruct (falsy (platformId c)) eqn:Hid.
    - apply (Hunwritten k c Hc). intros w Hw E. subst k.
      destruct (Hh w Hw) as (c' & Hc' & Hid'). congruence.
    - pose proof (Hterminal k c Hc Hid) as Hst. specialize (Hl k c Hc).
      unfold fits in Hl. destruct Hst as [E|E]; rewrite E in *; exact Hl. }
  rewrite <- Hshape. split.
  - rewrite map_map. apply map_ext_in. exact Hpoint.
  - unfold successCount. apply filter_map_length.
    intros c Hin. now rewrite (Hpoint c Hin).
Qed.

Lemma completed_run_result_witness :
  exists s,
    run 0%float (abc_props (Some mixed)) full_run = (Normal tt, s)
    /\ (allComplete s = true ->
        map status (connections s) = [success; error; success]
        /\ successCount s = 2%nat).
Proof.
  apply (completed_run_result 0%float (abc_props (Some mixed)) mixed full_run).
  - reflexivity.
  - repeat constructor; simpl; tauto.
Defined.

(** * Properties of the services *)

(** ** Strings *)

Lemma split_first sep s :
  exists d pieces, Js.split sep s = d :: pieces /\ before sep s d.
Proof.
  induction s as [|c s IH]; simpl.
  - exists EmptyString, []. split; [reflexivity|]. split; [intros c []|now left].
  - destruct (Ascii.eqb_spec c sep) as [->|Hne].
    + exists EmptyString, (Js.split sep s). split; [reflexivity|].
      split; [intros c []|]. right. exists s. reflexivity.
    + destruct IH as (d & pieces & -> & Hno & Hs).
      exists (String c d), pieces. split; [reflexivity|]. split.
      * intros c' [<-|Hin]; [exact Hne|now apply Hno].
      * destruct Hs as [->|(rest & ->)]; [now left|].
        right. exists rest. reflexivity.
Qed.

Lemma prefix_occurs needle s :
  prefix needle s = true <-> exists b, s = (needle ++ b)%string.
Proof.
  revert s. induction needle as [|c needle IH]; intro s.
  - split; [intros _; exists s; reflexivity|intros _; now destruct s].
  - destruct s as [|c' s]; simpl.
    + split; [discriminate|intros (b & Hb); discriminate].
    + destruct (Ascii.ascii_dec c c') as [<-|Hne].
      * rewrite IH. split; intros (b & Hb); exists b; [now rewrite Hb|congruence].
      * split; [discriminate|intros (b & Hb); congruence].
Qed.

Lemma includes_eq needle s :
  Js.includes needle s
  = if prefix needle s then true
    else match s with
         | EmptyString => false
         | String _ s' => Js.includes needle s'
         end.
Proof. destruct s; reflexivity. Qed.

Lemma includes_occurs needle s :
  Js.includes needle s = true <-> occurs needle s.
Proof.
  induction s as [|c s IH]; rewrite includes_eq.
  - destruct (prefix needle EmptyString) eqn:Hp.
    + split; [intros _|reflexivity]. apply prefix_occurs in Hp.
      destruct Hp as (b & Hb). exists EmptyString, b. exact Hb.
    + split; [discriminate|]. intros (a & b & Hab).
      destruct a; simpl in Hab; [|discriminate].
      assert (H : prefix needle EmptyString = true) by (apply prefix_occurs; eauto).
      congruence.
  - destruct (prefix needle (String c s)) eqn:Hp.
    + split; [intros _|reflexivity]. apply prefix_occurs in Hp.
      destruct Hp as (b & Hb). exists EmptyString, b. exact Hb.
    + rewrite IH. split.
      * intros (a & b & ->). exists (String c a), b. reflexivity.
      * intros (a & b & Hab). destruct a as [|c' a]; simpl in Hab.
        -- assert (H : prefix needle (String c s) = true)
             by (apply prefix_occurs; eauto).
           congruence.
        -- injection Hab as -> ->. exists a, b. reflexivity.
Qed.

(** ** The authentication service *)

Lemma first_piece sep s :
  exists d, nth_error (Js.split sep s) 0 = Some d /\ before sep s d.
Proof.
  destruct (split_first sep s) as (d & pieces & -> & Hd). exists d. auto.
Qed.

(** X9: the name a session shows.  [displayName] is always set: it is the
    nickname when the backend sends a non-empty one; otherwise what the name
    holds before its first space, when that is not empty; otherwise what the
    email holds before its first [@] (which can be empty).  [login],
    [signup] and [getCurrentUser] build the same user from the same
    backend user. *)
Theorem displayName_rule (toISOString : Z -> string) :
  (forall (u : BackendUser.t) (created updated : Z),
     exists d,
       User.displayName
         (auth.transformUser toISOString (BackendUserData.mk u) created updated)
       = Some d
       /\ match BackendUser.nickname u with
          | Some (String c n) => d = String c n
          | _ =>
              match BackendUser.name u with
              | Some nm =>
                  (d <> EmptyString /\ before " " nm d)
                  \/ (before " " nm EmptyString
                      /\ before "@" (BackendUser.email u) d)
              | None => before "@" (BackendUser.email u) d
              end
          end)
  /\ (forall (response : BackendAuthResponse.t) (created updated issued : Z),
        AuthResponse.user
          (auth.transformAuthResponse toISOString response created updated issued)
        = auth.transformUser toISOString
            (BackendUserData.mk
               (BackendAuthData.user (BackendAuthResponse.data response)))
            created updated).
Proof.
  split; [|reflexivity].
  intros u created updated. unfold auth.transformUser. simpl.
  assert (Hrest :
    exists d,
      Js.or
        (match BackendUser.name u with
         | Some n => nth_error (Js.split " " n) 0
         | None => None
         end)
        (nth_error (Js.split "@" (BackendUser.email u)) 0) = Some d
      /\ match BackendUser.name u with
         | Some nm =>
             (d <> EmptyString /\ before " " nm d)
             \/ (before " " nm EmptyString /\ before "@" (BackendUser.email u) d)
         | None => before "@" (BackendUser.email u) d
         end).
  { destruct (first_piece "@" (BackendUser.email u)) as (l & Hl & Hbl).
    destruct (BackendUser.name u) as [nm|].
    - destruct (first_piece " " nm) as (w & Hw & Hbw). rewrite Hw, Hl.
      destruct w as [|c w]; simpl.
      + exists l. split; [reflexivity|]. right. auto.
      + exists (String c w). split; [reflexivity|]. left. split; [discriminate|exact Hbw].
    - rewrite Hl. exists l. auto. }
  destruct (BackendUser.nickname u) as [[|c n]|]; simpl.
  - exact Hrest.
  - exists (String c n). auto.
  - exact Hrest.
Qed.



(** X11: the mock [login].  It rejects with status 400 exactly when the email
    is empty; otherwise it resolves with the fixed mock tokens and a user who
    has the email given, no nickname, and as name what the email holds
    before its first [@]; and a mock [signup] with the same email and an empty
    name resolves with the same session. *)
Theorem mock_login_rule (toISOString : Z -> string)
    (credentials : LoginFormData.t) (created updated issued : Z) :
  (LoginFormData.email credentials = EmptyString ->
   auth.mockAuthService.login toISOString credentials created updated issued
   = Js.Rejects (Js.ApiError 400 "Email required for mock login" None))
  /\ (LoginFormData.email credentials <> EmptyString ->
      exists r,
        auth.mockAuthService.login toISOString credentials created updated issued
        = Js.Fulfils r
        /\ User.email (AuthResponse.user r) = LoginFormData.email credentials
        /\ User.nickname (AuthResponse.user r) = None
        /\ (exists local,
              User.name (AuthResponse.user r) = Some local
              /\ before "@" (LoginFormData.email credentials) local)
        /\ AuthTokens.accessToken (AuthResponse.tokens r) = "mock-access-token"%string
        /\ AuthTokens.refreshToken (AuthResponse.tokens r) = "mock-refresh-token"%string
        /\ forall password,
             auth.mockAuthService.signup toISOString
               (SignupFormData.mk (LoginFormData.email credentials) password EmptyString)
               created updated issued
             = Js.Fulfils r).
Proof.
  destruct credentials as [email password]. cbn [LoginFormData.email].
  unfold auth.mockAuthService.login. cbn [LoginFormData.email]. split.
  - intros ->. reflexivity.
  - intro Hne.
    assert (Ht : negb (Js.truthy (Some email)) = false)
      by (destruct email; [contradiction|reflexivity]).
    rewrite Ht.
    destruct (first_piece "@" email) as (l & Hl & Hbl).
    eexists. split; [reflexivity|].
    unfold auth.transformAuthResponse, auth.mockAuthService.signup.
    cbn [AuthResponse.user AuthResponse.tokens User.email User.nickname User.name
         AuthTokens.accessToken AuthTokens.refreshToken BackendAuthResponse.data
         BackendAuthData.user BackendAuthData.accessToken
         BackendAuthData.refreshToken BackendUser.email BackendUser.nickname
         BackendUser.name BackendUser.id SignupFormData.email SignupFormData.name].
    split; [reflexivity|]. split; [reflexivity|].
    split; [exists l; auto|]. split; [reflexivity|]. split; [reflexivity|].
    intro password'. reflexivity.
Qed.

Lemma mock_login_rule_witness :
  exists r,
    auth.mockAuthService.login iso_stub (LoginFormData.mk "ada.l@example.com" "pw") 0 0 0
    = Js.Fulfils r
    /\ User.name (AuthResponse.user r) = Some "ada.l"%string
    /\ User.displayName (AuthResponse.user r) = Some "ada.l"%string.
Proof.
  destruct (mock_login_rule iso_stub (LoginFormData.mk "ada.l@example.com" "pw") 0 0 0)
    as (_ & Hok).
  destruct Hok as (r & Hr & _); [discriminate|].
  exists r. split; [exact Hr|].
  unfold auth.mockAuthService.login in Hr. simpl in Hr. injection Hr as <-.
  split; reflexivity.
Defined.

(** ** The portfolio service *)

Lemma map_index_length {A B : Type} (f : A -> nat -> B) l :
  forall i, length (Js.map_index f i l) = length l.
Proof. induction l as [|x l IH]; intro i; simpl; [reflexivity|now rewrite IH]. Qed.

Lemma map_index_nth_error {A B : Type} (f : A -> nat -> B) l :
  forall i n,
    nth_error (Js.map_index f i l) n
    = option_map (fun x => f x (i + n)%nat) (nth_error l n).
Proof.
  induction l as [|x l IH]; intros i n.
  - now destruct n.
  - destruct n as [|n]; simpl.
    + now rewrite Nat.add_0_r.
    + rewrite IH. now rewrite Nat.add_succ_r.
Qed.

Lemma map_index_map {A B C : Type} (f : A -> nat -> B) (g : B -> C) (h : A -> C) l :
  (forall x i, g (f x i) = h x) ->
  forall i, map g (Js.map_index f i l) = map h l.
Proof.
  intro Hgf. induction l as [|x l IH]; intro i; simpl; [reflexivity|].
  now rewrite Hgf, IH.
Qed.

Lemma digits_no_dash d :
  forall c, In c (list_ascii_of_string (NilEmpty.string_of_uint d)) -> c <> "-"%char.
Proof.
  induction d; simpl; intros c H; try contradiction;
    destruct H as [<-|H]; try discriminate; auto.
Qed.

Lemma decimal_inj i j : Js.decimal i = Js.decimal j -> i = j.
Proof.
  unfold Js.decimal. intro H. apply DecimalNat.Unsigned.to_uint_inj.
  assert (E : NilEmpty.uint_of_string (NilEmpty.string_of_uint (Nat.to_uint i))
              = NilEmpty.uint_of_string (NilEmpty.string_of_uint (Nat.to_uint j)))
    by now rewrite H.
  rewrite !NilEmpty.usu in E. congruence.
Qed.

Lemma dash_inside a b :
  In "-"%char (list_ascii_of_string (a ++ String "-" b)).
Proof. induction a as [|c a IH]; simpl; auto. Qed.

(** What follows the last dash is determined by the whole string. *)
Lemma after_last_dash a a' d d' :
  (a ++ String "-" d)%string = (a' ++ String "-" d')%string ->
  (forall c, In c (list_ascii_of_string d) -> c <> "-"%char) ->
  (forall c, In c (list_ascii_of_string d') -> c <> "-"%char) ->
  d = d'.
Proof.
  revert a'. induction a as [|c a IH]; intros [|c' a'] H Hd Hd'; simpl in H.
  - congruence.
  - injection H as <- ->. exfalso. apply (Hd "-"%char); [apply dash_inside|reflexivity].
  - injection H as -> <-. exfalso. apply (Hd' "-"%char); [apply dash_inside|reflexivity].
  - injection H as _ H. eauto.
Qed.

Lemma or_zero_number x : is_nan (Js.or_zero x) = false.
Proof.
  destruct x as [f|]; simpl; [|reflexivity].
  destruct (is_nan f) eqn:Hn; simpl; [reflexivity|].
  destruct (is_zero f); [reflexivity|exact Hn].
Qed.

(** X12: the assets [transformPortfolio] returns.  There is one per backend
    asset, in the same order with the same symbols; their [id]s are pairwise
    different, even when one symbol occurs twice or holds dashes and digits;
    and no [change24h], of an asset or of the portfolio, is [NaN], whatever
    the backend sent ([null], [NaN] and zero all become 0). *)
Theorem transformPortfolio_assets (parseFloat : string -> float)
    (backendData : BackendPortfolioResponse.t) :
  length (Portfolio.assets (portfolio.transformPortfolio parseFloat backendData))
  = length (BackendPortfolioResponse.assets backendData)
  /\ map Asset.symbol
       (Portfolio.assets (portfolio.transformPortfolio parseFloat backendData))
     = map BackendAsset.symbol (BackendPortfolioResponse.assets backendData)
  /\ NoDup (map Asset.id
              (Portfolio.assets (portfolio.transformPortfolio parseFloat backendData)))
  /\ Forall (fun a => is_nan (Asset.change24h a) = false)
       (Portfolio.assets (portfolio.transformPortfolio parseFloat backendData))
  /\ is_nan (Portfolio.change24h (portfolio.transformPortfolio parseFloat backendData))
     = false.
Proof.
  unfold portfolio.transformPortfolio. cbn [Portfolio.assets Portfolio.change24h].
  set (f := fun (asset : BackendAsset.t) (index : nat) => Asset.mk _ _ _ _ _ _ _ _ _).
  split; [apply map_index_length|].
  split; [now apply map_index_map|].
  split; [|split; [|apply or_zero_number]].
  - apply NoDup_nth_error. intros i j Hi E.
    rewrite length_map, map_index_length in Hi.
    rewrite !nth_error_map, !map_index_nth_error in E.
    destruct (nth_error (BackendPortfolioResponse.assets backendData) i) as [x|] eqn:Hx;
      [|apply nth_error_None in Hx; lia].
    destruct (nth_error (BackendPortfolioResponse.assets backendData) j) as [y|] eqn:Hy;
      [|discriminate].
    cbn [option_map] in E. injection E as E. subst f. cbn [Asset.id] in E.
    apply decimal_inj.
    eapply after_last_dash; [exact E| |]; apply digits_no_dash.
  - apply Forall_forall. intros a Ha. apply In_nth_error in Ha.
    destruct Ha as (n & Hn). rewrite map_index_nth_error in Hn.
    destruct (nth_error (BackendPortfolioResponse.assets backendData) n) as [x|];
      [|discriminate].
    simpl in Hn. injection Hn as <-. apply or_zero_number.
Qed.



Lemma fold_map_index {A B : Type} (f : A -> nat -> B) (h : B -> float)
    (k : A -> float) l :
  (forall x i, h (f x i) = k x) ->
  forall i acc,
    fold_left (fun sum b => (sum + h b)%float) (Js.map_index f i l) acc
    = fold_left (fun sum x => (sum + k x)%float) l acc.
Proof.
  intro Hhf. induction l as [|x l IH]; intros i acc; simpl; [reflexivity|].
  now rewrite Hhf, IH.
Qed.

(** X14: the total of a portfolio.  A backend total that parses to a finite
    number above zero is taken as it is, whatever the assets add up to; any
    other total (zero, negative, [NaN], infinite) is replaced by the sum of
    the parsed asset values, added in list order starting from 0, which is 0
    when there are no assets. *)
Theorem totalValue_rule (parseFloat : string -> float)
    (backendData : BackendPortfolioResponse.t) :
  (is_finite (parseFloat (BackendPortfolioResponse.total_value backendData)) = true ->
   (0 <? parseFloat (BackendPortfolioResponse.total_value backendData))%float = true ->
   Portfolio.totalValue (portfolio.transformPortfolio parseFloat backendData)
   = parseFloat (BackendPortfolioResponse.total_value backendData))
  /\ (is_finite (parseFloat (BackendPortfolioResponse.total_value backendData)) = false
      \/ (0 <? parseFloat (BackendPortfolioResponse.total_value backendData))%float = false ->
      Portfolio.totalValue (portfolio.transformPortfolio parseFloat backendData)
      = fold_left
          (fun sum asset => (sum + parseFloat (BackendAsset.value_usd asset))%float)
          (BackendPortfolioResponse.assets backendData) 0%float
      /\ (BackendPortfolioResponse.assets backendData = [] ->
          Portfolio.totalValue (portfolio.transformPortfolio parseFloat backendData)
          = 0%float)).
Proof.
  unfold portfolio.transformPortfolio. cbn [Portfolio.totalValue].
  set (f := fun (asset : BackendAsset.t) (index : nat) => Asset.mk _ _ _ _ _ _ _ _ _).
  rewrite (fold_map_index f Asset.value
             (fun asset => parseFloat (BackendAsset.value_usd asset)))
    by reflexivity.
  split.
  - intros -> ->. reflexivity.
  - intros Hbad.
    assert (E : is_finite (parseFloat (BackendPortfolioResponse.total_value backendData))
                && (0 <? parseFloat (BackendPortfolioResponse.total_value backendData))%float
                = false).
    { destruct Hbad as [-> | ->]; [reflexivity|apply andb_false_r]. }
    rewrite E. split; [reflexivity|]. intros ->. reflexivity.
Qed.

Lemma totalValue_rule_witness :
  Portfolio.totalValue
    (portfolio.transformPortfolio (fun _ => nan)
       (BackendPortfolioResponse.mk "1" "n/a" None []
          (BackendCategories.mk "0" "0" "0") []))
  = 0%float.
Proof.
  destruct (totalValue_rule (fun _ => nan)
              (BackendPortfolioResponse.mk "1" "n/a" None []
                 (BackendCategories.mk "0" "0" "0") [])) as (_ & H).
  destruct H as (_ & H0); [left; reflexivity|].
  apply H0. reflexivity.
Defined.
